(** * The conversational session engine of the Splitwise Telegram bot

    A shallow embedding of the bot's event handlers (the file stored as
    [src/config.js]: [cleanUpSession], [setButtonTimeout] and its expiry
    callback, the command handlers, [bot.on("callback_query")] and
    [bot.on("message")]) together with the properties of the session
    lifecycle checked against them.

    Modelling conventions.
    - One handler runs to completion before the next event is taken; the
      [.then] continuations of [bot.sendMessage] run as soon as the message
      is sent, and [bot.sendMessage] itself always succeeds.
    - A session is a JavaScript object reached through references: the
      store [userSessions] maps a chat to a location of the [heap], and a
      timer closure keeps the location it captured when it was armed.
    - Everything the outside world decides during one handler (answers of
      the Splitwise API, whether an edit or a deletion of a message
      succeeds, whether the database accepts a write) is read from an
      [env] record that comes with the event.
    - A text that is also a command reaches both [bot.onText] and
      [bot.on("message")]: it is two events here, one per handler. A
      timer that fires and a request to [/oauth/callback] are events of
      their own.
    - Strings are byte strings; whitespace is the ASCII part of the
      JavaScript classes. *)

From Stdlib Require Import ZArith Lia String Ascii SpecFloat.
From stdpp Require Import base option list gmap strings pretty.

Open Scope Z_scope.

(** ** JavaScript numbers: IEEE 754 binary64 *)

Module JsNumber.
Local Open Scope string_scope.

Definition number : Type := spec_float.

Definition prec : Z := 53.
Definition emax : Z := 1024.

(** The Number value of an integer. *)
Definition of_Z (z : Z) : number := binary_normalize prec emax z 0 false.

Definition NaN : number := S754_nan.

Definition isNaN (x : number) : bool :=
  match x with S754_nan => true | _ => false end.

(** [x / y] *)
Definition div (x y : number) : number := SFdiv prec emax x y.

(** [x <= 0] *)
Definition le_zero (x : number) : bool :=
  match x with
  | S754_nan => false
  | S754_zero _ => true
  | S754_infinity s => s
  | S754_finite s _ _ => s
  end.

(** The Number value of the decimal numeral [n / 10^k] (n >= 0), rounded
    to nearest, ties to even: what [parseFloat] returns for a string of
    digits with [k] digits after the point. *)
Definition of_decimal (n : Z) (k : nat) : number :=
  match n with
  | Zpos p =>
      SFdiv prec emax (S754_finite false p 0)
            (S754_finite false (Z.to_pos (10 ^ Z.of_nat k)) 0)
  | _ => S754_zero false
  end.

(** [floor (m * 2^e * 100 + 1/2)]: the integer [n] for which [n / 100]
    is closest to [m * 2^e], the larger one of two. *)
Definition nearest_cents (m : positive) (e : Z) : Z :=
  match e with
  | Zneg p => (200 * Zpos m + 2 ^ Zpos p) / (2 * 2 ^ Zpos p)
  | _ => 100 * Zpos m * 2 ^ e
  end.

(** [m * 2^e >= 10^21] *)
Definition ge_1e21 (m : positive) (e : Z) : bool :=
  match e with
  | Zneg p => (10 ^ 21 * 2 ^ Zpos p <=? Zpos m)%Z
  | _ => (10 ^ 21 <=? Zpos m * 2 ^ e)%Z
  end.

(** The digits of [n] cents in fixed notation with two decimals. *)
Definition fixed2 (n : Z) : string :=
  let ds : string := pretty (Z.to_N n) in
  let ds := if (String.length ds <=? 2)%nat
            then String.concat "" (replicate (3 - String.length ds) "0") ++ ds
            else ds in
  let k := String.length ds in
  substring 0 (k - 2) ds ++ "." ++ substring (k - 2) 2 ds.

(** [x.toFixed(2)]. From 1e21 on the source falls back to the exponent
    notation of [Number::toString]; its digits are not computed here and
    the result is [None]. *)
Definition toFixed2 (x : number) : option string :=
  match x with
  | S754_nan => Some "NaN"
  | S754_infinity s => Some (if s then "-Infinity" else "Infinity")
  | S754_zero _ => Some "0.00"
  | S754_finite s m e =>
      if ge_1e21 m e then None
      else Some ((if s then "-" else "") ++ fixed2 (nearest_cents m e))
  end.

(** The text a template literal shows for [x.toFixed(2)]. *)
Definition show_fixed2 (x : number) : string :=
  default "<exponent notation>" (toFixed2 x).

End JsNumber.

(** ** JavaScript strings *)

Module JsString.
Local Open Scope string_scope.

Definition is_ws (c : ascii) : bool :=
  let n := nat_of_ascii c in
  ((9 <=? n) && (n <=? 13) || (n =? 32))%nat.

Definition is_digit (c : ascii) : bool :=
  let n := nat_of_ascii c in ((48 <=? n) && (n <=? 57))%nat.

Definition is_upper (c : ascii) : bool :=
  let n := nat_of_ascii c in ((65 <=? n) && (n <=? 90))%nat.

Fixpoint drop_ws (s : string) : string :=
  match s with
  | String c s' => if is_ws c then drop_ws s' else s
  | EmptyString => EmptyString
  end.

Definition rev_string (s : string) : string :=
  string_of_list_ascii (rev (list_ascii_of_string s)).

(** [s.trim()] *)
Definition trim (s : string) : string :=
  rev_string (drop_ws (rev_string (drop_ws s))).

(** [s.startsWith(p)] *)
Definition startsWith (p s : string) : bool := String.prefix p s.

(** [s.split("_")] *)
Fixpoint split_us (s : string) : list string :=
  match s with
  | EmptyString => [EmptyString]
  | String c s' =>
      if Ascii.eqb c "_" then EmptyString :: split_us s'
      else match split_us s' with
           | x :: r => String c x :: r
           | [] => [String c EmptyString]
           end
  end.

Definition digit_val (c : ascii) : Z := Z.of_nat (nat_of_ascii c) - 48.

Fixpoint digits_val (acc : Z) (s : string) : Z :=
  match s with
  | String c s' => if is_digit c then digits_val (10 * acc + digit_val c) s' else acc
  | EmptyString => acc
  end.

(** [parseInt(s, 10)]; [None] is NaN. The value is kept as an integer:
    it is only used as an array index. *)
Definition parseInt (s : string) : option Z :=
  let s := drop_ws s in
  let '(neg, s) :=
    match s with
    | String "-" s' => (true, s')
    | String "+" s' => (false, s')
    | _ => (false, s)
    end in
  match s with
  | String c _ =>
      if is_digit c
      then Some (if neg then - digits_val 0 s else digits_val 0 s)
      else None
  | EmptyString => None
  end.

Fixpoint take_digits (s : string) : string :=
  match s with
  | String c s' => if is_digit c then String c (take_digits s') else EmptyString
  | EmptyString => EmptyString
  end.

Fixpoint drop_digits (s : string) : string :=
  match s with
  | String c s' => if is_digit c then drop_digits s' else s
  | EmptyString => EmptyString
  end.

(** [parseFloat(s)] for numerals without exponent part (all that the
    amount pattern lets through): the longest prefix of the form
    sign, digits, point, digits. *)
Definition parseFloat (s : string) : JsNumber.number :=
  let s := drop_ws s in
  let '(neg, s) :=
    match s with
    | String "-" s' => (true, s')
    | String "+" s' => (false, s')
    | _ => (false, s)
    end in
  let int_part := take_digits s in
  let frac_part :=
    match drop_digits s with
    | String "." r => take_digits r
    | _ => EmptyString
    end in
  match int_part ++ frac_part with
  | EmptyString => JsNumber.NaN
  | ds =>
      let x := JsNumber.of_decimal (digits_val 0 ds) (String.length frac_part) in
      if neg then SFopp x else x
  end.

End JsString.

(** ** Regular expressions with capture groups (backtracking, greedy) *)

Module Regex.

Inductive regex :=
| Class (p : ascii → bool)            (* one character of a class *)
| Cat (r1 r2 : regex)                 (* r1 r2 *)
| Rep (r : regex) (lo : nat) (hi : option nat)
                                      (* r{lo,hi}; no upper bound: r{lo,} *)
| Group (i : nat) (r : regex).        (* the i-th capture group *)

Definition Opt (r : regex) : regex := Rep r 0 (Some 1%nat).
Definition Plus (r : regex) : regex := Rep r 1 None.
Definition Star (r : regex) : regex := Rep r 0 None.

Definition captures := gmap nat string.

Section Match.
(** The whole input, to cut captured substrings out of it. *)
Variable input : string.

Definition pos_of (rest : string) : nat :=
  (String.length input - String.length rest)%nat.

(** [rep] tries [n] more iterations before it gives the rest to the
    continuation, the first [lo] of them mandatory. *)
Fixpoint rmatch (r : regex) (k : string → captures → option captures)
    (s : string) (c : captures) {struct r} : option captures :=
  match r with
  | Class p =>
      match s with
      | String a s' => if p a then k s' c else None
      | EmptyString => None
      end
  | Cat r1 r2 => rmatch r1 (rmatch r2 k) s c
  | Rep r lo hi =>
      (fix rep (n lo : nat) (s : string) (c : captures) {struct n}
         : option captures :=
         match n with
         | O => match lo with O => k s c | S _ => None end
         | S n' =>
             match lo with
             | S lo' => rmatch r (rep n' lo') s c
             | O => match rmatch r (rep n' O) s c with
                    | Some c' => Some c'
                    | None => k s c
                    end
             end
         end)
        (match hi with Some h => h | None => S (String.length s) end)
        lo s c
  | Group i r =>
      rmatch r
        (λ s' c', k s' (<[i := substring (pos_of s)
                                  (pos_of s' - pos_of s) input]> c'))
        s c
  end.
End Match.

(** [s.match(/^r$/)]: the captures, if the whole of [s] matches. *)
Definition match_anchored (r : regex) (s : string) : option captures :=
  rmatch s r (λ rest c, match rest with EmptyString => Some c | _ => None end)
         s ∅.

End Regex.

(** ** The bot *)

Module Bot.
Import JsNumber JsString Regex.
Local Open Scope string_scope.
Local Open Scope list_scope.

(** *** Data *)

Definition nl : string := String (ascii_of_nat 10) EmptyString.

(** [s || d] on strings that may be null *)
Definition or_str (o : option string) (d : string) : string :=
  match o with
  | Some s => if String.eqb s "" then d else s
  | None => d
  end.

(** What a template literal shows for a string that may be null. *)
Definition show_str (o : option string) : string := default "null" o.

(** What a template literal shows for a property that may be undefined. *)
Definition show_undef (o : option string) : string := default "undefined" o.

Record balance := Balance {
  b_amount : option string;
  b_currency_code : option string }.

Record member := Member {
  m_id : Z;
  m_first_name : option string;
  m_last_name : option string;
  m_balance : list balance }.

Record group := Group_ {
  g_id : Z;
  g_name : string;
  g_members : list member }.

Record button := Button { b_text : string; b_callback_data : string }.
Definition keyboard := list (list button).

(** A row of the [Token] table. *)
Record token := Token { accessToken : string; defaultGroupId : option string }.

(** A session object. Every property may be missing. *)
Record session := Session {
  userId : option Z;
  step : option string;
  groupId : option string;
  description : option string;
  amount : option number;
  currencyCode : option string;
  groups : option (list group);
  members : option (list member);
  selectedMembers : option (list Z);
  messageIds : option (list Z);
  timeout : option nat;
  loginMessageId : option Z }.

(** [{}] *)
Definition empty_object : session :=
  Session None None None None None None None None None None None None.

Definition set_timeout (t : option nat) (s : session) : session :=
  Session (userId s) (step s) (groupId s) (description s) (amount s)
          (currencyCode s) (groups s) (members s) (selectedMembers s)
          (messageIds s) t (loginMessageId s).

Definition set_messageIds (l : option (list Z)) (s : session) : session :=
  Session (userId s) (step s) (groupId s) (description s) (amount s)
          (currencyCode s) (groups s) (members s) (selectedMembers s)
          l (timeout s) (loginMessageId s).

Definition set_step (x : option string) (s : session) : session :=
  Session (userId s) x (groupId s) (description s) (amount s)
          (currencyCode s) (groups s) (members s) (selectedMembers s)
          (messageIds s) (timeout s) (loginMessageId s).

Definition set_description (x : option string) (s : session) : session :=
  Session (userId s) (step s) (groupId s) x (amount s)
          (currencyCode s) (groups s) (members s) (selectedMembers s)
          (messageIds s) (timeout s) (loginMessageId s).

Definition set_amount (x : option number) (s : session) : session :=
  Session (userId s) (step s) (groupId s) (description s) x
          (currencyCode s) (groups s) (members s) (selectedMembers s)
          (messageIds s) (timeout s) (loginMessageId s).

Definition set_currencyCode (x : option string) (s : session) : session :=
  Session (userId s) (step s) (groupId s) (description s) (amount s)
          x (groups s) (members s) (selectedMembers s)
          (messageIds s) (timeout s) (loginMessageId s).

Definition set_members (x : option (list member)) (s : session) : session :=
  Session (userId s) (step s) (groupId s) (description s) (amount s)
          (currencyCode s) (groups s) x (selectedMembers s)
          (messageIds s) (timeout s) (loginMessageId s).

Definition set_selectedMembers (x : option (list Z)) (s : session) : session :=
  Session (userId s) (step s) (groupId s) (description s) (amount s)
          (currencyCode s) (groups s) (members s) x
          (messageIds s) (timeout s) (loginMessageId s).

(** JSON values of a request body. [JFixed] is the string [toFixed(2)]
    returned. *)
Inductive jval :=
| JStr (s : string)
| JNum (z : Z)
| JBool (b : bool)
| JFixed (s : option string).

(** The object of a request body, as a map from property names. *)
Abbreviation object := (gmap string jval).

(** Calls made to the outside world, in the order they are made. An
    [AnswerCallbackQuery] with [Some text] is the answer with that text
    and [show_alert: true]; with [None] it is the bare answer. The
    [parse_mode] of a message is left out. *)
Inductive effect :=
| SendMessage (chat : Z) (text : string) (markup : option keyboard)
              (message_id : Z)
| EditMessageReplyMarkup (markup : keyboard) (chat message_id : Z)
| DeleteMessage (chat message_id : Z)
| AnswerCallbackQuery (query_id : string) (alert : option string)
| GetGroups (bearer : option string)
| GetGroup (group_id : string) (bearer : option string)
| CreateExpense (bearer : option string) (body : object)
| ExchangeCode                       (* POST to the token endpoint *)
| HttpResponse (status : nat) (body : string).

(** The answer of [create_expense]: [errors.base] when it is an array,
    and the length of [expenses] when it is one. *)
Record expense_data := ExpenseData {
  errors_base : option (list string);
  expenses : option nat }.

(** What the outside world answers while one handler runs. For a
    request, [None] means that the request or the decoding of its
    answer throws. *)
Record env := Env {
  CLIENT_ID : string;
  REDIRECT_URI : string;
  get_groups : option (option (list group));   (* data.groups *)
  get_group : option (option group);           (* groupData.group *)
  create_expense : option expense_data;
  exchange_code : option (option string);      (* data.access_token *)
  edit_ok : bool;
  delete_ok : Z → bool;
  db_write_ok : bool }.

(** Locations of session objects. *)
Abbreviation loc := nat.

(** The closure given to [setTimeout] in [setButtonTimeout]. *)
Record timer := Timer {
  t_chat : Z;
  t_message : Z;                (* sentMessage.message_id *)
  t_session : option loc }.     (* the captured [session] *)

Record world := World {
  heap : gmap loc session;
  userSessions : gmap Z loc;
  timers : gmap nat timer;      (* the pending timers *)
  tokens : gmap Z token;
  next_loc : loc;
  next_timer : nat;
  next_message : Z;
  trace : list effect }.

Definition initial : world := World ∅ ∅ ∅ ∅ 0%nat 0%nat 1 [].

Definition set_heap (h : gmap loc session) (w : world) : world :=
  World h (userSessions w) (timers w) (tokens w) (next_loc w)
        (next_timer w) (next_message w) (trace w).

Definition set_userSessions (u : gmap Z loc) (w : world) : world :=
  World (heap w) u (timers w) (tokens w) (next_loc w)
        (next_timer w) (next_message w) (trace w).

Definition set_timers (t : gmap nat timer) (w : world) : world :=
  World (heap w) (userSessions w) t (tokens w) (next_loc w)
        (next_timer w) (next_message w) (trace w).

Definition set_tokens (t : gmap Z token) (w : world) : world :=
  World (heap w) (userSessions w) (timers w) t (next_loc w)
        (next_timer w) (next_message w) (trace w).

(** *** Handlers: state, [return] and exceptions *)

Inductive res (A : Type) :=
| Val (a : A)     (* the statement completed *)
| Ret             (* the handler executed [return] *)
| Thr.            (* an exception is propagating *)
Arguments Val {A} a.
Arguments Ret {A}.
Arguments Thr {A}.

Definition M (A : Type) : Type := world → res A * world.

Definition ret {A} (a : A) : M A := λ w, (Val a, w).
Definition return_ : M unit := λ w, (Ret, w).
Definition throw {A} : M A := λ w, (Thr, w).

Definition bind {A B} (m : M A) (k : A → M B) : M B :=
  λ w, match m w with
       | (Val a, w') => k a w'
       | (Ret, w') => (Ret, w')
       | (Thr, w') => (Thr, w')
       end.

#[export] Instance M_ret : MRet M := @ret.
#[export] Instance M_bind : MBind M := λ A B k m, bind m k.

(** [try { body } catch { handler }] *)
Definition try_catch (body handler : M unit) : M unit :=
  λ w, match body w with
       | (Thr, w') => handler w'
       | r => r
       end.

(** [try { body } finally { fin }] *)
Definition try_finally (body fin : M unit) : M unit :=
  λ w, let '(r, w') := body w in
       match fin w' with
       | (Val _, w'') => (r, w'')
       | r' => r'
       end.

(** [for (const x of l) body] *)
Fixpoint for_of {A} (l : list A) (body : A → M unit) : M unit :=
  match l with
  | [] => ret ()
  | x :: l' => body x ;; for_of l' body
  end.

Definition get {A} (f : world → A) : M A := λ w, (Val (f w), w).
Definition put (f : world → world) : M unit := λ w, (Val (), f w).

Definition emit (e : effect) : M unit :=
  put (λ w, World (heap w) (userSessions w) (timers w) (tokens w)
                  (next_loc w) (next_timer w) (next_message w)
                  (trace w ++ [e])).

(** *** The chat transport *)

Definition sendMessage (chat : Z) (text : string) (markup : option keyboard)
  : M Z :=
  λ w, let i := next_message w in
       (Val i, World (heap w) (userSessions w) (timers w) (tokens w)
                     (next_loc w) (next_timer w) (i + 1)
                     (trace w ++ [SendMessage chat text markup i])).

Definition editMessageReplyMarkup (E : env) (markup : keyboard)
    (chat message_id : Z) : M unit :=
  emit (EditMessageReplyMarkup markup chat message_id) ;;
  if edit_ok E then ret () else throw.

Definition deleteMessage (E : env) (chat message_id : Z) : M unit :=
  emit (DeleteMessage chat message_id) ;;
  if delete_ok E message_id then ret () else throw.

Definition answerCallbackQuery (query_id : string) (alert : option string)
  : M unit :=
  emit (AnswerCallbackQuery query_id alert).

(** *** Session objects and the store *)

(** [userSessions[chatId]] *)
Definition lookup_session (chat : Z) : M (option loc) :=
  get (λ w, userSessions w !! chat).

(** Reading a property of [o]; a TypeError when [o] is undefined. *)
Definition prop {A} (f : session → A) (o : option loc) : M A :=
  match o with
  | None => throw
  | Some l => λ w, match heap w !! l with
                   | Some s => (Val (f s), w)
                   | None => (Thr, w)
                   end
  end.

(** Updating the object at [l] in place. *)
Definition modify (l : loc) (f : session → session) : M unit :=
  put (λ w, set_heap (alter f l (heap w)) w).

(** [userSessions[chatId] = { ... }]: a new object takes the place of
    whatever the store held for the chat. *)
Definition assign_session (chat : Z) (s : session) : M unit :=
  λ w, let l := next_loc w in
       (Val (), World (<[l := s]> (heap w)) (<[chat := l]> (userSessions w))
                      (timers w) (tokens w) (S l) (next_timer w)
                      (next_message w) (trace w)).

(** [delete userSessions[chatId]] *)
Definition store_delete (chat : Z) : M unit :=
  put (λ w, set_userSessions (delete chat (userSessions w)) w).

Definition setTimeout (tm : timer) : M nat :=
  λ w, let t := next_timer w in
       (Val t, World (heap w) (userSessions w) (<[t := tm]> (timers w))
                     (tokens w) (next_loc w) (S t) (next_message w)
                     (trace w)).

Definition clearTimeout (t : nat) : M unit :=
  put (λ w, set_timers (delete t (timers w)) w).

(** [if (session && session.timeout)
      { clearTimeout(session.timeout); delete session.timeout; }] *)
Definition clear_session_timeout (session : option loc) : M unit :=
  match session with
  | None => ret ()
  | Some l =>
      t ← prop timeout session;
      match t with
      | Some t => clearTimeout t ;; modify l (set_timeout None)
      | None => ret ()
      end
  end.

(** [if (!o.messageIds) o.messageIds = []; o.messageIds.push(id);] *)
Definition record_message (o : option loc) (message_id : Z) : M unit :=
  match o with
  | None => throw
  | Some l =>
      modify l (λ s, set_messageIds
                       (Some (default [] (messageIds s) ++ [message_id])) s)
  end.

(** [o.messageIds.push(id)] *)
Definition push_message (o : option loc) (message_id : Z) : M unit :=
  ids ← prop messageIds o;
  match o, ids with
  | Some l, Some ids => modify l (set_messageIds (Some (ids ++ [message_id])))
  | _, _ => throw
  end.

(** The deletion loop shared by every path that ends a session:
    [for (const messageId of messageIds)
       { try { await bot.deleteMessage(chatId, messageId); } catch { log } }] *)
Definition delete_messages (E : env) (chat : Z) (ids : list Z) : M unit :=
  for_of ids (λ i, try_catch (deleteMessage E chat i) (ret ())).

Definition cleanUpSession (E : env) (chatId : Z) : M unit :=
  session ← lookup_session chatId;
  match session with
  | None => ret ()
  | Some _ =>
      clear_session_timeout session ;;
      ids ← prop messageIds session;
      delete_messages E chatId (default [] ids) ;;
      store_delete chatId
  end.

(** The callback of the timer armed by [setButtonTimeout]. *)
Definition onExpire (E : env) (tm : timer) : M unit :=
  let chatId := t_chat tm in
  try_catch
    (editMessageReplyMarkup E [] chatId (t_message tm) ;;
     deleteMessage E chatId (t_message tm))
    (ret ()) ;;
  expired ← sendMessage chatId
    "The session has expired. Please try again if needed." None;
  record_message (t_session tm) expired ;;
  store_delete chatId.

Definition setButtonTimeout (chatId : Z) (sent : Z) : M unit :=
  session ← lookup_session chatId;
  clear_session_timeout session ;;
  t ← setTimeout (Timer chatId sent session);
  (match session with
   | None => assign_session chatId empty_object
   | Some _ => ret ()
   end) ;;
  cur ← lookup_session chatId;
  match cur with
  | None => throw
  | Some l =>
      modify l (set_timeout (Some t)) ;;
      record_message session sent
  end.

(** *** The database and the Splitwise API *)

(** [Token.findOne({ where: { chatId } })] *)
Definition findToken (chatId : Z) : M (option token) :=
  get (λ w, tokens w !! chatId).

(** [loadToken(chatId)]: [token ? token.accessToken : null] *)
Definition loadToken (chatId : Z) : M (option string) :=
  get (λ w, accessToken <$> tokens w !! chatId).

(** Truth value of a string that may be null. *)
Definition truthy (o : option string) : bool :=
  match o with
  | Some s => negb (String.eqb s "")
  | None => false
  end.

(** A write to the [Token] table. *)
Definition db_write (E : env) (f : gmap Z token → gmap Z token) : M unit :=
  if db_write_ok E then put (λ w, set_tokens (f (tokens w)) w) else throw.

(** [await (await fetch(...)).json()] *)
Definition fetch {A} (e : effect) (answer : option A) : M A :=
  emit e ;;
  match answer with
  | Some a => ret a
  | None => throw
  end.

(** A [.then] continuation: what it throws rejects a promise nobody
    waits for. *)
Definition then_ (m : M unit) : M unit := try_catch m (ret ()).

(** *** Texts and keyboards *)

Definition member_line (m : member) : string :=
  let firstName := or_str (m_first_name m) "" in
  let lastName := or_str (m_last_name m) "" in
  let '(balanceAmount, balanceCurrency) :=
    match m_balance m with
    | b :: _ => (or_str (b_amount b) "0.00", or_str (b_currency_code b) "")
    | [] => ("0.00", "")
    end in
  "- " +:+ firstName +:+ " " +:+ lastName +:+
  (if String.eqb balanceCurrency ""
   then " (Balance: " +:+ balanceAmount +:+ ")"
   else " (Balance: " +:+ balanceAmount +:+ " " +:+ balanceCurrency +:+ ")")
  +:+ nl.

Definition group_info (members_title : string) (g : group) : string :=
  "*Group Name*: " +:+ g_name g +:+ nl +:+ members_title +:+ nl +:+
  String.concat "" (member_line <$> g_members g).

Definition group_buttons (prefix : string) (gs : list group) : keyboard :=
  (λ g, [Button (g_name g) (prefix +:+ pretty (g_id g))]) <$> gs.

Definition submit_row : list button :=
  [Button "Submit" "submit_selected_members"].

Definition member_name (m : member) : string :=
  show_str (m_first_name m) +:+ " " +:+ show_str (m_last_name m).

(** The keyboard of [splitEquallyNo] (nothing selected yet, no mark). *)
Definition member_buttons (ms : list member) : keyboard :=
  imap (λ idx m, [Button (member_name m)
                         ("toggle_member_" +:+ pretty idx)]) ms
  ++ [submit_row].

(** The keyboard a toggle renders. The mark is the source's literal. *)
Definition check_mark : string := "âœ…".

Definition toggled_buttons (ms : list member) (selected : list Z) : keyboard :=
  imap (λ idx m,
          [Button (member_name m +:+ " " +:+
                   (if bool_decide (m_id m ∈ selected) then check_mark else ""))
                  ("toggle_member_" +:+ pretty idx)]) ms
  ++ [submit_row].

(** *** Commands *)

Definition new_session (userId : option Z) (step groupId : option string)
    (groups : option (list group)) : session :=
  Session userId step groupId None None None groups None None (Some [])
          None None.

Definition on_login (E : env) (chatId userId : Z) : M unit :=
  cleanUpSession E chatId ;;
  token ← findToken chatId;
  if truthy (accessToken <$> token) then
    sendMessage chatId
      "An account is already linked to this group. Please use /unlink to remove the current account before logging in with a new one."
      None ;;
    return_
  else
    let authUrl :=
      "https://secure.splitwise.com/oauth/authorize?client_id=" +:+
      CLIENT_ID E +:+ "&redirect_uri=" +:+ REDIRECT_URI E +:+
      "&response_type=code&state=" +:+ pretty chatId in
    sent ← sendMessage chatId ("Click to log in to Splitwise: " +:+ authUrl)
                       None;
    then_ (assign_session chatId
             (Session None None None None None None None None None None
                      None (Some sent))).

Definition on_unlink (E : env) (chatId : Z) : M unit :=
  cleanUpSession E chatId ;;
  token ← findToken chatId;
  if negb (truthy (accessToken <$> token)) then
    sendMessage chatId "No account is currently linked to this group." None ;;
    return_
  else
    try_catch
      (db_write E (delete chatId) ;;
       sendMessage chatId
         "The account has been unlinked successfully. You can now log in with a new account using /login."
         None ;;
       ret ())
      (sendMessage chatId "Failed to unlink the account. Please try again."
                   None ;;
       ret ()).

Definition on_group (E : env) (chatId userId : Z) : M unit :=
  cleanUpSession E chatId ;;
  accessToken ← loadToken chatId;
  if negb (truthy accessToken) then
    sendMessage chatId "You are not logged in. Please use /login first." None ;;
    return_
  else
    try_catch
      (groups ← fetch (GetGroups accessToken) (get_groups E);
       match groups with
       | None | Some [] =>
           sendMessage chatId "You are not part of any groups." None ;;
           return_
       | Some groups =>
           assign_session chatId (new_session (Some userId) None None None) ;;
           sent ← sendMessage chatId "Here are your groups:"
                              (Some (group_buttons "group_" groups));
           cur ← lookup_session chatId;
           push_message cur sent ;;
           setButtonTimeout chatId sent
       end)
      (sendMessage chatId "Failed to fetch groups. Please try again." None ;;
       ret ()).

Definition on_setgroup (E : env) (chatId userId : Z) : M unit :=
  cleanUpSession E chatId ;;
  accessToken ← loadToken chatId;
  if negb (truthy accessToken) then
    sendMessage chatId "You are not logged in. Please use /login first." None ;;
    return_
  else
    try_catch
      (groups ← fetch (GetGroups accessToken) (get_groups E);
       match groups with
       | None | Some [] =>
           sendMessage chatId "You are not part of any groups." None ;;
           return_
       | Some groups =>
           assign_session chatId
             (new_session (Some userId) None None (Some groups)) ;;
           sent ← sendMessage chatId "Select a group to set as default:"
                              (Some (group_buttons "setgroup_" groups));
           cur ← lookup_session chatId;
           push_message cur sent
       end)
      (sendMessage chatId "Failed to fetch groups. Please try again." None ;;
       ret ()).

(** The prompt that opens the expense wizard, shared by [/expense] and
    the [createExpense_] button. *)
Definition open_expense (chatId userId : Z) (groupId : option string) : M unit :=
  assign_session chatId
    (new_session (Some userId) (Some "awaiting_description") groupId None) ;;
  sent ← sendMessage chatId "Please enter a description for the expense:"
                     None;
  then_ (cur ← lookup_session chatId; push_message cur sent).

Definition on_expense (E : env) (chatId userId : Z) : M unit :=
  cleanUpSession E chatId ;;
  token ← findToken chatId;
  if negb (truthy (accessToken <$> token)) then
    sendMessage chatId "You are not logged in. Please use /login first." None ;;
    return_
  else if negb (truthy (token ≫= defaultGroupId)) then
    sendMessage chatId "No default group is set. Please use /setgroup first."
                None ;;
    return_
  else
    open_expense chatId userId (token ≫= defaultGroupId).

Definition on_balance (E : env) (chatId userId : Z) : M unit :=
  cleanUpSession E chatId ;;
  accessToken ← loadToken chatId;
  if negb (truthy accessToken) then
    sendMessage chatId "You are not logged in. Please use /login first." None ;;
    return_
  else
    try_catch
      (token ← findToken chatId;
       let groupId := token ≫= defaultGroupId in
       if negb (truthy groupId) then
         sendMessage chatId
           "No default group is set. Please use /setgroup first." None ;;
         return_
       else
         group ← fetch (GetGroup (show_undef groupId) accessToken)
                       (get_group E);
         match group with
         | None => throw
         | Some group =>
             sendMessage chatId
               (group_info "*Group Members and Balances*:" group) None ;;
             ret ()
         end)
      (sendMessage chatId "Failed to fetch group details. Please try again."
                   None ;;
       ret ()).

(** *** Button presses *)

(** [data.split("_")[i]] *)
Definition split_part (i : nat) (data : string) : option string :=
  split_us data !! i.

(** [members[memberIdx]] *)
Definition member_at (ms : list member) (idx : option Z) : option member :=
  match idx with
  | Some z => if (0 <=? z)%Z then ms !! Z.to_nat z else None
  | None => None
  end.

(** [selectedMembers.indexOf(memberId)] *)
Definition indexOf (memberId : Z) (selected : list Z) : option nat :=
  fst <$> list_find (λ x, x = memberId) selected.

(** The update of [selectedMembers] by one toggle: [splice] out the
    first occurrence, or [push]. *)
Definition toggle (memberId : Z) (selected : list Z) : list Z :=
  match indexOf memberId selected with
  | Some i => delete i selected
  | None => selected ++ [memberId]
  end.

(** [o[k] = v] when [v] is defined; [JSON.stringify] leaves an
    undefined property out. *)
Definition set_opt (k : string) (v : option jval) (o : object) : object :=
  match v with
  | Some v => <[k := v]> o
  | None => o
  end.

(** The properties of the body that are present in every request. *)
Definition expense_body (s : session) (cost : option string) : object :=
  set_opt "group_id" (JStr <$> groupId s)
    (<["category_id" := JNum 15]>
       (set_opt "currency_code" (JStr <$> currencyCode s)
          (set_opt "description" (JStr <$> description s)
             {["cost" := JFixed cost]}))).

(** [users__${index}__${field}] *)
Definition users_key (index : nat) (field : string) : string :=
  "users__" +:+ pretty index +:+ "__" +:+ field.

(** [usersPayload]: the [forEach] over [selectedMembers]. *)
Definition users_payload (amount : option number) (ms : list member)
    (selected : list Z) : object :=
  let share :=
    JFixed (toFixed2 (div (default NaN amount)
                          (of_Z (Z.of_nat (length selected))))) in
  foldl (λ payload '(index, memberId),
           match List.find (λ m, (m_id m =? memberId)%Z) ms with
           | Some _ =>
               <[users_key index "owed_share" := share]>
                 (<[users_key index "paid_share" := share]>
                    (<[users_key index "user_id" := JNum memberId]> payload))
           | None => payload
           end)
        ∅ (imap (λ i x, (i, x)) selected).

(** The body of the request made for a custom split:
    [{ cost, description, currency_code, category_id, group_id,
       ...usersPayload }] *)
Definition custom_split_body (s : session) (ms : list member)
    (selected : list Z) (cost : option string) : object :=
  users_payload (amount s) ms selected ∪ expense_body s cost.

(** The three outcomes of [create_expense], as the user is told. *)
Definition report_expense (chatId : Z) (s : session) (d : expense_data)
  : M unit :=
  match errors_base d with
  | Some (e :: es) =>
      sendMessage chatId
        ("Failed to create expense: " +:+ String.concat ", " (e :: es))
        None ;;
      ret ()
  | _ =>
      match expenses d with
      | Some (S _) =>
          sendMessage chatId
            ("Expense created successfully for " +:+
             default "<exponent notation>" (amount s ≫= toFixed2) +:+ " " +:+
             show_undef (currencyCode s))
            None ;;
          ret ()
      | _ =>
          sendMessage chatId "Failed to create expense. Please try again."
                      None ;;
          ret ()
      end
  end.

(** The [finally] block of the two submitting branches. *)
Definition finish_session (E : env) (chatId : Z) (session : option loc)
  : M unit :=
  ids ← prop messageIds session;
  delete_messages E chatId (default [] ids) ;;
  store_delete chatId.

Definition on_press_group (E : env) (chatId message_id : Z) (data : string)
    (session : option loc) : M unit :=
  let groupId := show_undef (split_part 1 data) in
  accessToken ← loadToken chatId;
  if negb (truthy accessToken) then
    sendMessage chatId "You are not logged in. Please use /login first." None ;;
    return_
  else
    try_catch
      (group ← fetch (GetGroup groupId accessToken) (get_group E);
       editMessageReplyMarkup E [] chatId message_id ;;
       record_message session message_id ;;
       match group with
       | None => throw
       | Some group =>
           groupMessage ← sendMessage chatId
             (group_info "*Group Members*:" group)
             (Some [[Button "Create expense in group"
                            ("createExpense_" +:+ groupId)]]);
           push_message session groupMessage ;;
           setButtonTimeout chatId groupMessage
       end)
      (sendMessage chatId "Failed to fetch group details. Please try again."
                   None ;;
       ret ()).

Definition on_press_createExpense (chatId fromId : Z) (data : string)
  : M unit :=
  open_expense chatId fromId (split_part 1 data).

Definition on_press_setgroup (E : env) (chatId : Z) (data : string) : M unit :=
  let groupId := show_undef (split_part 1 data) in
  session ← lookup_session chatId;
  groups ← prop groups session;
  match groups with
  | None => throw
  | Some groups =>
      match List.find (λ g, String.eqb (pretty (g_id g)) groupId) groups with
      | None =>
          sendMessage chatId "An error occurred. Please try again." None ;;
          return_
      | Some selectedGroup =>
          try_catch
            (token ← findToken chatId;
             match token with
             | Some token =>
                 db_write E (<[chatId := Token (accessToken token)
                                               (Some groupId)]>) ;;
                 sendMessage chatId
                   ("Default group set to " +:+ String "034" "" +:+
                    g_name selectedGroup +:+ String "034" "" +:+ ".")
                   None ;;
                 finish_session E chatId session
             | None =>
                 sendMessage chatId
                   "You are not logged in. Please use /login first." None ;;
                 ret ()
             end)
            (sendMessage chatId
               "Failed to set default group. Please try again." None ;;
             ret ())
      end
  end.

Definition on_press_splitEquallyYes (E : env) (chatId : Z) : M unit :=
  userSession ← lookup_session chatId;
  s ← prop id userSession;
  accessToken ← loadToken chatId;
  try_finally
    (try_catch
       (cost ← match amount s with
               | Some a => ret (toFixed2 a)
               | None => throw
               end;
        d ← fetch (CreateExpense accessToken
                     (<["split_equally" := JBool true]> (expense_body s cost)))
                  (create_expense E);
        report_expense chatId s d)
       (sendMessage chatId "Failed to create expense. Please try again."
                    None ;;
        ret ()))
    (finish_session E chatId userSession).

Definition on_press_splitEquallyNo (E : env) (chatId : Z) : M unit :=
  userSession ← lookup_session chatId;
  groupId ← prop groupId userSession;
  accessToken ← loadToken chatId;
  try_catch
    (group ← fetch (GetGroup (show_undef groupId) accessToken) (get_group E);
     match group with
     | None => throw
     | Some group =>
         let members := g_members group in
         cur ← lookup_session chatId;
         match cur with
         | None => throw
         | Some l =>
             modify l (set_members (Some members)) ;;
             modify l (set_selectedMembers (Some [])) ;;
             sent ← sendMessage chatId
                      "Select members to split the expense with:"
                      (Some (member_buttons members));
             then_ (cur ← lookup_session chatId; push_message cur sent)
         end
     end)
    (sendMessage chatId "Failed to fetch group members. Please try again."
                 None ;;
     ret ()).

Definition on_press_toggle_member (chatId message_id : Z) (data : string)
  : M unit :=
  userSession ← lookup_session chatId;
  match userSession with
  | None =>
      sendMessage chatId "An error occurred. Please try again." None ;;
      return_
  | Some l =>
      let memberIdx := parseInt (show_undef (split_part 2 data)) in
      members ← prop members userSession;
      match members with
      | None => throw
      | Some members =>
          match member_at members memberIdx with
          | None => return_
          | Some member =>
              selectedMembers ← prop selectedMembers userSession;
              match selectedMembers with
              | None => throw
              | Some selectedMembers =>
                  let selectedMembers := toggle (m_id member) selectedMembers in
                  modify l (set_selectedMembers (Some selectedMembers)) ;;
                  emit (EditMessageReplyMarkup
                          (toggled_buttons members selectedMembers)
                          chatId message_id)
              end
          end
      end
  end.

Definition on_press_submit (E : env) (chatId : Z) : M unit :=
  userSession ← lookup_session chatId;
  match userSession with
  | None =>
      sendMessage chatId "An error occurred. Please try again." None ;;
      return_
  | Some _ =>
      s ← prop id userSession;
      accessToken ← loadToken chatId;
      match selectedMembers s with
      | None =>
          sendMessage chatId
            "An error occurred while selecting members. Please try again."
            None ;;
          return_
      | Some [] =>
          sendMessage chatId
            "No members selected. Please select at least one member." None ;;
          return_
      | Some selected =>
          try_finally
            (try_catch
               (members ← match members s with
                          | Some ms => ret ms
                          | None => throw
                          end;
                cost ← match amount s with
                       | Some a => ret (toFixed2 a)
                       | None => throw
                       end;
                d ← fetch (CreateExpense accessToken
                             (custom_split_body s members selected cost))
                          (create_expense E);
                report_expense chatId s d)
               (sendMessage chatId
                  "Failed to create expense. Please try again." None ;;
                ret ()))
            (finish_session E chatId userSession)
      end
  end.

(** The chain of branches on [data]. *)
Definition on_press (E : env) (chatId fromId message_id : Z) (data : string)
    (session : option loc) : M unit :=
  if startsWith "group_" data then
    on_press_group E chatId message_id data session
  else if startsWith "createExpense_" data then
    on_press_createExpense chatId fromId data
  else if startsWith "setgroup_" data then
    on_press_setgroup E chatId data
  else if String.eqb data "splitEquallyYes" then
    on_press_splitEquallyYes E chatId
  else if String.eqb data "splitEquallyNo" then
    on_press_splitEquallyNo E chatId
  else if startsWith "toggle_member_" data then
    on_press_toggle_member chatId message_id data
  else if String.eqb data "submit_selected_members" then
    on_press_submit E chatId
  else ret ().

(** [session && session.userId !== fromId] *)
Definition foreign (fromId : Z) (session : option loc) : M bool :=
  match session with
  | Some _ =>
      owner ← prop userId session;
      ret (negb (bool_decide (owner = Some fromId)))
  | None => ret false
  end.

Definition on_callback_query (E : env) (query_id : string)
    (chatId fromId message_id : Z) (data : string) : M unit :=
  session ← lookup_session chatId;
  clear_session_timeout session ;;
  rejected ← foreign fromId session;
  if (rejected : bool) then
    answerCallbackQuery query_id
      (Some "You can't interact with this button.") ;;
    return_
  else
    on_press E chatId fromId message_id data session ;;
    answerCallbackQuery query_id None.

(** *** Text messages *)

(** [/^(\d+(\.\d{1,2})?)\s*([A-Z]{3})?$/] *)
Definition amount_pattern : regex :=
  Cat (Group 1 (Cat (Plus (Class is_digit))
                    (Opt (Group 2 (Cat (Class (Ascii.eqb "."))
                                       (Rep (Class is_digit) 1 (Some 2%nat)))))))
      (Cat (Star (Class is_ws))
           (Opt (Group 3 (Rep (Class is_upper) 3 (Some 3%nat))))).

Definition split_equally_keyboard : keyboard :=
  [[Button "Yes" "splitEquallyYes"]; [Button "No" "splitEquallyNo"]].

(** [msg.text.trim()] *)
Definition trimmed (text : option string) : M string :=
  match text with
  | Some t => ret (trim t)
  | None => throw
  end.

Definition on_awaiting_description (chatId : Z) (l : loc)
    (text : option string) : M unit :=
  description ← trimmed text;
  if String.eqb description "" then
    sendMessage chatId "Invalid description. Please enter a valid description."
                None ;;
    return_
  else
    modify l (set_description (Some description)) ;;
    modify l (set_step (Some "awaiting_amount")) ;;
    sent ← sendMessage chatId
             "Please enter the amount for the expense (e.g., 10 USD or 10, default is SGD):"
             None;
    then_ (push_message (Some l) sent).

Definition on_awaiting_amount (chatId : Z) (l : loc) (text : option string)
  : M unit :=
  input ← trimmed text;
  match match_anchored amount_pattern input with
  | None =>
      sendMessage chatId
        "Invalid amount. Please enter a valid positive number with an optional currency code (e.g., 100 USD or 100)."
        None ;;
      return_
  | Some amountMatch =>
      let amount := parseFloat (show_undef (amountMatch !! 1%nat)) in
      let currencyCode := or_str (amountMatch !! 3%nat) "SGD" in
      if isNaN amount || le_zero amount then
        sendMessage chatId
          "Invalid amount. Please enter a valid positive number." None ;;
        return_
      else
        modify l (set_amount (Some amount)) ;;
        modify l (set_currencyCode (Some currencyCode)) ;;
        modify l (set_step (Some "splitEqually")) ;;
        sent ← sendMessage chatId "Split equally?"
                           (Some split_equally_keyboard);
        then_ (push_message (Some l) sent)
  end.

Definition on_message (chatId fromId message_id : Z) (text : option string)
  : M unit :=
  userSession ← lookup_session chatId;
  match userSession with
  | None => ret ()
  | Some l =>
      owner ← prop userId userSession;
      if bool_decide (owner = Some fromId) then
        record_message userSession message_id ;;
        st ← prop step userSession;
        if bool_decide (st = Some "awaiting_description") then
          on_awaiting_description chatId l text
        else if bool_decide (st = Some "awaiting_amount") then
          on_awaiting_amount chatId l text
        else ret ()
      else ret ()
  end.

(** *** The OAuth callback *)

(** [saveToken(chatId, accessToken)]: the row of the chat is updated or
    created; an error is logged and swallowed. *)
Definition saveToken (E : env) (chatId : Z) (accessToken : option string)
  : M unit :=
  try_catch
    (existingToken ← findToken chatId;
     match accessToken with
     | None => throw
     | Some a =>
         db_write E (<[chatId := Token a (existingToken ≫= defaultGroupId)]>)
     end)
    (ret ()).

(** [app.get("/oauth/callback")] with [state] the chat. It reads the
    session of the chat and changes none. *)
Definition on_oauth_callback (E : env) (chatId : Z) : M unit :=
  existingToken ← findToken chatId;
  if truthy (accessToken <$> existingToken) then
    emit (HttpResponse 400
            "An account is already linked to this group. Please unlink the current account before logging in with another one.") ;;
    return_
  else
    try_catch
      (accessToken ← fetch ExchangeCode (exchange_code E);
       saveToken E chatId accessToken ;;
       session ← lookup_session chatId;
       (match session with
        | Some _ =>
            loginMessageId ← prop loginMessageId session;
            match loginMessageId with
            | Some i => try_catch (deleteMessage E chatId i) (ret ())
            | None => ret ()
            end
        | None => ret ()
        end) ;;
       sendMessage chatId "You have successfully logged in to Splitwise!"
                   None ;;
       emit (HttpResponse 200 "Login successful! You can close this window."))
      (emit (HttpResponse 500 "Error during OAuth process")).

(** *** Events *)

Inductive event :=
| Login (chatId userId : Z)                      (* /login *)
| Unlink (chatId : Z)                            (* /unlink *)
| GroupList (chatId userId : Z)                  (* /group *)
| SetGroup (chatId userId : Z)                   (* /setgroup *)
| Expense (chatId userId : Z)                    (* /expense *)
| BalanceOf (chatId userId : Z)                  (* /balance *)
| CallbackQuery (query_id : string) (chatId fromId message_id : Z)
                (data : string)
| Message (chatId fromId message_id : Z) (text : option string)
| OAuthCallback (chatId : Z)                     (* GET /oauth/callback *)
| Timeout (t : nat).                             (* a timer is due *)

(** A timer that is due leaves the pending ones and its callback runs;
    a timer that was cleared never fires. *)
Definition on_timeout (E : env) (t : nat) : M unit :=
  tm ← get (λ w, timers w !! t);
  match tm with
  | None => ret ()
  | Some tm => clearTimeout t ;; onExpire E tm
  end.

Definition handle (E : env) (ev : event) : M unit :=
  match ev with
  | Login c u => on_login E c u
  | Unlink c => on_unlink E c
  | GroupList c u => on_group E c u
  | SetGroup c u => on_setgroup E c u
  | Expense c u => on_expense E c u
  | BalanceOf c u => on_balance E c u
  | CallbackQuery q c u m d => on_callback_query E q c u m d
  | Message c u m t => on_message c u m t
  | OAuthCallback c => on_oauth_callback E c
  | Timeout t => on_timeout E t
  end.

(** The world after one event, and after a sequence of events. *)
Definition step_world (w : world) (x : env * event) : world :=
  (handle x.1 x.2 w).2.

Definition run (w : world) (evs : list (env * event)) : world :=
  foldl step_world w evs.

(** The calls a handler made: what it appended to the trace. *)
Definition calls (m : M unit) (w : world) : list effect :=
  drop (length (trace w)) (trace (m w).2).

End Bot.
(** * Vocabulary of the properties *)

Import JsNumber JsString Regex Bot.
Local Open Scope string_scope.
Local Open Scope list_scope.

(** Unfolding of the monad's operations. *)
Ltac munfold :=
  cbv [mbind M_bind mret M_ret bind ret return_ throw get put emit then_
       try_catch try_finally lookup_session prop modify store_delete
       clearTimeout answerCallbackQuery sendMessage assign_session setTimeout
       findToken loadToken set_heap set_timers set_userSessions set_tokens
       fst snd] in *.


(** ** Worlds used to state what a handler leaves behind *)

(** The world with [es] added to the trace. *)
Definition add_calls (es : list effect) (w : world) : world :=
  World (heap w) (userSessions w) (timers w) (tokens w) (next_loc w)
        (next_timer w) (next_message w) (trace w ++ es).

(** The world in which the session object at [l], whose value is [s], has
    lost its pending timer. *)
Definition disarm (l : loc) (s : session) (w : world) : world :=
  match timeout s with
  | Some t =>
      World (<[l := set_timeout None s]> (heap w)) (userSessions w)
            (delete t (timers w)) (tokens w) (next_loc w) (next_timer w)
            (next_message w) (trace w)
  | None => w
  end.

(** The context of a session: the fields the wizard gathers. *)
Definition context (s : session) :=
  (groupId s, description s, amount s, currencyCode s, members s,
   selectedMembers s).

Definition is_send (e : effect) : bool :=
  match e with SendMessage _ _ _ _ => true | _ => false end.

(** The world a cleanup of the session at [l] leaves. *)
Definition cleaned (c : Z) (l : loc) (s : session) (w : world) : world :=
  set_userSessions (delete c (userSessions w))
    (add_calls (DeleteMessage c <$> default [] (messageIds s)) (disarm l s w)).

(** The world in which the object at [l] has the selection [sel]. *)
Definition select (l : loc) (sel : list Z) (w : world) : world :=
  set_heap (alter (set_selectedMembers (Some sel)) l (heap w)) w.

(** The session with [ids] added to its recorded messages. *)
Definition recorded (ids : list Z) (s : session) : session :=
  set_messageIds (Some (default [] (messageIds s) ++ ids)) s.

(** What the amount step makes of a text: the amount and the currency
    code it stores, or nothing when it asks again. *)
Definition accepted_amount (text : string) : option (number * string) :=
  match match_anchored amount_pattern (trim text) with
  | None => None
  | Some amountMatch =>
      let amount := parseFloat (show_undef (amountMatch !! 1%nat)) in
      if isNaN amount || le_zero amount then None
      else Some (amount, or_str (amountMatch !! 3%nat) "SGD")
  end.

(** The text with which the amount step asks again. *)
Definition amount_reprompt (text : string) : string :=
  match match_anchored amount_pattern (trim text) with
  | None => "Invalid amount. Please enter a valid positive number with an optional currency code (e.g., 100 USD or 100)."
  | Some _ => "Invalid amount. Please enter a valid positive number."
  end.

Definition with_amount (a : number) (cur : string) (s : session) : session :=
  set_step (Some "splitEqually")
    (set_currencyCode (Some cur) (set_amount (Some a) s)).


(** The world after [bot.sendMessage(c, text)]. *)
Definition told (c : Z) (text : string) (w : world) : world :=
  (sendMessage c text None w).2.

(** The world the submission of a custom split leaves: the request, one
    message about its outcome, the deletion of the recorded messages, the
    removal of the record and the answer to the press. *)
Definition submitted (q : string) (c : Z) (l : loc) (s : session)
    (body : object) (text : string) (w : world) : world :=
  add_calls [AnswerCallbackQuery q None]
    (set_userSessions (delete c (userSessions w))
       (add_calls (DeleteMessage c <$> default [] (messageIds s))
          (told c text
             (add_calls [CreateExpense (accessToken <$> tokens w !! c) body]
                (disarm l s w))))).

(** The value of a number in cents, rounded as [toFixed(2)] rounds. *)
Definition cents (x : number) : Z :=
  match x with
  | S754_finite s m e => (if s then -1 else 1) * nearest_cents m e
  | _ => 0
  end.

(** ** The invariant of the store and the timers *)

(** No timer is pending for the chat. *)
Definition no_timer (c : Z) (w : world) : Prop :=
  ∀ t tm, timers w !! t = Some tm → t_chat tm ≠ c.

(** A selection has no member twice and only members of the roster. *)
Definition selection_ok (s : session) : Prop :=
  match selectedMembers s with
  | Some sel =>
      NoDup sel ∧
      ∃ ms, members s = Some ms ∧ ∀ id, id ∈ sel → id ∈ m_id <$> ms
  | None => True
  end.

(** Every record of the store is an object of its own, and every pending
    timer belongs to the record the store holds for its chat: the record
    keeps the handle of the timer, and it is the session the closure
    captured. Every selection is in order. *)
Record inv (w : world) : Prop := Inv {
  inv_selection : ∀ l s, heap w !! l = Some s → selection_ok s;
  inv_object : ∀ c l, userSessions w !! c = Some l →
    (l < next_loc w)%nat ∧ is_Some (heap w !! l);
  inv_inj : ∀ c1 c2 l,
    userSessions w !! c1 = Some l → userSessions w !! c2 = Some l → c1 = c2;
  inv_timers : ∀ t tm, timers w !! t = Some tm →
    (t < next_timer w)%nat ∧
    ∃ l s, userSessions w !! t_chat tm = Some l ∧ heap w !! l = Some s ∧
           timeout s = Some t ∧ t_session tm = Some l }.

(** The invariant, with no timer pending for the chat. *)
Definition quiet (c : Z) (w : world) : Prop := inv w ∧ no_timer c w.

(** The same, with a record for the chat in the store. *)
Definition busy (c : Z) (w : world) : Prop :=
  quiet c w ∧ is_Some (userSessions w !! c).

(** The part of a world the invariant looks at. *)
Definition core (w : world) :=
  (heap w, userSessions w, timers w, next_loc w, next_timer w).

(** Whatever the computation returns, it takes worlds of [P] to worlds
    of [Q]. *)
Definition triple {A} (P : world → Prop) (m : M A) (Q : world → Prop) : Prop :=
  ∀ w, P w → Q (m w).2.

(** The computation changes nothing the invariant looks at. *)
Definition framed {A} (m : M A) : Prop := ∀ w, core (m w).2 = core w.

(** ** The per-member properties of a request body *)

Definition share_fields : list string := ["user_id"; "paid_share"; "owed_share"].

(** One round of the [forEach] that fills [usersPayload]. *)
Definition add_shares (share : jval) (ms : list member) (payload : object)
    (x : nat * Z) : object :=
  match List.find (λ m, (m_id m =? x.2)%Z) ms with
  | Some _ =>
      <[users_key x.1 "owed_share" := share]>
        (<[users_key x.1 "paid_share" := share]>
           (<[users_key x.1 "user_id" := JNum x.2]> payload))
  | None => payload
  end.

(** An update of a session that keeps its timer handle and a selection
    that is in order. *)
Definition gentle (f : session → session) : Prop :=
  ∀ s, timeout (f s) = timeout s ∧ (selection_ok s → selection_ok (f s)).

(** A property that looks at the core only and is kept by the gentle
    updates of a session. *)
Definition steady (P : world → Prop) : Prop :=
  (∀ w w', core w' = core w → P w → P w') ∧
  (∀ l f w, gentle f → P w → P (set_heap (alter f l (heap w)) w)).

(** ** A chat used in the examples *)

Definition alice : member := Member 11 (Some "Al") (Some "A") [].
Definition bob : member :=
  Member 12 (Some "Bob") None [Balance (Some "3.0") (Some "USD")].
Definition carol : member := Member 13 (Some "Ca") (Some "C") [].
Definition trip : group := Group_ 5 "Trip" [alice; bob; carol].

(** An outside world in which every request succeeds. *)
Definition fair : env :=
  Env "id" "uri" (Some (Some [trip])) (Some (Some trip))
      (Some (ExpenseData None (Some 1%nat))) (Some (Some "tok"))
      true (λ _, true) true.

(** The world at start, with the [Token] table as the database holds
    it. *)
Definition start (db : gmap Z token) : world := set_tokens db initial.

(** Chat 7 has a linked account with default group 5. *)
Definition linked : world := start {[ 7 := Token "tok" (Some "5") ]}.

(** User 1 has asked for the list of groups: message 1 carries the
    buttons and timer 0 is armed for it. *)
Definition browsing : world := run linked [(fair, GroupList 7 1)].

(** User 1 has then picked the group: message 2 carries the button
    "Create expense in group" and timer 1 is armed for it. *)
Definition detail : world :=
  run browsing [(fair, CallbackQuery "q1" 7 1 1 "group_5")].

(** User 1 has typed an expense of 30 and asked for a custom split:
    message 4 carries the member buttons. *)
Definition selecting : world :=
  run linked [(fair, Expense 7 1);
              (fair, Message 7 1 100 (Some "Dinner"));
              (fair, Message 7 1 101 (Some "30"));
              (fair, CallbackQuery "q2" 7 1 3 "splitEquallyNo")].

(** All three members are selected. *)
Definition selected3 : world :=
  run selecting [(fair, CallbackQuery "q3" 7 1 4 "toggle_member_0");
                 (fair, CallbackQuery "q4" 7 1 4 "toggle_member_1");
                 (fair, CallbackQuery "q5" 7 1 4 "toggle_member_2")].

(** User 1 has typed the description of an expense and is asked for the
    amount. *)
Definition asked_amount : world :=
  run linked [(fair, Expense 7 1); (fair, Message 7 1 100 (Some "Dinner"))].



(** ** The texts the amount step takes *)

(** Every character of the text is of the class. *)
Fixpoint all_in (p : ascii → bool) (s : string) : bool :=
  match s with
  | EmptyString => true
  | String a s' => p a && all_in p s'
  end.

(** The text does not go on with a character of the class. *)
Definition not_next (p : ascii → bool) (s : string) : bool :=
  match s with
  | EmptyString => true
  | String a _ => negb (p a)
  end.

(** A text made of an integer part, decimals after a point, white space
    and a currency code. *)
Definition amount_text (int : string) (frac : option string) (ws : string)
    (code : option string) : string :=
  int +:+ default "" (String "." <$> frac) +:+ ws +:+ default "" code.

(** One digit at least, one or two decimals if any, and three capital
    letters for a code. *)
Definition amount_parts (int : string) (frac : option string) (ws : string)
    (code : option string) : Prop :=
  (all_in is_digit int ∧ int ≠ "") ∧
  from_option (λ f, all_in is_digit f ∧ (1 ≤ String.length f ≤ 2)%nat)
              True frac ∧
  all_in is_ws ws ∧
  from_option (λ k, all_in is_upper k ∧ String.length k = 3%nat) True code.

(** The capture groups of such a text: the number, its decimals with the
    point, and the code. *)
Definition amount_captures (int : string) (frac : option string)
    (code : option string) : captures :=
  let c2 : captures :=
    match frac with
    | Some f => {[ 2%nat := String "." f ]}
    | None => ∅
    end in
  let c1 := <[1%nat := int +:+ default "" (String "." <$> frac)]> c2 in
  match code with
  | Some k => <[3%nat := k]> c1
  | None => c1
  end.

(** The end of the pattern: [$]. *)
Definition at_end (rest : string) (c : captures) : option captures :=
  match rest with EmptyString => Some c | _ => None end.

(** The end of the amount pattern: the white space and the currency
    code. *)
Definition amount_tail : regex :=
  Cat (Star (Class is_ws)) (Opt (Group 3 (Rep (Class is_upper) 3 (Some 3%nat)))).

(** The number a text of digits and decimals stands for, as
    [parseFloat] reads it. *)
Definition amount_value (int : string) (frac : option string) : number :=
  of_decimal (digits_val 0 (int +:+ default "" frac))
             (String.length (default "" frac)).

(** ** Callback data *)

Definition not_underscore (a : ascii) : bool := negb (Ascii.eqb a "_").

(** A digit or the minus sign. *)
Definition is_numeral (a : ascii) : bool := is_digit a || Ascii.eqb a "-".

(** ** Vocabulary of the properties of whole handlers *)

(** The chat a call to the chat transport addresses. *)
Definition chat_of (e : effect) : option Z :=
  match e with
  | SendMessage c _ _ _ => Some c
  | EditMessageReplyMarkup _ c _ => Some c
  | DeleteMessage c _ => Some c
  | _ => None
  end.

(** The chat an event comes from; for a timer that is due, the chat it
    was armed for. *)
Definition event_chat (w : world) (ev : event) : option Z :=
  match ev with
  | Login c _ | Unlink c | GroupList c _ | SetGroup c _ | Expense c _
  | BalanceOf c _ | CallbackQuery _ c _ _ _ | Message c _ _ _
  | OAuthCallback c => Some c
  | Timeout t => t_chat <$> timers w !! t
  end.

Definition is_answer (e : effect) : bool :=
  match e with AnswerCallbackQuery _ _ => true | _ => false end.

(** The trace is [tr] followed by calls that all satisfy [P]. *)
Definition since (P : effect → Prop) (tr : list effect) (w : world) : Prop :=
  ∃ es, trace w = tr ++ es ∧ Forall P es.

(** The computation leaves the world as it is. *)
Definition pure {A} (m : M A) : Prop := ∀ w, (m w).2 = w.

(** The chat is linked with the access token [a]. *)
Definition linked_with (c : Z) (a : string) (w : world) : Prop :=
  ∃ t, tokens w !! c = Some t ∧ accessToken t = a.

(** The messages recorded in the session of the chat. *)
Definition recorded_ids (c : Z) (w : world) : list Z :=
  default [] (l ← userSessions w !! c; s ← heap w !! l; messageIds s).

(** The message with which a command answers a chat without account. *)
Definition login_first : string :=
  "You are not logged in. Please use /login first.".

(** The outside world [E], except that Telegram accepts the deletion of
    a message as [d] says. *)
Definition with_delete_ok (d : Z → bool) (E : env) : env :=
  Env (CLIENT_ID E) (REDIRECT_URI E) (get_groups E) (get_group E)
      (create_expense E) (exchange_code E) (edit_ok E) d (db_write_ok E).

(** Two computations that return the same and leave the same world. *)
Definition same {A} (m1 m2 : M A) : Prop := ∀ w, m1 w = m2 w.

(** The notice of the expiry callback. *)
Definition expiry_notice : string :=
  "The session has expired. Please try again if needed.".

(** The question that opens the expense wizard. *)
Definition description_prompt : string :=
  "Please enter a description for the expense:".


(** The message with the link of [/login]. *)
Definition login_link (E : env) (c : Z) : string :=
  "Click to log in to Splitwise: " +:+
  "https://secure.splitwise.com/oauth/authorize?client_id=" +:+
  CLIENT_ID E +:+ "&redirect_uri=" +:+ REDIRECT_URI E +:+
  "&response_type=code&state=" +:+ pretty c.

Definition login_done : string :=
  "You have successfully logged in to Splitwise!".

Definition login_page : effect :=
  HttpResponse 200 "Login successful! You can close this window.".

(** What [/unlink] tells the chat, and the tokens it leaves. *)
Definition unlink_outcome (E : env) (c : Z) (w : world)
  : string * gmap Z token :=
  if truthy (accessToken <$> tokens w !! c) then
    if db_write_ok E then
      ("The account has been unlinked successfully. You can now log in with a new account using /login.",
       delete c (tokens w))
    else ("Failed to unlink the account. Please try again.", tokens w)
  else ("No account is currently linked to this group.", tokens w).

(** ** The steps of the expense wizard *)

(** A currency code as the amount step stores it. *)
Definition currency_ok (k : string) : Prop :=
  all_in is_upper k ∧ String.length k = 3%nat.

(** What a session holds at each step of the wizard: a description once
    the amount is asked for; a description, an amount and a currency
    code once the split is asked for. An amount is a positive number,
    and a session with an owner has a list of recorded messages. *)
Record wizard_ok (s : session) : Prop := WizardOk {
  wz_amount : ∀ a, amount s = Some a → isNaN a = false ∧ le_zero a = false;
  wz_step :
    step s = None ∨ step s = Some "awaiting_description" ∨
    (step s = Some "awaiting_amount" ∧
     ∃ d, description s = Some d ∧ d ≠ "") ∨
    (step s = Some "splitEqually" ∧
     (∃ d, description s = Some d ∧ d ≠ "") ∧ is_Some (amount s) ∧
     ∃ k, currencyCode s = Some k ∧ currency_ok k);
  wz_messages : is_Some (userId s) → is_Some (messageIds s) }.

(** Every session object is in order. *)
Definition all_sessions (G : session → Prop) (w : world) : Prop :=
  ∀ l s, heap w !! l = Some s → G s.


(** ** One chat and the others *)

(** The chat has the session object [s] at [l], and nobody else has. *)
Definition holds (c : Z) (l : loc) (s : session) (w : world) : Prop :=
  userSessions w !! c = Some l ∧ heap w !! l = Some s ∧
  (l < next_loc w)%nat ∧
  ∀ c1, userSessions w !! c1 = Some l → c1 = c.

(** User 1 has asked for the groups to choose a default group from:
    message 1 carries the buttons. *)
Definition picking : world := run linked [(fair, SetGroup 7 1)].


(** User 1 has typed the description and the amount of an expense and is
    asked whether to split equally. *)
Definition deciding : world :=
  run linked [(fair, Expense 7 1);
              (fair, Message 7 1 100 (Some "Dinner"));
              (fair, Message 7 1 101 (Some "30"))].

(** An outside world in which the database refuses every write. *)
Definition readonly : env :=
  Env "id" "uri" (Some (Some [trip])) (Some (Some trip))
      (Some (ExpenseData None (Some 1%nat))) (Some (Some "tok"))
      true (λ _, true) false.

(** Users 1 and 2 have each asked for a new expense, in chats 7 and 8
    that both have a linked account. *)
Definition neighbours : world :=
  run (start {[ 7 := Token "tok" (Some "5"); 8 := Token "tok" (Some "5") ]})
      [(fair, Expense 7 1); (fair, Expense 8 2)].

(** * Properties *)

(** ** The selection list *)

Section Toggle.
Implicit Types (m x : Z) (sel : list Z).

Lemma indexOf_Some m sel i : indexOf m sel = Some i → sel !! i = Some m.
Proof.
  unfold indexOf. destruct (list_find _ sel) as [[j y]|] eqn:Hf; [|done].
  simpl. intros [= <-]. apply list_find_Some in Hf as (Hj & -> & _). done.
Qed.

Lemma indexOf_None m sel : indexOf m sel = None ↔ m ∉ sel.
Proof.
  unfold indexOf. split.
  - destruct (list_find _ sel) as [[j y]|] eqn:Hf; [done|].
    intros _ Hin. apply list_find_None in Hf.
    rewrite Forall_forall in Hf. by apply (Hf m).
  - intros Hin. destruct (list_find _ sel) as [[j y]|] eqn:Hf; [|done].
    apply list_find_Some in Hf as (Hj & -> & _).
    destruct Hin. by eapply list_elem_of_lookup_2.
Qed.

(** A member that is selected is taken out of the list. *)
Lemma toggle_present m sel :
  m ∈ sel → sel ≡ₚ m :: toggle m sel.
Proof.
  intros Hin. unfold toggle.
  destruct (indexOf m sel) as [i|] eqn:Hi.
  - by apply delete_Permutation, indexOf_Some.
  - by apply indexOf_None in Hi.
Qed.

(** A member that is not selected is added. *)
Lemma toggle_absent m sel : m ∉ sel → toggle m sel = sel ++ [m].
Proof. intros Hin. unfold toggle. by apply indexOf_None in Hin as ->. Qed.

Lemma toggle_NoDup m sel : NoDup sel → NoDup (toggle m sel).
Proof.
  intros Hnd. destruct (decide (m ∈ sel)) as [Hin|Hin].
  - rewrite (toggle_present m sel Hin) in Hnd. by apply NoDup_cons in Hnd as [_ ?].
  - rewrite toggle_absent by done.
    apply NoDup_app. repeat split; [done| |apply NoDup_singleton].
    intros x Hx ->%list_elem_of_singleton. done.
Qed.

(** Membership of the toggled member flips, every other membership
    stays. *)
Lemma toggle_elem_of m sel x :
  NoDup sel →
  x ∈ toggle m sel ↔ (if decide (x = m) then x ∉ sel else x ∈ sel).
Proof.
  intros Hnd. destruct (decide (m ∈ sel)) as [Hin|Hin].
  - pose proof (toggle_present m sel Hin) as Hp.
    assert (m ∉ toggle m sel) as Hout.
    { rewrite Hp in Hnd. by apply NoDup_cons in Hnd as [? _]. }
    case_decide as Hx; [subst x; tauto|].
    assert (x ∈ sel ↔ x ∈ m :: toggle m sel) as -> by (by rewrite <- Hp).
    rewrite elem_of_cons. tauto.
  - rewrite toggle_absent by done. rewrite elem_of_app, list_elem_of_singleton.
    case_decide as Hx; [subst x; tauto|]. tauto.
Qed.

(** Toggling twice gives back the same members. *)
Lemma toggle_toggle m sel : NoDup sel → toggle m (toggle m sel) ≡ₚ sel.
Proof.
  intros Hnd. destruct (decide (m ∈ sel)) as [Hin|Hin].
  - pose proof (toggle_present m sel Hin) as Hp.
    assert (m ∉ toggle m sel) as Hout.
    { rewrite Hp in Hnd. by apply NoDup_cons in Hnd as [? _]. }
    rewrite (toggle_absent m (toggle m sel)) by done.
    rewrite Permutation_app_comm. simpl. by symmetry.
  - assert (m ∈ toggle m sel) as Hin'.
    { rewrite toggle_absent by done. set_solver. }
    pose proof (toggle_present m _ Hin') as Hp.
    rewrite toggle_absent in Hp at 1 by done.
    rewrite Permutation_app_comm in Hp. simpl in Hp.
    by apply Permutation_cons_inv in Hp.
Qed.
End Toggle.

(** ** Basic facts *)

Lemma alter_lookup_insert (h : gmap loc session) l s f :
  h !! l = Some s → alter f l h = <[l := f s]> h.
Proof.
  intros Hs. apply map_eq. intros i. destruct (decide (i = l)) as [->|Hne].
  - by rewrite lookup_alter_eq, lookup_insert_eq, Hs.
  - by rewrite lookup_alter_ne, lookup_insert_ne.
Qed.

Lemma add_calls_nil w : add_calls [] w = w.
Proof. destruct w. unfold add_calls. simpl. by rewrite app_nil_r. Qed.

Lemma calls_of (m : M unit) w r w' es :
  m w = (r, w') → trace w' = trace w ++ es → calls m w = es.
Proof.
  intros Hm Ht. unfold calls. rewrite Hm. simpl.
  by rewrite Ht, drop_app_length.
Qed.

Lemma clear_session_timeout_Some l s w :
  heap w !! l = Some s →
  clear_session_timeout (Some l) w = (Val (), disarm l s w).
Proof.
  intros Hs. unfold clear_session_timeout, disarm. munfold. rewrite Hs.
  destruct (timeout s); [|done]. simpl.
  by rewrite (alter_lookup_insert _ _ s).
Qed.

Lemma disarm_heap l s w :
  heap w !! l = Some s → heap (disarm l s w) !! l = Some (set_timeout None s).
Proof.
  intros Hs. unfold disarm. destruct (timeout s) eqn:Ht; simpl.
  - by rewrite lookup_insert_eq.
  - rewrite Hs. f_equal. destruct s; simpl in *. by subst.
Qed.

Lemma disarm_userSessions l s w : userSessions (disarm l s w) = userSessions w.
Proof. unfold disarm. by destruct (timeout s). Qed.

Lemma disarm_trace l s w : trace (disarm l s w) = trace w.
Proof. unfold disarm. by destruct (timeout s). Qed.

(** A press from somebody else than the owner: the pending timer of the
    session is cleared, the press is answered with the alert, and the
    handler returns. *)
Lemma foreign_press E q c from mid data w l s :
  userSessions w !! c = Some l →
  heap w !! l = Some s →
  userId s ≠ Some from →
  on_callback_query E q c from mid data w =
    (Ret, add_calls [AnswerCallbackQuery q
                       (Some "You can't interact with this button.")]
                    (disarm l s w)).
Proof.
  intros Hl Hs Hu. unfold on_callback_query.
  unfold mbind at 1, M_bind at 1, bind at 1, lookup_session at 1, get at 1.
  rewrite Hl.
  unfold mbind at 1, M_bind at 1, bind at 1.
  rewrite (clear_session_timeout_Some l s w Hs).
  unfold mbind at 1, M_bind at 1, bind at 1.
  unfold foreign. munfold.
  rewrite (disarm_heap l s w Hs). simpl.
  rewrite bool_decide_eq_false_2 by done. simpl. done.
Qed.

Lemma add_calls_add_calls es1 es2 w :
  add_calls es2 (add_calls es1 w) = add_calls (es1 ++ es2) w.
Proof. unfold add_calls. simpl. by rewrite app_assoc. Qed.

(** The deletion loop attempts every message, whatever fails. *)
Lemma delete_messages_spec E c ids w :
  delete_messages E c ids w = (Val (), add_calls (DeleteMessage c <$> ids) w).
Proof.
  revert w. induction ids as [|i ids IH]; intros w.
  - by rewrite add_calls_nil.
  - unfold delete_messages in *. simpl.
    unfold mbind at 1, M_bind at 1, bind at 1.
    assert (try_catch (deleteMessage E c i) (ret ()) w
            = (Val (), add_calls [DeleteMessage c i] w)) as ->.
    { unfold deleteMessage. munfold. by destruct (delete_ok E i). }
    rewrite IH. by rewrite add_calls_add_calls.
Qed.

Lemma cleanUpSession_None E c w :
  userSessions w !! c = None → cleanUpSession E c w = (Val (), w).
Proof. intros H. unfold cleanUpSession. munfold. by rewrite H. Qed.

(** The cleanup protocol: the pending timer is cancelled, every recorded
    message is attempted for deletion, in order, and the record is
    removed. *)
Lemma cleanUpSession_Some E c w l s :
  userSessions w !! c = Some l →
  heap w !! l = Some s →
  cleanUpSession E c w = (Val (), cleaned c l s w).
Proof.
  intros Hl Hs. unfold cleanUpSession.
  unfold mbind at 1, M_bind at 1, bind at 1, lookup_session at 1, get at 1.
  rewrite Hl.
  unfold mbind at 1, M_bind at 1, bind at 1.
  rewrite (clear_session_timeout_Some l s w Hs).
  unfold mbind at 1, M_bind at 1, bind at 1, prop at 1.
  rewrite (disarm_heap l s w Hs).
  unfold mbind at 1, M_bind at 1, bind at 1.
  rewrite delete_messages_spec.
  unfold store_delete, put, cleaned, set_userSessions, add_calls. simpl.
  by rewrite disarm_userSessions.
Qed.

Lemma cleaned_userSessions c l s w : userSessions (cleaned c l s w) !! c = None.
Proof. unfold cleaned. simpl. by rewrite lookup_delete_eq. Qed.

(** After a cleanup the store has no record for the chat, unless the
    store pointed to no object at all. *)
Lemma cleanUpSession_idempotent E E' c w :
  cleanUpSession E' c (cleanUpSession E c w).2 =
    ((cleanUpSession E c w).1, (cleanUpSession E c w).2).
Proof.
  destruct (userSessions w !! c) as [l|] eqn:Hl.
  - destruct (heap w !! l) as [s|] eqn:Hs.
    + rewrite (cleanUpSession_Some E c w l s Hl Hs). simpl.
      by rewrite cleanUpSession_None by apply cleaned_userSessions.
    + assert (∀ E, cleanUpSession E c w = (Thr, w)) as Hthr.
      { intros E0. unfold cleanUpSession, clear_session_timeout. munfold.
        by rewrite Hl, Hs. }
      rewrite (Hthr E). simpl. by rewrite Hthr.
  - rewrite (cleanUpSession_None E c w Hl). simpl.
    by rewrite cleanUpSession_None.
Qed.

(** ** Button presses of the owner *)

Lemma owner_press E q c from mid data w l s :
  userSessions w !! c = Some l →
  heap w !! l = Some s →
  userId s = Some from →
  on_callback_query E q c from mid data w =
    (on_press E c from mid data (Some l) ;; answerCallbackQuery q None)
      (disarm l s w).
Proof.
  intros Hl Hs Hu. unfold on_callback_query.
  unfold mbind at 1, M_bind at 1, bind at 1, lookup_session at 1, get at 1.
  rewrite Hl.
  unfold mbind at 1, M_bind at 1, bind at 1.
  rewrite (clear_session_timeout_Some l s w Hs).
  unfold mbind at 1, M_bind at 1, bind at 1.
  unfold foreign at 1.
  unfold mbind at 1, M_bind at 1, bind at 1, prop at 1.
  rewrite (disarm_heap l s w Hs). simpl.
  rewrite bool_decide_eq_true_2 by done. done.
Qed.

Lemma startsWith_cons a p b s :
  startsWith (String a p) (String b s)
  = if ascii_dec a b then startsWith p s else false.
Proof. reflexivity. Qed.

Lemma on_press_toggle E c from mid data session :
  startsWith "toggle_member_" data = true →
  on_press E c from mid data session = on_press_toggle_member c mid data.
Proof.
  intros H. destruct data as [|a d]; [done|].
  rewrite startsWith_cons in H.
  destruct (ascii_dec "t" a) as [<-|]; [|done].
  unfold on_press. rewrite (startsWith_cons "t" _ "t"), H. reflexivity.
Qed.

(** A toggle by the owner that names a member of the roster. *)
Lemma toggle_press E q c from mid data w l s ms sel m :
  userSessions w !! c = Some l →
  heap w !! l = Some s →
  userId s = Some from →
  members s = Some ms →
  selectedMembers s = Some sel →
  startsWith "toggle_member_" data = true →
  member_at ms (parseInt (show_undef (split_part 2 data))) = Some m →
  on_callback_query E q c from mid data w =
    (Val (),
     add_calls [EditMessageReplyMarkup
                  (toggled_buttons ms (toggle (m_id m) sel)) c mid;
                AnswerCallbackQuery q None]
               (select l (toggle (m_id m) sel) (disarm l s w))).
Proof.
  intros Hl Hs Hu Hms Hsel Hd Hm.
  rewrite (owner_press E q c from mid data w l s Hl Hs Hu).
  rewrite on_press_toggle by done.
  pose proof (disarm_heap l s w Hs) as Hs'.
  pose proof (disarm_userSessions l s w) as Hl'.
  unfold on_press_toggle_member. munfold.
  rewrite Hl', Hl, Hs'. simpl. rewrite Hms, Hm, Hs'. simpl. rewrite Hsel.
  unfold add_calls, select. simpl. by rewrite <- app_assoc.
Qed.

(** A toggle that names no member of the roster. *)
Lemma toggle_press_out_of_range E q c from mid data w l s ms :
  userSessions w !! c = Some l →
  heap w !! l = Some s →
  userId s = Some from →
  members s = Some ms →
  startsWith "toggle_member_" data = true →
  member_at ms (parseInt (show_undef (split_part 2 data))) = None →
  on_callback_query E q c from mid data w = (Ret, disarm l s w).
Proof.
  intros Hl Hs Hu Hms Hd Hm.
  rewrite (owner_press E q c from mid data w l s Hl Hs Hu).
  rewrite on_press_toggle by done.
  pose proof (disarm_heap l s w Hs) as Hs'.
  pose proof (disarm_userSessions l s w) as Hl'.
  unfold on_press_toggle_member. munfold.
  rewrite Hl', Hl, Hs'. simpl. by rewrite Hms, Hm.
Qed.

(** ** Text messages *)

Lemma amount_accepted c from mid text w l s a cur :
  userSessions w !! c = Some l →
  heap w !! l = Some s →
  userId s = Some from →
  step s = Some "awaiting_amount" →
  accepted_amount text = Some (a, cur) →
  on_message c from mid (Some text) w =
    (Val (),
     set_heap (<[l := recorded [mid; next_message w] (with_amount a cur s)]>
                 (heap w))
       (World (heap w) (userSessions w) (timers w) (tokens w) (next_loc w)
          (next_timer w) (next_message w + 1)
          (trace w ++ [SendMessage c "Split equally?"
                         (Some split_equally_keyboard) (next_message w)]))).
Proof.
  intros Hl Hs Hu Hst Hacc. unfold accepted_amount in Hacc.
  unfold on_message, record_message, on_awaiting_amount, trimmed, push_message.
  munfold. rewrite Hl, Hs. simpl.
  rewrite bool_decide_eq_true_2 by done.
  rewrite lookup_alter_eq, Hs. simpl. rewrite Hst. simpl.
  destruct (match_anchored amount_pattern (trim text)) as [m|]; [|done].
  simpl in Hacc.
  destruct (isNaN _ || le_zero _); [done|]. injection Hacc as <- <-.
  simpl.
  rewrite !lookup_alter_eq, Hs. simpl.
  f_equal. f_equal. apply map_eq. intros i.
  destruct (decide (i = l)) as [->|Hne].
  - rewrite !lookup_alter_eq, lookup_insert_eq, Hs. simpl.
    unfold recorded, with_amount. simpl. by rewrite <- app_assoc.
  - by rewrite !lookup_alter_ne, lookup_insert_ne.
Qed.

Lemma amount_rejected c from mid text w l s :
  userSessions w !! c = Some l →
  heap w !! l = Some s →
  userId s = Some from →
  step s = Some "awaiting_amount" →
  accepted_amount text = None →
  on_message c from mid (Some text) w =
    (Ret,
     set_heap (<[l := recorded [mid] s]> (heap w))
       (World (heap w) (userSessions w) (timers w) (tokens w) (next_loc w)
          (next_timer w) (next_message w + 1)
          (trace w ++ [SendMessage c (amount_reprompt text) None
                         (next_message w)]))).
Proof.
  intros Hl Hs Hu Hst Hacc. unfold accepted_amount in Hacc.
  unfold amount_reprompt.
  unfold on_message, record_message, on_awaiting_amount, trimmed, push_message.
  munfold. rewrite Hl, Hs. simpl.
  rewrite bool_decide_eq_true_2 by done.
  rewrite lookup_alter_eq, Hs. simpl. rewrite Hst. simpl.
  rewrite (alter_lookup_insert _ _ s) by done.
  destruct (match_anchored amount_pattern (trim text)) as [m|]; [|done].
  simpl in Hacc. by destruct (isNaN _ || le_zero _).
Qed.

(** ** The shares of a custom split *)

Section Keys.
Implicit Types (s t u : string) (i j : nat).

Lemma append_cons a s t : String a s +:+ t = String a (s +:+ t).
Proof. reflexivity. Qed.

Lemma length_append s t :
  String.length (s +:+ t) = (String.length s + String.length t)%nat.
Proof.
  induction s as [|a s IH]; [done|].
  rewrite append_cons. simpl. by rewrite IH.
Qed.

Lemma append_assoc s t u : (s +:+ t) +:+ u = s +:+ (t +:+ u).
Proof.
  induction s as [|a s IH]; [done|]. rewrite !append_cons. by f_equal.
Qed.

(** Two texts that end with suffixes of the same length are equal only
    if the suffixes are. *)
Lemma append_suffix_inj s1 s2 t1 t2 :
  String.length t1 = String.length t2 →
  s1 +:+ t1 = s2 +:+ t2 → s1 = s2 ∧ t1 = t2.
Proof.
  revert s2. induction s1 as [|a s1 IH]; intros [|b s2] Hlen Heq.
  - done.
  - apply (f_equal String.length) in Heq.
    change ("" +:+ t1) with t1 in Heq.
    rewrite append_cons in Heq. simpl in Heq.
    rewrite length_append in Heq. lia.
  - apply (f_equal String.length) in Heq.
    change ("" +:+ t2) with t2 in Heq.
    rewrite append_cons in Heq. simpl in Heq.
    rewrite length_append in Heq. lia.
  - rewrite !append_cons in Heq.
    injection Heq as -> Heq. destruct (IH s2 Hlen Heq) as [-> ->]. done.
Qed.

(** The keys of the per-member properties are pairwise different. *)
Lemma users_key_inj i j f g :
  f ∈ share_fields → g ∈ share_fields →
  users_key i f = users_key j g → i = j ∧ f = g.
Proof.
  intros Hf Hg Heq. unfold users_key in Heq.
  apply (inj (String.append "users__")) in Heq.
  assert (∀ s1 s2 t1 t2 u,
            String.length t1 = String.length t2 → t1 ≠ t2 →
            s1 +:+ t1 ≠ s2 +:+ (u +:+ t2)) as Hne.
  { intros s1 s2 t1 t2 u Hlen Hne H. rewrite <- append_assoc in H.
    by apply append_suffix_inj in H as [_ ?]. }
  unfold share_fields in *.
  repeat (apply elem_of_cons in Hf as [->|Hf]);
    repeat (apply elem_of_cons in Hg as [->|Hg]);
    try (by apply elem_of_nil in Hf); try (by apply elem_of_nil in Hg).
  - apply append_suffix_inj in Heq as [Hp _]; [|done].
    by apply (inj pretty) in Hp.
  - by apply (Hne _ _ "__user_id" "aid_share" "__p") in Heq.
  - by apply (Hne _ _ "__user_id" "wed_share" "__o") in Heq.
  - symmetry in Heq.
    by apply (Hne _ _ "__user_id" "aid_share" "__p") in Heq.
  - apply append_suffix_inj in Heq as [Hp _]; [|done].
    by apply (inj pretty) in Hp.
  - by apply append_suffix_inj in Heq as [_ ?].
  - symmetry in Heq.
    by apply (Hne _ _ "__user_id" "wed_share" "__o") in Heq.
  - by apply append_suffix_inj in Heq as [_ ?].
  - apply append_suffix_inj in Heq as [Hp _]; [|done].
    by apply (inj pretty) in Hp.
Qed.
End Keys.

Lemma find_member ms id :
  id ∈ m_id <$> ms → is_Some (List.find (λ m, (m_id m =? id)%Z) ms).
Proof.
  induction ms as [|m ms IH]; simpl.
  - by intros ?%elem_of_nil.
  - intros [->|Hin]%elem_of_cons.
    + by rewrite Z.eqb_refl.
    + destruct (m_id m =? id)%Z; [done|]. by apply IH.
Qed.

Lemma users_payload_unfold amount ms sel :
  users_payload amount ms sel =
    foldl (add_shares
             (JFixed (toFixed2 (div (default NaN amount)
                                    (of_Z (Z.of_nat (length sel)))))) ms)
          ∅ (imap (λ i x, (i, x)) sel).
Proof.
  unfold users_payload. generalize (imap (λ i x, (i, x)) sel).
  generalize (∅ : object). intros acc l. revert acc.
  induction l as [|[i x] l IH]; intros acc; [done|]. simpl. apply IH.
Qed.

Lemma add_shares_other share ms payload j x i f :
  i ≠ j → f ∈ share_fields →
  add_shares share ms payload (j, x) !! users_key i f = payload !! users_key i f.
Proof.
  intros Hne Hf. unfold add_shares. simpl.
  destruct (List.find _ ms); [|done].
  rewrite !lookup_insert_ne; [done|..];
    intros [? _]%users_key_inj; try done; unfold share_fields;
    repeat constructor.
Qed.

Lemma add_shares_here share ms payload i x :
  x ∈ m_id <$> ms →
  add_shares share ms payload (i, x) !! users_key i "user_id" = Some (JNum x) ∧
  add_shares share ms payload (i, x) !! users_key i "paid_share" = Some share ∧
  add_shares share ms payload (i, x) !! users_key i "owed_share" = Some share.
Proof.
  intros [m Hm]%find_member. unfold add_shares. simpl. rewrite Hm.
  assert (∀ f g, f ∈ share_fields → g ∈ share_fields → f ≠ g →
                 users_key i f ≠ users_key i g) as Hne.
  { intros f g Hf Hg Hfg [_ ?]%users_key_inj; done. }
  repeat split.
  - do 2 (rewrite lookup_insert_ne
            by (apply Hne; unfold share_fields; first [done | repeat constructor])).
    by rewrite lookup_insert_eq.
  - rewrite lookup_insert_ne
      by (apply Hne; unfold share_fields; first [done | repeat constructor]).
    by rewrite lookup_insert_eq.
  - by rewrite lookup_insert_eq.
Qed.

(** What [usersPayload] holds for the member selected at index [i]. *)
Lemma users_payload_lookup amount ms sel i id :
  sel !! i = Some id →
  id ∈ m_id <$> ms →
  let share := JFixed (toFixed2 (div (default NaN amount)
                                     (of_Z (Z.of_nat (length sel))))) in
  users_payload amount ms sel !! users_key i "user_id" = Some (JNum id) ∧
  users_payload amount ms sel !! users_key i "paid_share" = Some share ∧
  users_payload amount ms sel !! users_key i "owed_share" = Some share.
Proof.
  intros Hi Hin share. rewrite users_payload_unfold. fold share.
  generalize share. clear share. intros share.
  revert i id Hi Hin. induction sel as [|x sel IH] using rev_ind;
    intros i id Hi Hin; [done|].
  rewrite imap_app, foldl_app. simpl. rewrite Nat.add_0_r.
  destruct (decide (i = length sel)) as [->|Hne].
  - rewrite lookup_app_r, Nat.sub_diag in Hi by done.
    injection Hi as ->. by apply add_shares_here.
  - assert (sel !! i = Some id) as Hi'.
    { apply lookup_lt_Some in Hi as Hlt. rewrite length_app in Hlt.
      simpl in Hlt. rewrite lookup_app_l in Hi by lia. done. }
    rewrite !add_shares_other by first [done | unfold share_fields; repeat constructor].
    by apply IH.
Qed.

(** The same in the body of the request: the spread of [usersPayload]
    comes last. *)
Lemma custom_split_body_lookup s ms sel cost i id :
  sel !! i = Some id →
  id ∈ m_id <$> ms →
  let share := JFixed (toFixed2 (div (default NaN (amount s))
                                     (of_Z (Z.of_nat (length sel))))) in
  custom_split_body s ms sel cost !! users_key i "user_id" = Some (JNum id) ∧
  custom_split_body s ms sel cost !! users_key i "paid_share" = Some share ∧
  custom_split_body s ms sel cost !! users_key i "owed_share" = Some share.
Proof.
  intros Hi Hin share.
  destruct (users_payload_lookup (amount s) ms sel i id Hi Hin)
    as (H1 & H2 & H3).
  unfold custom_split_body.
  repeat split; by apply lookup_union_Some_l.
Qed.

(** ** Rounding to cents *)

(** [nearest_cents] is the rounding of [toFixed(2)]: among the integers
    it is a closest one to a hundred times [m * 2^e]. *)
Lemma nearest_cents_rounds m e :
  (Z.abs (200 * Zpos m * 2 ^ Z.max 0 e
          - 2 * nearest_cents m e * 2 ^ Z.max 0 (- e))
   ≤ 2 ^ Z.max 0 (- e))%Z.
Proof.
  unfold nearest_cents. destruct e as [|p|p].
  - change (Z.max 0 0) with 0%Z. change (Z.max 0 (- 0)) with 0%Z.
    rewrite Z.pow_0_r. lia.
  - rewrite (Z.max_r 0 (Z.pos p)) by lia.
    rewrite (Z.max_l 0 (- Z.pos p)) by lia.
    rewrite Z.pow_0_r. lia.
  - rewrite (Z.max_l 0 (Z.neg p)) by lia.
    rewrite (Z.max_r 0 (- Z.neg p)) by lia.
    change (- Z.neg p)%Z with (Z.pos p). rewrite Z.pow_0_r.
    assert (0 < 2 ^ Z.pos p)%Z as Hpos by (apply Z.pow_pos_nonneg; lia).
    set (d := (2 ^ Z.pos p)%Z) in *.
    pose proof (Z.div_mod (200 * Z.pos m + d) (2 * d) ltac:(lia)) as Hdm.
    pose proof (Z.mod_pos_bound (200 * Z.pos m + d) (2 * d) ltac:(lia)) as Hb.
    set (k := ((200 * Z.pos m + d) / (2 * d))%Z) in *.
    set (r := ((200 * Z.pos m + d) mod (2 * d))%Z) in *.
    nia.
Qed.

Lemma disarm_tokens l s w : tokens (disarm l s w) = tokens w.
Proof. unfold disarm. by destruct (timeout s). Qed.

Lemma finish_session_spec E c l s w :
  heap w !! l = Some s →
  finish_session E c (Some l) w =
    (Val (), set_userSessions (delete c (userSessions w))
               (add_calls (DeleteMessage c <$> default [] (messageIds s)) w)).
Proof.
  intros Hs. unfold finish_session.
  unfold mbind at 1, M_bind at 1, bind at 1, prop at 1. rewrite Hs.
  unfold mbind at 1, M_bind at 1, bind at 1.
  by rewrite delete_messages_spec.
Qed.

(** The submission of a custom split with somebody selected. *)
Lemma submit_press E q c from mid w l s ms sel a :
  userSessions w !! c = Some l →
  heap w !! l = Some s →
  userId s = Some from →
  members s = Some ms →
  selectedMembers s = Some sel →
  amount s = Some a →
  sel ≠ [] →
  ∃ text,
    on_callback_query E q c from mid "submit_selected_members" w =
      (Val (), submitted q c l s (custom_split_body s ms sel (toFixed2 a))
                         text w).
Proof.
  intros Hl Hs Hu Hms Hsel Ha Hne.
  rewrite (owner_press E q c from mid _ w l s Hl Hs Hu).
  change (on_press E c from mid "submit_selected_members" (Some l))
    with (on_press_submit E c).
  pose proof (disarm_heap l s w Hs) as Hs'.
  pose proof (disarm_userSessions l s w) as Hl'.
  pose proof (disarm_tokens l s w) as Ht'.
  set (w1 := disarm l s w) in *.
  destruct sel as [|x sel]; [done|].
  unfold on_press_submit.
  unfold mbind at 1, M_bind at 1, bind at 1.
  unfold mbind at 1, M_bind at 1, bind at 1, lookup_session at 1, get at 1.
  rewrite Hl', Hl.
  unfold mbind at 1, M_bind at 1, bind at 1, prop at 1. rewrite Hs'.
  unfold mbind at 1, M_bind at 1, bind at 1, loadToken at 1, get at 1.
  rewrite Ht'. unfold id.
  change (custom_split_body (set_timeout None s))
    with (custom_split_body s).
  change (report_expense c (set_timeout None s)) with (report_expense c s).
  cbn [selectedMembers members amount set_timeout].
  rewrite Hsel, Hms, Ha.
  unfold try_finally, try_catch, fetch, report_expense.
  destruct (create_expense E) as [[eb ex]|].
  - destruct eb as [[|e es]|]; simpl errors_base; simpl expenses.
    1,3: destruct ex as [[|n]|].
    all: munfold; simpl;
      rewrite (finish_session_spec E c l (set_timeout None s)) by done;
      simpl; eexists; unfold submitted, told, add_calls, sendMessage;
      simpl; rewrite Hl'; reflexivity.
  - munfold; simpl;
      rewrite (finish_session_spec E c l (set_timeout None s)) by done;
      simpl; eexists; unfold submitted, told, add_calls, sendMessage;
      simpl; rewrite Hl'; reflexivity.
Qed.

(** ** Preservation of the invariant *)

Section Invariant.
Implicit Types (c : Z) (l : loc) (s : session) (w : world) (t : nat).

Lemma inv_core w w' : core w' = core w → inv w → inv w'.
Proof.
  unfold core. intros [= Hh Hu Ht Hl Hn] [H0 H1 H2 H3].
  split; rewrite ?Hh, ?Hu, ?Ht, ?Hl, ?Hn; done.
Qed.

Lemma quiet_core c w w' : core w' = core w → quiet c w → quiet c w'.
Proof.
  intros Hc [Hi Hn]. split; [by eapply inv_core|].
  unfold no_timer, core in *. injection Hc as _ _ -> _ _. done.
Qed.

Lemma quiet_inv c w : quiet c w → inv w.
Proof. by intros [? _]. Qed.

Lemma busy_quiet c w : busy c w → quiet c w.
Proof. by intros [? _]. Qed.

Lemma busy_inv c w : busy c w → inv w.
Proof. by intros [[? _] _]. Qed.

Lemma busy_core c w w' : core w' = core w → busy c w → busy c w'.
Proof.
  intros Hc [Hq Hs]. split; [by eapply quiet_core|].
  unfold core in Hc. injection Hc as _ -> _ _ _. done.
Qed.

(** Without a record there is no timer. *)
Lemma inv_no_record c w :
  inv w → userSessions w !! c = None → quiet c w.
Proof.
  intros Hi Hc. split; [done|]. intros t tm Ht Heq; subst c.
  destruct (inv_timers w Hi t tm Ht) as (_ & l & s & Hl & _). congruence.
Qed.

(** An update of a session that keeps its timer handle and leaves its
    selection in order. *)
Lemma inv_alter_at l f w :
  (∀ s, heap w !! l = Some s →
        timeout (f s) = timeout s ∧ selection_ok (f s)) →
  inv w → inv (set_heap (alter f l (heap w)) w).
Proof.
  intros Hf [H0 H1 H2 H3]. split; simpl.
  - intros l' s'. destruct (decide (l' = l)) as [->|Hne].
    + rewrite lookup_alter_eq. destruct (heap w !! l) as [s|] eqn:Hs; [|done].
      intros [= <-]. by apply Hf.
    + rewrite lookup_alter_ne by done. apply H0.
  - intros c l' Hl'. destruct (H1 c l' Hl') as [? [s Hs]]. split; [done|].
    destruct (decide (l' = l)) as [->|Hne].
    + rewrite lookup_alter_eq, Hs. by eexists.
    + rewrite lookup_alter_ne by done. by eexists.
  - done.
  - intros t tm Ht. destruct (H3 t tm Ht) as (? & l' & s & Hl' & Hs & Hto & Hc).
    split; [done|].
    destruct (decide (l' = l)) as [->|Hne].
    + exists l, (f s). rewrite lookup_alter_eq, Hs.
      by rewrite (proj1 (Hf s Hs)).
    + exists l', s. rewrite lookup_alter_ne by done. done.
Qed.

(** Gentle updates of a session. *)
Lemma inv_alter l f w :
  gentle f → inv w → inv (set_heap (alter f l (heap w)) w).
Proof.
  intros Hf Hi. apply inv_alter_at; [|done]. intros s Hs.
  split; [apply Hf|]. by apply Hf, (inv_selection w Hi l).
Qed.

Lemma quiet_alter c l f w :
  gentle f → quiet c w → quiet c (set_heap (alter f l (heap w)) w).
Proof. intros Hf [Hi Hn]. split; [by apply inv_alter|done]. Qed.

Lemma busy_alter c l f w :
  gentle f → busy c w → busy c (set_heap (alter f l (heap w)) w).
Proof. intros Hf [Hq Hs]. split; [by apply quiet_alter|done]. Qed.

(** A new record for a chat without timer. *)
Lemma busy_assign c s0 w :
  timeout s0 = None → selection_ok s0 →
  quiet c w → busy c (assign_session c s0 w).2.
Proof.
  intros Hs0 Hok [[H0 H1 H2 H3] Hn].
  split; [|simpl; rewrite lookup_insert_eq; by eexists].
  split; [split|]; unfold no_timer in *; simpl.
  - intros l s. destruct (decide (l = next_loc w)) as [->|Hne].
    + rewrite lookup_insert_eq. by intros [= <-].
    + rewrite lookup_insert_ne by done. apply H0.
  - intros c' l. destruct (decide (c' = c)) as [->|Hne].
    + rewrite lookup_insert_eq. intros [= <-].
      rewrite lookup_insert_eq. split; [lia|by eexists].
    + rewrite lookup_insert_ne by done. intros Hl.
      destruct (H1 c' l Hl) as [Hlt Hs]. split; [lia|].
      rewrite lookup_insert_ne by lia. done.
  - intros c1 c2 l.
    destruct (decide (c1 = c)) as [->|Hne1];
      destruct (decide (c2 = c)) as [->|Hne2];
      rewrite ?lookup_insert_eq, ?lookup_insert_ne by done; try done.
    + intros [= <-] Hl. apply H1 in Hl as [? _]. lia.
    + intros Hl [= <-]. apply H1 in Hl as [? _]. lia.
    + apply H2.
  - intros t tm Ht. destruct (H3 t tm Ht) as (? & l & s & Hl & Hs & Hto & Hc).
    split; [done|]. exists l, s.
    rewrite lookup_insert_ne by (intros Heq; subst c; by eapply Hn).
    apply H1 in Hl as Hlt. destruct Hlt as [Hlt _].
    rewrite lookup_insert_ne by lia. done.
  - done.
Qed.

(** The removal of the record of a chat without timer. *)
Lemma quiet_store_delete c w :
  quiet c w → quiet c (set_userSessions (delete c (userSessions w)) w).
Proof.
  intros [[H0 H1 H2 H3] Hn]. split; [split|]; unfold no_timer in *; simpl.
  - done.
  - intros c' l [_ Hl]%lookup_delete_Some. by apply (H1 c').
  - intros c1 c2 l [_ Hl1]%lookup_delete_Some [_ Hl2]%lookup_delete_Some.
    by apply (H2 c1 c2 l).
  - intros t tm Ht. destruct (H3 t tm Ht) as (? & l & s & Hl & Hs & Hto & Hc).
    split; [done|]. exists l, s.
    rewrite lookup_delete_ne by (intros Heq; subst c; by eapply Hn). done.
  - done.
Qed.

(** Clearing the timer of the record of a chat leaves the chat without
    timer. *)
Lemma quiet_disarm c l s w :
  inv w → userSessions w !! c = Some l → heap w !! l = Some s →
  quiet c (disarm l s w).
Proof.
  intros Hi Hl Hs. destruct Hi as [H0 H1 H2 H3]. unfold disarm.
  destruct (timeout s) as [t0|] eqn:Ht0.
  - split; [split|]; unfold no_timer in *; simpl.
    + intros l' s'. destruct (decide (l' = l)) as [->|Hne].
      * rewrite lookup_insert_eq. intros [= <-]. exact (H0 l s Hs).
      * rewrite lookup_insert_ne by done. apply H0.
    + intros c' l' Hl'. destruct (H1 c' l' Hl') as [? [s' Hs']].
      split; [done|]. destruct (decide (l' = l)) as [->|Hne].
      * rewrite lookup_insert_eq. by eexists.
      * rewrite lookup_insert_ne by done. by eexists.
    + done.
    + intros t tm [Hne Ht]%lookup_delete_Some.
      destruct (H3 t tm Ht) as (? & l' & s' & Hl' & Hs' & Hto & Hc).
      split; [done|]. exists l', s'.
      rewrite lookup_insert_ne by congruence. done.
    + intros t tm [Hne Ht]%lookup_delete_Some Heq; subst c.
      destruct (H3 t tm Ht) as (? & l' & s' & Hl' & Hs' & Hto & Hc).
      congruence.
  - split; [done|].
    intros t tm Ht Heq; subst c.
    destruct (H3 t tm Ht) as (? & l' & s' & Hl' & Hs' & Hto & Hc).
    congruence.
Qed.

(** A timer that fires leaves its chat without timer. *)
Lemma quiet_fire t tm w :
  inv w → timers w !! t = Some tm →
  quiet (t_chat tm) (set_timers (delete t (timers w)) w).
Proof.
  intros [H0 H1 H2 H3] Ht. split; [split|]; unfold no_timer in *; simpl; try done.
  - intros t' tm' [Hne Ht']%lookup_delete_Some. by apply H3.
  - intros t' tm' [Hne Ht']%lookup_delete_Some Hc.
    destruct (H3 t tm Ht) as (_ & l & s & Hl & Hs & Hto & _).
    destruct (H3 t' tm' Ht') as (_ & l' & s' & Hl' & Hs' & Hto' & _).
    congruence.
Qed.

End Invariant.

(** *** Rules *)

Section Rules.
Context {A B : Type}.
Implicit Types (P Q R : world → Prop).

Lemma triple_bind P R Q (m : M A) (k : A → M B) :
  triple P m R → (∀ w, R w → Q w) → (∀ a, triple R (k a) Q) →
  triple P (m ≫= k) Q.
Proof.
  intros Hm HRQ Hk w HP. specialize (Hm w HP).
  unfold mbind, M_bind, bind. destruct (m w) as [[a| |] w']; simpl in *.
  - by apply Hk.
  - by apply HRQ.
  - by apply HRQ.
Qed.

Lemma triple_weaken P P' Q Q' (m : M A) :
  triple P m Q → (∀ w, P' w → P w) → (∀ w, Q w → Q' w) → triple P' m Q'.
Proof. intros Hm HP HQ w Hw. by apply HQ, Hm, HP. Qed.

Lemma framed_bind (m : M A) (k : A → M B) :
  framed m → (∀ a, framed (k a)) → framed (m ≫= k).
Proof.
  intros Hm Hk w. specialize (Hm w).
  unfold mbind, M_bind, bind. destruct (m w) as [[a| |] w']; simpl in *;
    [|done..]. by rewrite Hk.
Qed.

Lemma triple_framed P (m : M A) :
  (∀ w w', core w' = core w → P w → P w') → framed m → triple P m P.
Proof. intros HP Hm w Hw. by apply (HP w), Hw. Qed.
End Rules.

Lemma triple_try_catch P R Q (body handler : M unit) :
  triple P body R → (∀ w, R w → Q w) → triple R handler Q →
  triple P (try_catch body handler) Q.
Proof.
  intros Hb HRQ Hh w HP. specialize (Hb w HP). unfold try_catch.
  destruct (body w) as [[a| |] w']; simpl in *; auto.
Qed.

Lemma triple_try_finally P R Q (body fin : M unit) :
  triple P body R → triple R fin Q → triple P (try_finally body fin) Q.
Proof.
  intros Hb Hf w HP. specialize (Hb w HP). unfold try_finally.
  destruct (body w) as [r w']. simpl in *. specialize (Hf w' Hb).
  by destruct (fin w') as [[a| |] w''].
Qed.

Lemma triple_for_of {A} P (l : list A) (body : A → M unit) :
  (∀ x, triple P (body x) P) → triple P (for_of l body) P.
Proof.
  intros Hb. induction l as [|x l IH]; [by intros w|].
  simpl. by apply (triple_bind P P P).
Qed.

Lemma framed_try_catch (body handler : M unit) :
  framed body → framed handler → framed (try_catch body handler).
Proof.
  intros Hb Hh w. specialize (Hb w). unfold try_catch.
  destruct (body w) as [[a| |] w']; simpl in *; [done..|]. by rewrite Hh.
Qed.

Lemma framed_for_of {A} (l : list A) (body : A → M unit) :
  (∀ x, framed (body x)) → framed (for_of l body).
Proof.
  intros Hb. induction l as [|x l IH]; [done|]. simpl. by apply framed_bind.
Qed.

Lemma framed_ret {A} (a : A) : framed (ret a).
Proof. done. Qed.
Lemma framed_mret {A} (a : A) : framed (mret a).
Proof. done. Qed.
Lemma framed_throw {A} : framed (@throw A).
Proof. done. Qed.
Lemma framed_return : framed return_.
Proof. done. Qed.
Lemma framed_get {A} (f : world → A) : framed (get f).
Proof. done. Qed.
Lemma framed_emit e : framed (emit e).
Proof. done. Qed.
Lemma framed_sendMessage c text kb : framed (sendMessage c text kb).
Proof. done. Qed.
Lemma framed_lookup_session c : framed (lookup_session c).
Proof. done. Qed.
Lemma framed_findToken c : framed (findToken c).
Proof. done. Qed.
Lemma framed_loadToken c : framed (loadToken c).
Proof. done. Qed.
Lemma framed_answer q a : framed (answerCallbackQuery q a).
Proof. done. Qed.
Lemma framed_prop {A} (f : session → A) o : framed (prop f o).
Proof.
  intros w. unfold prop. destruct o as [l|]; [|done].
  by destruct (heap w !! l).
Qed.
Lemma framed_db_write E f : framed (db_write E f).
Proof. intros w. unfold db_write. by destruct (db_write_ok E). Qed.

(** Proves that a computation made of framed operations is framed. *)
Ltac framed_step :=
  first
    [ apply framed_ret | apply framed_mret | apply framed_throw
    | apply framed_return | apply framed_get | apply framed_emit
    | apply framed_sendMessage | apply framed_lookup_session
    | apply framed_findToken | apply framed_loadToken | apply framed_answer
    | apply framed_prop | apply framed_db_write
    | apply framed_try_catch
    | apply framed_for_of; intros ?
    | apply framed_bind; [|intros ?]
    | match goal with
      | |- framed (match ?x with _ => _ end) => destruct x
      end ].

Lemma framed_fetch {A} e (o : option A) : framed (fetch e o).
Proof. unfold fetch. repeat framed_step. Qed.
Lemma framed_edit E kb c i : framed (editMessageReplyMarkup E kb c i).
Proof. unfold editMessageReplyMarkup. repeat framed_step. Qed.
Lemma framed_deleteMessage E c i : framed (deleteMessage E c i).
Proof. unfold deleteMessage. repeat framed_step. Qed.
Lemma framed_delete_messages E c ids : framed (delete_messages E c ids).
Proof.
  unfold delete_messages. apply framed_for_of. intros i.
  apply framed_try_catch; [apply framed_deleteMessage|apply framed_ret].
Qed.
Lemma framed_saveToken E c a : framed (saveToken E c a).
Proof. unfold saveToken. repeat framed_step. Qed.
Lemma framed_report_expense c s d : framed (report_expense c s d).
Proof. unfold report_expense. repeat framed_step. Qed.
Lemma framed_trimmed text : framed (trimmed text).
Proof. unfold trimmed. repeat framed_step. Qed.
Lemma framed_foreign from o : framed (foreign from o).
Proof. unfold foreign. repeat framed_step. Qed.

Ltac framed_tac :=
  repeat first
    [ apply framed_fetch | apply framed_edit | apply framed_deleteMessage
    | apply framed_delete_messages | apply framed_saveToken
    | apply framed_report_expense | apply framed_trimmed
    | apply framed_foreign
    | framed_step ].

Lemma framed_on_oauth_callback E c : framed (on_oauth_callback E c).
Proof. unfold on_oauth_callback. framed_tac. Qed.

(** *** The operations on sessions and timers *)

Lemma steady_inv : steady inv.
Proof. split; [apply inv_core|apply inv_alter]. Qed.

Lemma steady_quiet c : steady (quiet c).
Proof. split; [apply quiet_core|apply quiet_alter]. Qed.

Lemma steady_busy c : steady (busy c).
Proof. split; [apply busy_core|apply busy_alter]. Qed.

Lemma triple_steady_framed {A} P Q (m : M A) :
  steady P → (∀ w, P w → Q w) → framed m → triple P m Q.
Proof. intros [HP _] HPQ Hm w Hw. by apply HPQ, (HP w), Hw. Qed.

Lemma triple_modify P Q l f :
  steady P → (∀ w, P w → Q w) → gentle f → triple P (modify l f) Q.
Proof. intros [_ HP] HPQ Hf w Hw. by apply HPQ, HP. Qed.

Lemma triple_record_message P Q o i :
  steady P → (∀ w, P w → Q w) → triple P (record_message o i) Q.
Proof.
  intros HP HPQ. unfold record_message. destruct o as [l|].
  - by apply triple_modify.
  - by apply triple_steady_framed.
Qed.

Lemma triple_push_message P Q o i :
  steady P → (∀ w, P w → Q w) → triple P (push_message o i) Q.
Proof.
  intros HP HPQ. unfold push_message.
  apply (triple_bind P P Q); [|done|].
  - apply triple_steady_framed; [done..|apply framed_prop].
  - intros ids. destruct o as [l|], ids as [ids|];
      first [by apply triple_modify
            | apply triple_steady_framed; [done..|apply framed_throw]].
Qed.

Lemma triple_assign_session c s0 :
  timeout s0 = None → selection_ok s0 →
  triple (quiet c) (assign_session c s0) (busy c).
Proof. intros Hs Hok w Hw. by apply busy_assign. Qed.

Lemma triple_store_delete c : triple (quiet c) (store_delete c) (quiet c).
Proof. intros w Hw. by apply quiet_store_delete. Qed.

(** What follows a statement that throws never runs. *)
Lemma triple_throw_bind {A B} P Q (k : A → M B) :
  (∀ w, P w → Q w) → triple P (throw ≫= k) Q.
Proof. intros HPQ w Hw. by apply HPQ. Qed.

(** The two updates with which a custom split starts. *)
Lemma triple_reset_selection {A} P Q l ms (k : M A) :
  steady P → (∀ w, P w → Q w) → triple P k Q →
  triple P (modify l (set_members (Some ms)) ;;
            modify l (set_selectedMembers (Some [])) ;; k) Q.
Proof.
  intros [_ HP] HPQ Hk w Hw. munfold. simpl.
  assert (alter (set_selectedMembers (Some [])) l
            (alter (set_members (Some ms)) l (heap w))
          = alter (λ s, set_selectedMembers (Some []) (set_members (Some ms) s))
                  l (heap w)) as ->.
  { apply map_eq. intros i. destruct (decide (i = l)) as [->|Hne].
    - rewrite !lookup_alter_eq. by destruct (heap w !! l).
    - by rewrite !lookup_alter_ne. }
  apply Hk. apply (HP l _ w); [|done]. intros s. split; [done|].
  intros _. split; [apply NoDup_nil_2|]. exists ms. split; [done|].
  by intros id ?%elem_of_nil.
Qed.

(** The cleanup leaves the chat without record and without timer. *)
Lemma triple_cleanUpSession E c : triple inv (cleanUpSession E c) (quiet c).
Proof.
  intros w Hi. destruct (userSessions w !! c) as [l|] eqn:Hl.
  - destruct (inv_object w Hi c l Hl) as [_ [s Hs]].
    rewrite (cleanUpSession_Some E c w l s Hl Hs). simpl.
    apply (quiet_core c (set_userSessions
                           (delete c (userSessions (disarm l s w)))
                           (disarm l s w))).
    { unfold core, cleaned. simpl. by rewrite disarm_userSessions. }
    apply quiet_store_delete. by apply quiet_disarm.
  - rewrite (cleanUpSession_None E c w Hl). by apply inv_no_record.
Qed.

(** The two statements that open the handler of a button press: what
    follows runs without timer for the chat, and with [session] being
    what the store holds for the chat. *)
Lemma triple_lookup_clear {A} c (k : option loc → M A) Q :
  (∀ w, quiet c w → Q w) →
  (∀ o, triple (λ w, quiet c w ∧ userSessions w !! c = o) (k o) Q) →
  triple inv (session ← lookup_session c;
              clear_session_timeout session ;; k session) Q.
Proof.
  intros HQ Hk w Hi.
  unfold mbind at 1, M_bind at 1, bind at 1, lookup_session at 1, get at 1.
  destruct (userSessions w !! c) as [l|] eqn:Hl.
  - destruct (inv_object w Hi c l Hl) as [_ [s Hs]].
    unfold mbind at 1, M_bind at 1, bind at 1.
    rewrite (clear_session_timeout_Some l s w Hs).
    apply Hk. split; [by apply quiet_disarm|].
    by rewrite disarm_userSessions.
  - unfold mbind at 1, M_bind at 1, bind at 1. simpl.
    apply Hk. split; [by apply inv_no_record|done].
Qed.

(** Arming a timer for the record of a chat without timer. *)
Lemma inv_arm c l s f tm w nm tr :
  quiet c w →
  userSessions w !! c = Some l →
  heap w !! l = Some s →
  timeout (f s) = Some (next_timer w) →
  (selection_ok s → selection_ok (f s)) →
  t_chat tm = c →
  t_session tm = Some l →
  inv (World (alter f l (heap w)) (userSessions w)
             (<[next_timer w := tm]> (timers w)) (tokens w) (next_loc w)
             (S (next_timer w)) nm tr).
Proof.
  intros [[H0 H1 H2 H3] Hn] Hl Hs Hf Hok Hc Hcap. split; simpl.
  - intros l' s'. destruct (decide (l' = l)) as [->|Hne].
    + rewrite lookup_alter_eq, Hs. intros [= <-]. by apply Hok, (H0 l).
    + rewrite lookup_alter_ne by done. apply H0.
  - intros c' l' Hl'. destruct (H1 c' l' Hl') as [? [s' Hs']]. split; [done|].
    destruct (decide (l' = l)) as [->|Hne].
    + rewrite lookup_alter_eq, Hs. by eexists.
    + rewrite lookup_alter_ne by done. by eexists.
  - done.
  - intros t tm'. destruct (decide (t = next_timer w)) as [->|Hne].
    + rewrite lookup_insert_eq. intros [= <-]. split; [lia|].
      exists l, (f s). rewrite Hc, lookup_alter_eq, Hs. done.
    + rewrite lookup_insert_ne by done. intros Ht.
      destruct (H3 t tm' Ht) as (? & l' & s' & Hl' & Hs' & Hto & Hcap').
      split; [lia|]. exists l', s'.
      rewrite lookup_alter_ne; [done|].
      intros Heq. subst l'. apply (Hn t tm' Ht). by apply (H2 _ _ l).
Qed.

Lemma triple_setButtonTimeout c i :
  triple (λ w, inv w ∧ is_Some (userSessions w !! c))
         (setButtonTimeout c i) inv.
Proof.
  intros w [Hi [l Hl]]. unfold setButtonTimeout.
  unfold mbind at 1, M_bind at 1, bind at 1, lookup_session at 1, get at 1.
  rewrite Hl.
  destruct (inv_object w Hi c l Hl) as [_ [s Hs]].
  unfold mbind at 1, M_bind at 1, bind at 1.
  rewrite (clear_session_timeout_Some l s w Hs).
  pose proof (quiet_disarm c l s w Hi Hl Hs) as Hq.
  pose proof (disarm_heap l s w Hs) as Hs1.
  pose proof (disarm_userSessions l s w) as Hl1.
  set (w1 := disarm l s w) in *. rewrite <- Hl1 in Hl.
  unfold record_message. munfold. simpl. rewrite Hl. simpl.
  assert (inv (World (alter (set_timeout (Some (next_timer w1))) l (heap w1))
                     (userSessions w1)
                     (<[next_timer w1 := Timer c i (Some l)]> (timers w1))
                     (tokens w1) (next_loc w1) (S (next_timer w1))
                     (next_message w1) (trace w1))) as Hw2.
  { by apply (inv_arm c l (set_timeout None s)). }
  exact (inv_alter l
           (λ s, set_messageIds (Some (default [] (messageIds s) ++ [i])) s)
           _ (λ _, conj eq_refl (λ H, H)) Hw2).
Qed.

(** *** The handlers *)

(** Proves [triple P m Q] for [P] and [Q] among [inv], [quiet c] and
    [busy c], along the structure of [m]: the world between two
    statements is tried in [P] first, then in the weaker properties. *)
Ltac side c :=
  first [ exact (λ w H, H) | exact (quiet_inv c) | exact (busy_quiet c)
        | exact (busy_inv c)
        | exact (λ w H, conj (busy_inv c w H) (proj2 H)) ].
Ltac steady_tac :=
  first [ apply steady_inv | apply steady_quiet | apply steady_busy ].
Ltac gentle_tac := intros ?; split; [reflexivity | exact (λ H, H)].

Ltac tri c :=
  lazymatch goal with
  | |- triple ?P ?m ?Q =>
    lazymatch m with
    | mbind _ (cleanUpSession _ _) =>
        apply (triple_bind P (quiet c) Q);
        [ eapply triple_weaken;
          [apply (triple_cleanUpSession _ c) | side c | side c]
        | side c | intros ?; tri c ]
    | mbind _ (assign_session _ _) =>
        apply (triple_bind P (busy c) Q); [tri c | side c | intros ?; tri c]
    | mbind _ (modify _ (set_members _)) =>
        apply triple_reset_selection; [steady_tac | side c | tri c]
    | mbind _ throw => apply triple_throw_bind; side c
    | mbind _ _ =>
        first
          [ solve [ apply (triple_bind P P Q);
                    [tri c | side c | intros ?; tri c] ]
          | solve [ apply (triple_bind P (quiet c) Q);
                    [tri c | side c | intros ?; tri c] ]
          | solve [ apply (triple_bind P inv Q);
                    [tri c | side c | intros ?; tri c] ] ]
    | try_catch _ _ =>
        first
          [ solve [ apply (triple_try_catch P P Q); [tri c | side c | tri c] ]
          | solve [ apply (triple_try_catch P (quiet c) Q);
                    [tri c | side c | tri c] ]
          | solve [ apply (triple_try_catch P inv Q);
                    [tri c | side c | tri c] ] ]
    | try_finally _ _ =>
        first
          [ solve [ apply (triple_try_finally P P Q); [tri c | tri c] ]
          | solve [ apply (triple_try_finally P (quiet c) Q);
                    [tri c | tri c] ]
          | solve [ apply (triple_try_finally P inv Q); [tri c | tri c] ] ]
    | for_of _ _ => apply triple_for_of; intros ?; tri c
    | modify _ _ => apply triple_modify; [steady_tac | side c | gentle_tac]
    | record_message _ _ =>
        apply triple_record_message; [steady_tac | side c]
    | push_message _ _ => apply triple_push_message; [steady_tac | side c]
    | assign_session _ _ =>
        eapply triple_weaken;
        [apply triple_assign_session; [done | exact I] | side c | side c]
    | store_delete _ =>
        eapply triple_weaken; [apply triple_store_delete | side c | side c]
    | setButtonTimeout _ _ =>
        eapply triple_weaken;
        [apply (triple_setButtonTimeout c) | side c | side c]
    | match ?x with _ => _ end => destruct x; tri c
    | _ => apply triple_steady_framed;
           [steady_tac | side c | solve [framed_tac]]
    end
  end.

Lemma triple_on_login E c u : triple inv (on_login E c u) inv.
Proof. unfold on_login, then_. tri c. Qed.

Lemma triple_on_unlink E c : triple inv (on_unlink E c) inv.
Proof. unfold on_unlink. tri c. Qed.

Lemma triple_on_group E c u : triple inv (on_group E c u) inv.
Proof. unfold on_group. tri c. Qed.

Lemma triple_on_setgroup E c u : triple inv (on_setgroup E c u) inv.
Proof. unfold on_setgroup. tri c. Qed.

Lemma triple_on_expense E c u : triple inv (on_expense E c u) inv.
Proof. unfold on_expense, open_expense, then_. tri c. Qed.

Lemma triple_on_balance E c u : triple inv (on_balance E c u) inv.
Proof. unfold on_balance. tri c. Qed.

(** The group button arms a timer only after it has recorded a message
    in the session of the chat: without a session that statement
    throws. *)
Lemma triple_on_press_group E c mid data session :
  triple (λ w, quiet c w ∧ userSessions w !! c = session)
         (on_press_group E c mid data session) inv.
Proof.
  unfold on_press_group. destruct session as [l|].
  - apply (triple_weaken (busy c) _ inv inv); [tri c| |done].
    intros w [Hq Hl]. split; [done|by eexists].
  - apply (triple_weaken (quiet c) _ inv inv); [|by intros w [? _]|done].
    unfold record_message. tri c.
Qed.

Lemma triple_on_press_createExpense c from data :
  triple (quiet c) (on_press_createExpense c from data) inv.
Proof. unfold on_press_createExpense, open_expense, then_. tri c. Qed.

Lemma triple_on_press_setgroup E c data :
  triple (quiet c) (on_press_setgroup E c data) inv.
Proof. unfold on_press_setgroup, finish_session. tri c. Qed.

Lemma triple_on_press_splitEquallyYes E c :
  triple (quiet c) (on_press_splitEquallyYes E c) inv.
Proof. unfold on_press_splitEquallyYes, finish_session. tri c. Qed.

Lemma triple_on_press_splitEquallyNo E c :
  triple (quiet c) (on_press_splitEquallyNo E c) inv.
Proof. unfold on_press_splitEquallyNo, then_. tri c. Qed.

Lemma member_at_elem_of ms idx m : member_at ms idx = Some m → m ∈ ms.
Proof.
  unfold member_at. destruct idx as [z|]; [|done].
  destruct (0 <=? z)%Z; [|done]. apply list_elem_of_lookup_2.
Qed.

(** A toggled selection is in order if the selection was. *)
Lemma selection_ok_toggle s ms sel m :
  selection_ok s → members s = Some ms → selectedMembers s = Some sel →
  m ∈ ms →
  selection_ok (set_selectedMembers (Some (toggle (m_id m) sel)) s).
Proof.
  unfold selection_ok. intros Hok Hms Hsel Hm. rewrite Hsel in Hok.
  destruct Hok as (Hnd & ms' & Hms' & Hsub). simpl.
  split; [by apply toggle_NoDup|]. exists ms'. split; [done|].
  intros id Hid. apply toggle_elem_of in Hid; [|done].
  case_decide as Heq; [|by apply Hsub].
  subst id. rewrite Hms in Hms'. injection Hms' as <-.
  by apply list_elem_of_fmap_2.
Qed.

Lemma triple_on_press_toggle_member c mid data :
  triple (quiet c) (on_press_toggle_member c mid data) inv.
Proof.
  intros w [Hi Hn]. unfold on_press_toggle_member. munfold.
  destruct (userSessions w !! c) as [l|] eqn:Hl; [|by apply (inv_core w)].
  destruct (heap w !! l) as [s|] eqn:Hs; [|done]. simpl.
  destruct (members s) as [ms|] eqn:Hms; [|done].
  destruct (member_at ms _) as [m|] eqn:Hm; [|done].
  rewrite Hs. simpl.
  destruct (selectedMembers s) as [sel|] eqn:Hsel; [|done]. simpl.
  apply (inv_core (set_heap (alter (set_selectedMembers
                                      (Some (toggle (m_id m) sel)))
                                   l (heap w)) w)); [done|].
  apply inv_alter_at; [|done]. intros s' Hs'.
  rewrite Hs in Hs'. injection Hs' as <-. split; [done|].
  apply (selection_ok_toggle s ms sel m); try done.
  - by apply (inv_selection w Hi l).
  - by eapply member_at_elem_of.
Qed.

Lemma triple_on_press_submit E c :
  triple (quiet c) (on_press_submit E c) inv.
Proof. unfold on_press_submit, finish_session. tri c. Qed.

Lemma triple_on_press E c from mid data session :
  triple (λ w, quiet c w ∧ userSessions w !! c = session)
         (on_press E c from mid data session) inv.
Proof.
  unfold on_press.
  repeat match goal with
         | |- triple _ (if ?b then _ else _) _ => destruct b
         end;
    first [ apply triple_on_press_group
          | apply (triple_weaken (quiet c) _ inv inv);
            [|by intros w [? _]|done];
            first [ apply triple_on_press_createExpense
                  | apply triple_on_press_setgroup
                  | apply triple_on_press_splitEquallyYes
                  | apply triple_on_press_splitEquallyNo
                  | apply triple_on_press_toggle_member
                  | apply triple_on_press_submit
                  | tri c ] ].
Qed.

Lemma triple_on_callback_query E q c from mid data :
  triple inv (on_callback_query E q c from mid data) inv.
Proof.
  unfold on_callback_query.
  apply (triple_lookup_clear c); [side c|]. intros session.
  set (P := λ w, quiet c w ∧ userSessions w !! c = session).
  assert (∀ w, P w → inv w) as HP by (by intros w [[? _] _]).
  apply (triple_bind P P inv); [|done|].
  { intros w [Hq Hl]. pose proof (framed_foreign from session w) as Hc.
    split; [by apply (quiet_core c w)|].
    unfold core in Hc. injection Hc as _ -> _ _ _. done. }
  intros [|].
  - apply (triple_weaken inv _ inv inv); [tri c|done..].
  - apply (triple_bind P inv inv); [|done|intros ?; tri c].
    apply triple_on_press.
Qed.

Lemma triple_on_message c from mid text :
  triple inv (on_message c from mid text) inv.
Proof.
  unfold on_message, on_awaiting_description, on_awaiting_amount, then_.
  tri c.
Qed.

Lemma triple_onExpire E tm :
  triple (quiet (t_chat tm)) (onExpire E tm) inv.
Proof. unfold onExpire. tri (t_chat tm). Qed.

Lemma triple_on_timeout E t : triple inv (on_timeout E t) inv.
Proof.
  intros w Hi. unfold on_timeout.
  unfold mbind at 1, M_bind at 1, bind at 1, get at 1.
  destruct (timers w !! t) as [tm|] eqn:Ht; [|done].
  unfold mbind at 1, M_bind at 1, bind at 1, clearTimeout at 1, put at 1.
  apply triple_onExpire. by apply quiet_fire.
Qed.

(** Every event keeps the invariant. *)
Lemma inv_step w x : inv w → inv (step_world w x).
Proof.
  intros Hi. destruct x as [E ev]. unfold step_world. simpl.
  destruct ev; simpl.
  - by apply triple_on_login.
  - by apply triple_on_unlink.
  - by apply triple_on_group.
  - by apply triple_on_setgroup.
  - by apply triple_on_expense.
  - by apply triple_on_balance.
  - by apply triple_on_callback_query.
  - by apply triple_on_message.
  - apply (inv_core w); [|done]. apply framed_on_oauth_callback.
  - by apply triple_on_timeout.
Qed.

Lemma inv_run w evs : inv w → inv (run w evs).
Proof.
  revert w. induction evs as [|x evs IH]; intros w Hi; [done|].
  simpl. by apply IH, inv_step.
Qed.

Lemma inv_start db : inv (start db).
Proof. split; simpl; intros *; by rewrite lookup_empty. Qed.

(** ** Deadlines and the sessions they belong to *)




(** ** The ownership check of a button press *)

(** C1, on the code: user 2 presses a button while user 1 browses the
    groups of chat 7. The press is answered with the alert, and the step,
    the context and the recorded messages of the session stay as they
    were, but the timer that was armed for the session is cancelled and
    its handle is removed from the session: the deadline does not stay
    as before. *)
Example foreign_press_cancels_deadline :
  let w := browsing in
  let press := handle fair (CallbackQuery "q" 7 2 1 "group_5") in
  (userSessions w !! 7 = Some 0%nat ∧
   (heap w !! 0%nat ≫= userId) = Some 1 ∧
   (heap w !! 0%nat ≫= timeout) = Some 0%nat ∧
   timers w = {[ 0%nat := Timer 7 1 (Some 0%nat) ]}) ∧
  (calls press w =
     [AnswerCallbackQuery "q" (Some "You can't interact with this button.")] ∧
   (step <$> heap (press w).2 !! 0%nat) = (step <$> heap w !! 0%nat) ∧
   (context <$> heap (press w).2 !! 0%nat) = (context <$> heap w !! 0%nat) ∧
   (messageIds <$> heap (press w).2 !! 0%nat)
     = (messageIds <$> heap w !! 0%nat)) ∧
  ((heap (press w).2 !! 0%nat ≫= timeout) = None ∧
   timers (press w).2 = ∅).
Proof. vm_compute. repeat split; reflexivity. Qed.

(** ** Opening a flow over an active session *)

(** C2, on the code: user 1 presses "Create expense in group" while the
    session of the group browser is active, with messages 1 and 2
    recorded. The new session takes the place of the old one and no
    deletion is attempted; the command [/expense] in the same world
    attempts the deletion of every recorded message first. *)
Example createExpense_press_skips_cleanup :
  let w := detail in
  let press := handle fair (CallbackQuery "q" 7 1 2 "createExpense_5") in
  let command := handle fair (Expense 7 1) in
  (userSessions w !! 7 = Some 0%nat ∧
   (heap w !! 0%nat ≫= messageIds) = Some [1; 1; 1; 2; 2]) ∧
  (calls press w =
     [SendMessage 7 "Please enter a description for the expense:" None 3;
      AnswerCallbackQuery "q" None] ∧
   userSessions (press w).2 !! 7 = Some 1%nat ∧
   (heap (press w).2 !! 1%nat ≫= messageIds) = Some [3]) ∧
  calls command w =
    [DeleteMessage 7 1; DeleteMessage 7 1; DeleteMessage 7 1;
     DeleteMessage 7 2; DeleteMessage 7 2;
     SendMessage 7 "Please enter a description for the expense:" None 3].
Proof. vm_compute. repeat split; reflexivity. Qed.

(** ** Expiry *)

(** C3, on the code: the timer armed for message 2 fires while messages 1
    and 2 are recorded. The buttons of message 2 are stripped, message 2
    is deleted, the notice (message 3) is sent and recorded, and the
    record is removed; the deletion of message 1 and of the notice is
    never attempted. *)
Example expiry_leaves_messages :
  let w := detail in
  let fire := handle fair (Timeout 1) in
  ((heap w !! 0%nat ≫= messageIds) = Some [1; 1; 1; 2; 2] ∧
   timers w = {[ 1%nat := Timer 7 2 (Some 0%nat) ]}) ∧
  calls fire w =
    [EditMessageReplyMarkup [] 7 2; DeleteMessage 7 2;
     SendMessage 7 "The session has expired. Please try again if needed."
                 None 3] ∧
  (heap (fire w).2 !! 0%nat ≫= messageIds) = Some [1; 1; 1; 2; 2; 3] ∧
  userSessions (fire w).2 !! 7 = None.
Proof. vm_compute. repeat split; reflexivity. Qed.

(** ** Answering a press *)

(** C8, on the code: the owner submits a custom split with nobody
    selected, and somebody presses a group button in a chat without a
    linked account. Both handlers send a message and return; neither
    answers the press. *)
Example press_left_unanswered :
  calls (handle fair (CallbackQuery "q" 7 1 4 "submit_selected_members"))
        selecting =
    [SendMessage 7 "No members selected. Please select at least one member."
                 None 5] ∧
  calls (handle fair (CallbackQuery "q" 7 1 1 "group_5")) initial =
    [SendMessage 7 "You are not logged in. Please use /login first." None 1].
Proof. vm_compute. split; reflexivity. Qed.

(** ** The amount step *)

(** C5. In the step [awaiting_amount], the owner's text "10" stores the
    amount 10 (shown as 10.00) with the currency "SGD" and "10 USD"
    stores 10 with "USD"; the texts "-5", "abc" and the empty text are
    answered with the request to enter a valid amount and change neither
    the step nor the context (the message itself is recorded). *)
Theorem amount_step_inputs c from mid w l s :
  userSessions w !! c = Some l →
  heap w !! l = Some s →
  userId s = Some from →
  step s = Some "awaiting_amount" →
  let after text := heap (on_message c from mid (Some text) w).2 !! l in
  let said text := calls (on_message c from mid (Some text)) w in
  (after "10" = Some (recorded [mid; next_message w]
                        (with_amount (of_Z 10) "SGD" s)) ∧
   after "10 USD" = Some (recorded [mid; next_message w]
                            (with_amount (of_Z 10) "USD" s)) ∧
   toFixed2 (of_Z 10) = Some "10.00") ∧
  ∀ text, text ∈ ["-5"; "abc"; ""] →
    (∃ s', after text = Some s' ∧ step s' = step s ∧ context s' = context s ∧
           userSessions (on_message c from mid (Some text) w).2
             = userSessions w) ∧
    said text =
      [SendMessage c
         "Invalid amount. Please enter a valid positive number with an optional currency code (e.g., 100 USD or 100)."
         None (next_message w)].
Proof.
  intros Hl Hs Hu Hst after said. split; [repeat split|].
  - unfold after.
    rewrite (amount_accepted c from mid "10" w l s (of_Z 10) "SGD")
      by (done || by vm_compute).
    simpl. by rewrite lookup_insert_eq.
  - unfold after.
    rewrite (amount_accepted c from mid "10 USD" w l s (of_Z 10) "USD")
      by (done || by vm_compute).
    simpl. by rewrite lookup_insert_eq.
  - intros text Hin.
    assert (accepted_amount text = None ∧
            amount_reprompt text =
              "Invalid amount. Please enter a valid positive number with an optional currency code (e.g., 100 USD or 100).")
      as [Hrej Htext].
    { repeat (apply elem_of_cons in Hin as [->|Hin]; [by vm_compute|]).
      by apply elem_of_nil in Hin. }
    unfold after, said, calls.
    rewrite (amount_rejected c from mid text w l s) by done.
    simpl. rewrite lookup_insert_eq, drop_app_length, Htext.
    split; [|done]. by exists (recorded [mid] s).
Qed.

Lemma amount_step_inputs_witness :
  (userSessions asked_amount !! 7 = Some 0%nat ∧
   (heap asked_amount !! 0%nat ≫= userId) = Some 1 ∧
   (heap asked_amount !! 0%nat ≫= step) = Some "awaiting_amount") ∧
  (heap (on_message 7 1 101 (Some "10") asked_amount).2 !! 0%nat
     ≫= currencyCode) = Some "SGD".
Proof.
  split; [by vm_compute|].
  pose proof (amount_step_inputs 7 1 101 asked_amount 0%nat
                (default empty_object (heap asked_amount !! 0%nat))
                ltac:(by vm_compute) ltac:(by vm_compute)
                ltac:(by vm_compute) ltac:(by vm_compute)) as [(H10 & _) _].
  rewrite H10. reflexivity.
Defined.

(** ** Toggling a member *)

(** Two presses of the same toggle by the owner, from a selection
    without repetition. *)
Lemma toggle_twice E E' q q' c from mid data w l s ms sel m :
  userSessions w !! c = Some l →
  heap w !! l = Some s →
  userId s = Some from →
  members s = Some ms →
  selectedMembers s = Some sel →
  NoDup sel →
  startsWith "toggle_member_" data = true →
  member_at ms (parseInt (show_undef (split_part 2 data))) = Some m →
  let press := on_callback_query E q c from mid data in
  let again := on_callback_query E' q' c from mid data in
  ∃ sel1 sel2,
    heap (press w).2 !! l
      = Some (set_selectedMembers (Some sel1) (set_timeout None s)) ∧
    (∀ x, x ∈ sel1 ↔ if decide (x = m_id m) then x ∉ sel else x ∈ sel) ∧
    calls press w = [EditMessageReplyMarkup (toggled_buttons ms sel1) c mid;
                     AnswerCallbackQuery q None] ∧
    heap (again (press w).2).2 !! l
      = Some (set_selectedMembers (Some sel2) (set_timeout None s)) ∧
    sel2 ≡ₚ sel ∧
    (∀ x, x ∈ sel2 ↔ x ∈ sel).
Proof.
  intros Hl Hs Hu Hms Hsel Hnd Hd Hm press again.
  exists (toggle (m_id m) sel), (toggle (m_id m) (toggle (m_id m) sel)).
  pose proof (toggle_press E q c from mid data w l s ms sel m
                Hl Hs Hu Hms Hsel Hd Hm) as H1.
  pose proof (disarm_heap l s w Hs) as Hs'.
  set (s1 := set_selectedMembers (Some (toggle (m_id m) sel))
               (set_timeout None s)).
  assert (heap (press w).2 !! l = Some s1) as Hs1.
  { unfold press. rewrite H1. simpl. by rewrite lookup_alter_eq, Hs'. }
  assert (userSessions (press w).2 !! c = Some l) as Hl1.
  { unfold press. rewrite H1. simpl. by rewrite disarm_userSessions. }
  pose proof (toggle_press E' q' c from mid data (press w).2 l s1 ms
                (toggle (m_id m) sel) m Hl1 Hs1 Hu Hms eq_refl Hd Hm) as H2.
  split; [done|].
  split; [intros x; by apply toggle_elem_of|].
  split.
  { unfold press. apply (calls_of _ _ _ _ _ H1). simpl.
    by rewrite disarm_trace. }
  split.
  { unfold again. rewrite H2. simpl.
    rewrite lookup_alter_eq, (disarm_heap _ _ _ Hs1). done. }
  split; [by apply toggle_toggle|].
  intros x. by rewrite toggle_toggle.
Qed.

(** C7. In a world reached by any sequence of events, a toggle pressed by
    the owner for a member of the roster flips the membership of that
    member's id in the selection and keeps every other membership; the
    step, the context and the recorded messages of the session stay as
    they were (no message is recorded); the only calls are the edit of
    the keyboard of the message that carries the buttons and the answer
    to the press. Pressing the same button again gives back a selection
    with the same members as at the start. *)
Theorem toggle_member_press db evs E E' q q' c from mid data l s ms sel m :
  let w := run (start db) evs in
  userSessions w !! c = Some l →
  heap w !! l = Some s →
  userId s = Some from →
  members s = Some ms →
  selectedMembers s = Some sel →
  startsWith "toggle_member_" data = true →
  member_at ms (parseInt (show_undef (split_part 2 data))) = Some m →
  let press := on_callback_query E q c from mid data in
  let again := on_callback_query E' q' c from mid data in
  ∃ sel1 sel2,
    heap (press w).2 !! l
      = Some (set_selectedMembers (Some sel1) (set_timeout None s)) ∧
    (∀ x, x ∈ sel1 ↔ if decide (x = m_id m) then x ∉ sel else x ∈ sel) ∧
    calls press w = [EditMessageReplyMarkup (toggled_buttons ms sel1) c mid;
                     AnswerCallbackQuery q None] ∧
    heap (again (press w).2).2 !! l
      = Some (set_selectedMembers (Some sel2) (set_timeout None s)) ∧
    sel2 ≡ₚ sel ∧
    (∀ x, x ∈ sel2 ↔ x ∈ sel).
Proof.
  intros w Hl Hs Hu Hms Hsel Hd Hm.
  apply toggle_twice; try done.
  assert (inv w) as Hi by apply inv_run, inv_start.
  pose proof (inv_selection w Hi l s Hs) as Hok.
  unfold selection_ok in Hok. rewrite Hsel in Hok. by destruct Hok.
Qed.

Lemma toggle_member_press_witness :
  (userSessions selecting !! 7 = Some 0%nat ∧
   (heap selecting !! 0%nat ≫= selectedMembers) = Some []) ∧
  ∃ sel1 sel2,
    (heap (on_callback_query fair "q" 7 1 4 "toggle_member_1" selecting).2
       !! 0%nat ≫= selectedMembers) = Some sel1 ∧
    (12 ∈ sel1 ↔ 12 ∉ @nil Z) ∧ sel2 ≡ₚ @nil Z.
Proof.
  split; [by vm_compute|].
  pose proof (toggle_member_press
              {[ 7 := Token "tok" (Some "5") ]}
              [(fair, Expense 7 1);
               (fair, Message 7 1 100 (Some "Dinner"));
               (fair, Message 7 1 101 (Some "30"));
               (fair, CallbackQuery "q2" 7 1 3 "splitEquallyNo")]
              fair fair "q" "q" 7 1 4 "toggle_member_1" 0%nat
              (default empty_object (heap selecting !! 0%nat))
              [alice; bob; carol] [] bob) as H.
  do 7 (specialize (H ltac:(by vm_compute))).
  destruct H as (sel1 & sel2 & H1 & Hflip & _ & _ & Hperm & _).
  exists sel1, sel2. split; [|split; [apply (Hflip 12)|done]].
  exact (f_equal (λ o, o ≫= selectedMembers) H1).
Defined.

(** C9. A toggle whose index names no entry of the roster leaves the
    session as it was, but for a pending timer that the handler clears
    before anything else: the selection, the step, the context and the
    recorded messages are unchanged, the store is unchanged and no
    message is sent. When the press comes from the owner and no timer is
    pending the whole world is unchanged. *)
Theorem toggle_out_of_range E q c from mid data w l s ms :
  userSessions w !! c = Some l →
  heap w !! l = Some s →
  members s = Some ms →
  startsWith "toggle_member_" data = true →
  member_at ms (parseInt (show_undef (split_part 2 data))) = None →
  let press := on_callback_query E q c from mid data in
  heap (press w).2 !! l = Some (set_timeout None s) ∧
  userSessions (press w).2 = userSessions w ∧
  filter is_send (calls press w) = [] ∧
  (userId s = Some from → timeout s = None → press w = (Ret, w)).
Proof.
  intros Hl Hs Hms Hd Hm press.
  destruct (decide (userId s = Some from)) as [Hu|Hu].
  - pose proof (toggle_press_out_of_range E q c from mid data w l s ms
                  Hl Hs Hu Hms Hd Hm) as H.
    unfold press, calls. rewrite H. simpl.
    rewrite disarm_trace, drop_all.
    repeat split; [by apply disarm_heap|by apply disarm_userSessions|].
    intros _ Ht. unfold disarm. by rewrite Ht.
  - pose proof (foreign_press E q c from mid data w l s Hl Hs Hu) as H.
    unfold press.
    rewrite (calls_of _ _ _ _ [AnswerCallbackQuery q
               (Some "You can't interact with this button.")] H)
      by (simpl; by rewrite disarm_trace).
    rewrite H. simpl.
    repeat split; [by apply disarm_heap|by apply disarm_userSessions|done].
Qed.

Lemma toggle_out_of_range_witness :
  (userSessions selecting !! 7 = Some 0%nat ∧
   member_at [alice; bob; carol]
     (parseInt (show_undef (split_part 2 "toggle_member_3"))) = None) ∧
  on_callback_query fair "q" 7 1 4 "toggle_member_3" selecting
    = (Ret, selecting).
Proof.
  split; [by vm_compute|].
  apply (toggle_out_of_range fair "q" 7 1 4 "toggle_member_3" selecting 0%nat
           (default empty_object (heap selecting !! 0%nat))
           [alice; bob; carol]);
    by vm_compute.
Defined.

(** ** Cleanup *)

(** C10. The cleanup of a chat without a record changes nothing: the
    world after it, trace included, is the world before it. So a second
    cleanup after a first one changes nothing and ends as the first one
    did. *)
Theorem cleanup_without_session E E' c w :
  (userSessions w !! c = None → cleanUpSession E c w = (Val (), w)) ∧
  cleanUpSession E' c (cleanUpSession E c w).2
    = ((cleanUpSession E c w).1, (cleanUpSession E c w).2).
Proof.
  split; [apply cleanUpSession_None|apply cleanUpSession_idempotent].
Qed.

Lemma cleanup_without_session_witness :
  userSessions linked !! 7 = None ∧
  cleanUpSession fair 7 linked = (Val (), linked).
Proof.
  split; [by vm_compute|].
  exact (proj1 (cleanup_without_session fair fair 7 linked) eq_refl).
Defined.

(** The request of a custom split, from a selection of members of the
    roster. *)
Lemma custom_split_request E q c from mid w l s ms sel a :
  userSessions w !! c = Some l →
  heap w !! l = Some s →
  userId s = Some from →
  members s = Some ms →
  selectedMembers s = Some sel →
  amount s = Some a →
  (0 < length sel)%nat →
  (∀ id, id ∈ sel → id ∈ m_id <$> ms) →
  let share := JFixed (toFixed2 (div a (of_Z (Z.of_nat (length sel))))) in
  ∃ bearer body rest,
    calls (on_callback_query E q c from mid "submit_selected_members") w
      = CreateExpense bearer body :: rest ∧
    ∀ i id, sel !! i = Some id →
      body !! users_key i "user_id" = Some (JNum id) ∧
      body !! users_key i "paid_share" = Some share ∧
      body !! users_key i "owed_share" = Some share.
Proof.
  intros Hl Hs Hu Hms Hsel Ha Hn Hin share.
  destruct (submit_press E q c from mid w l s ms sel a) as [text Hpress];
    try done.
  { intros ->. simpl in Hn. lia. }
  eexists _, (custom_split_body s ms sel (toFixed2 a)), _. split.
  - apply (calls_of _ _ _ _ _ Hpress). unfold submitted, told. simpl.
    rewrite disarm_trace, <- !app_assoc. simpl. reflexivity.
  - intros i id Hi.
    pose proof (custom_split_body_lookup s ms sel (toFixed2 a) i id Hi) as H.
    rewrite Ha in H. apply H, Hin. by eapply list_elem_of_lookup_2.
Qed.

(** C6. In a world reached by any sequence of events, when the owner
    submits a custom split with [n > 0] selected members and amount [a],
    the body of the create-expense request holds for each selected member
    a paid share and an owed share that are both [(a / n).toFixed(2)]:
    the quotient of the two numbers, rounded to the nearest cent. For the
    amount 30 and three members each share is "10.00", and three times
    the share is the amount. *)
Theorem custom_split_shares db evs E q c from mid l s ms sel a :
  let w := run (start db) evs in
  userSessions w !! c = Some l →
  heap w !! l = Some s →
  userId s = Some from →
  members s = Some ms →
  selectedMembers s = Some sel →
  amount s = Some a →
  (0 < length sel)%nat →
  let quotient := div a (of_Z (Z.of_nat (length sel))) in
  let share := JFixed (toFixed2 quotient) in
  (∃ bearer body rest,
     calls (on_callback_query E q c from mid "submit_selected_members") w
       = CreateExpense bearer body :: rest ∧
     ∀ i id, sel !! i = Some id →
       body !! users_key i "user_id" = Some (JNum id) ∧
       body !! users_key i "paid_share" = Some share ∧
       body !! users_key i "owed_share" = Some share) ∧
  (∀ m e, quotient = S754_finite false m e → ge_1e21 m e = false →
     toFixed2 quotient = Some (fixed2 (nearest_cents m e)) ∧
     (Z.abs (200 * Zpos m * 2 ^ Z.max 0 e
             - 2 * nearest_cents m e * 2 ^ Z.max 0 (- e))
      ≤ 2 ^ Z.max 0 (- e))%Z) ∧
  (a = parseFloat "30" → length sel = 3%nat →
     toFixed2 a = Some "30.00" ∧ toFixed2 quotient = Some "10.00" ∧
     (3 * cents quotient = cents a)%Z).
Proof.
  intros w Hl Hs Hu Hms Hsel Ha Hn quotient share.
  split; [|split].
  - apply (custom_split_request E q c from mid w l s ms sel a); try done.
    assert (inv w) as Hi by apply inv_run, inv_start.
    pose proof (inv_selection w Hi l s Hs) as Hok.
    unfold selection_ok in Hok. rewrite Hsel in Hok.
    destruct Hok as (_ & ms' & Hms' & Hsub).
    rewrite Hms in Hms'. injection Hms' as <-. exact Hsub.
  - intros m e Hq Hbig. split; [|apply nearest_cents_rounds].
    rewrite Hq. simpl. by rewrite Hbig.
  - intros -> Hlen. unfold quotient. rewrite Hlen. by vm_compute.
Qed.

Lemma custom_split_shares_witness :
  (userSessions selected3 !! 7 = Some 0%nat ∧
   (heap selected3 !! 0%nat ≫= selectedMembers) = Some [11; 12; 13] ∧
   (heap selected3 !! 0%nat ≫= amount) = Some (parseFloat "30")) ∧
  ∃ bearer body rest,
    calls (on_callback_query fair "q" 7 1 4 "submit_selected_members")
          selected3 = CreateExpense bearer body :: rest ∧
    body !! users_key 2 "owed_share" = Some (JFixed (Some "10.00")).
Proof.
  split; [by vm_compute|].
  pose proof (custom_split_shares
              {[ 7 := Token "tok" (Some "5") ]}
              [(fair, Expense 7 1);
               (fair, Message 7 1 100 (Some "Dinner"));
               (fair, Message 7 1 101 (Some "30"));
               (fair, CallbackQuery "q2" 7 1 3 "splitEquallyNo");
               (fair, CallbackQuery "q3" 7 1 4 "toggle_member_0");
               (fair, CallbackQuery "q4" 7 1 4 "toggle_member_1");
               (fair, CallbackQuery "q5" 7 1 4 "toggle_member_2")]
              fair "q" 7 1 4 0%nat
              (default empty_object (heap selected3 !! 0%nat))
              [alice; bob; carol] [11; 12; 13] (parseFloat "30")) as H.
  do 6 (specialize (H ltac:(by vm_compute))).
  specialize (H ltac:(simpl; lia)).
  destruct H as [(bearer & body & rest & Hcalls & Hshares) _].
  exists bearer, body, rest. split; [exact Hcalls|].
  exact (proj2 (proj2 (Hshares 2%nat 13 eq_refl))).
Defined.

(** * Properties of whole handlers *)

(** ** Walking through a handler *)

Lemma triple_pure {A} P (m : M A) : pure m → triple P m P.
Proof. intros Hm w Hw. by rewrite Hm. Qed.

Lemma pure_ret {A} (a : A) : pure (ret a).
Proof. done. Qed.
Lemma pure_mret {A} (a : A) : pure (mret a).
Proof. done. Qed.
Lemma pure_throw {A} : pure (@throw A).
Proof. done. Qed.
Lemma pure_return : pure return_.
Proof. done. Qed.
Lemma pure_get {A} (f : world → A) : pure (get f).
Proof. done. Qed.
Lemma pure_lookup_session c : pure (lookup_session c).
Proof. done. Qed.
Lemma pure_findToken c : pure (findToken c).
Proof. done. Qed.
Lemma pure_loadToken c : pure (loadToken c).
Proof. done. Qed.
Lemma pure_prop {A} (f : session → A) o : pure (prop f o).
Proof.
  intros w. unfold prop. destruct o as [l|]; [|done].
  by destruct (heap w !! l).
Qed.
Lemma pure_trimmed text : pure (trimmed text).
Proof. by destruct text. Qed.
Lemma pure_foreign from o : pure (foreign from o).
Proof.
  intros w. unfold foreign. destruct o as [l|]; [|done].
  unfold mbind, M_bind, bind. pose proof (pure_prop userId (Some l) w) as H.
  destruct (prop userId (Some l) w) as [[a| |] w']; simpl in *; by subst.
Qed.

Ltac pure_tac :=
  first [ apply pure_ret | apply pure_mret | apply pure_throw
        | apply pure_return | apply pure_get | apply pure_lookup_session
        | apply pure_findToken | apply pure_loadToken | apply pure_prop
        | apply pure_trimmed | apply pure_foreign ].

Ltac head_of t := lazymatch t with ?f _ => head_of f | _ => t end.

(** Proves [triple P m P] along the structure of [m], for a property [P]
    that every single operation keeps; [leaf] proves it for the
    operations that change the world, and [pre] is tried first on every
    part of [m]; the walk goes on with what [pre] leaves. *)
Ltac walk_with pre leaf :=
  lazymatch goal with
  | |- triple ?P ?m ?P =>
    first
      [ pre; walk_with pre leaf
      | lazymatch m with
        | mbind _ _ =>
            apply (triple_bind P P P);
            [walk_with pre leaf | exact (λ _ H, H)
            | intros ?; walk_with pre leaf]
        | try_catch _ _ =>
            apply (triple_try_catch P P P);
            [walk_with pre leaf | exact (λ _ H, H) | walk_with pre leaf]
        | try_finally _ _ =>
            apply (triple_try_finally P P P);
            [walk_with pre leaf | walk_with pre leaf]
        | for_of _ _ => apply triple_for_of; intros ?; walk_with pre leaf
        | match ?x with _ => _ end => destruct x eqn:?; walk_with pre leaf
        | _ => first [ apply triple_pure; pure_tac
                     | leaf
                     | let h := head_of m in unfold h; walk_with pre leaf ]
        end ]
  end.

Ltac walk leaf := walk_with ltac:(fail) leaf.

(** ** The calls a handler makes *)

Section Since.
Context (P : effect → Prop) (tr : list effect).

Lemma since_refl w : trace w = tr → since P tr w.
Proof. intros H. exists []. by rewrite app_nil_r. Qed.

Lemma since_mono (Q : effect → Prop) w :
  (∀ e, P e → Q e) → since P tr w → since Q tr w.
Proof.
  intros HPQ [es [Hes HP]]. exists es. split; [done|].
  by eapply Forall_impl.
Qed.

Lemma since_silent {A} (m : M A) :
  (∀ w, trace (m w).2 = trace w) → triple (since P tr) m (since P tr).
Proof. intros Hm w [es [Hes HP]]. exists es. by rewrite Hm. Qed.

Lemma since_emit e : P e → triple (since P tr) (emit e) (since P tr).
Proof.
  intros He w [es [Hes HP]]. exists (es ++ [e]). munfold. simpl.
  rewrite Hes, <- app_assoc. split; [done|].
  apply Forall_app. by repeat constructor.
Qed.

Lemma since_sendMessage c text kb :
  (∀ i, P (SendMessage c text kb i)) →
  triple (since P tr) (sendMessage c text kb) (since P tr).
Proof.
  intros He w [es [Hes HP]].
  exists (es ++ [SendMessage c text kb (next_message w)]). munfold. simpl.
  rewrite Hes, <- app_assoc. split; [done|].
  apply Forall_app. by repeat constructor.
Qed.

Lemma since_db_write E f : triple (since P tr) (db_write E f) (since P tr).
Proof.
  apply since_silent. intros w. unfold db_write. by destruct (db_write_ok E).
Qed.
End Since.

(** A leaf of [walk] for [since P tr]; [tac] proves [P] of a call. *)
Ltac since_leaf tac :=
  first [ apply since_emit; tac
        | apply since_sendMessage; intros ?; tac
        | apply since_db_write
        | apply since_silent; intros ?; reflexivity ].

(** What a computation appended to the trace, from [since]. *)
Lemma since_calls P (m : M unit) w :
  since P (trace w) (m w).2 → Forall P (calls m w).
Proof.
  intros [es [Hes HP]]. unfold calls. by rewrite Hes, drop_app_length.
Qed.

(** ** A handler talks to its own chat only *)

Ltac own_chat_tac := simpl; intros ? [= <-]; reflexivity.

Lemma own_chat_handle E ev c tr :
  (∀ t, ev ≠ Timeout t) →
  event_chat initial ev = Some c →
  triple (since (λ e, ∀ c', chat_of e = Some c' → c' = c) tr) (handle E ev)
         (since (λ e, ∀ c', chat_of e = Some c' → c' = c) tr).
Proof.
  intros Hev Hc.
  destruct ev; simpl in Hc; try (by destruct (Hev t));
    injection Hc as ->; simpl; walk ltac:(since_leaf own_chat_tac).
Qed.

Lemma own_chat_onExpire E tm tr :
  triple (since (λ e, ∀ c', chat_of e = Some c' → c' = t_chat tm) tr)
         (onExpire E tm)
         (since (λ e, ∀ c', chat_of e = Some c' → c' = t_chat tm) tr).
Proof. walk ltac:(since_leaf own_chat_tac). Qed.

(** Whatever the event and the world: every message a handler sends,
    edits or deletes is a message of the chat the event came from. *)
Theorem calls_to_own_chat E ev w :
  Forall (λ e, ∀ c, chat_of e = Some c → event_chat w ev = Some c)
         (calls (handle E ev) w).
Proof.
  destruct ev as [c u|c|c u|c u|c u|c u|q c u m d|c u m t|c|t].
  10: {
    unfold calls. simpl. unfold on_timeout. munfold.
    destruct (timers w !! t) as [tm|] eqn:Ht; simpl;
      [|by rewrite drop_all].
    pose proof (own_chat_onExpire E tm (trace w)
                  (set_timers (delete t (timers w)) w)
                  (since_refl _ _ _ eq_refl)) as [es [Hes HP]].
    munfold. rewrite Hes, drop_app_length.
    eapply Forall_impl; [exact HP|]. simpl. by intros e He c' ->%He. }
  all: apply since_calls;
    eapply since_mono;
    [|apply (own_chat_handle E _ c (trace w));
      [done|done|by apply since_refl]];
    simpl; by intros e He c' ->%He.
Qed.

(** ** Answers to a button press *)

Lemma silent_clear_session_timeout o tr :
  triple (λ w, trace w = tr) (clear_session_timeout o) (λ w, trace w = tr).
Proof. walk ltac:(intros ? H; exact H). Qed.

Ltac no_answer_tac := simpl; reflexivity.

Lemma on_press_no_answer E c u m d o tr :
  triple (since (λ e, is_answer e = false) tr) (on_press E c u m d o)
         (since (λ e, is_answer e = false) tr).
Proof. walk ltac:(since_leaf no_answer_tac). Qed.

Lemma filter_no_answer es :
  Forall (λ e, is_answer e = false) es → filter is_answer es = [].
Proof.
  induction 1 as [|e es He _ IH]; [done|].
  rewrite filter_cons_False; [done|]. rewrite He. exact id.
Qed.

(** How a press is answered. A handler that runs to its end answers the
    press once, with its last call and without text; one that throws does
    not answer; one that returns early answers only when it rejects the
    press of a user who does not own the session, and then the alert is
    all it does. No press is answered twice or under another id. *)
Theorem answers_of_a_press E q c u m d w :
  let press := on_callback_query E q c u m d in
  match (press w).1 with
  | Val _ => ∃ es, calls press w = es ++ [AnswerCallbackQuery q None] ∧
                   filter is_answer es = []
  | Ret => calls press w =
             [AnswerCallbackQuery q (Some "You can't interact with this button.")]
           ∨ filter is_answer (calls press w) = []
  | Thr => filter is_answer (calls press w) = []
  end.
Proof.
  intros press. unfold calls.
  destruct (press w) as [r w'] eqn:Hp. simpl. subst press.
  unfold on_callback_query in Hp.
  unfold mbind at 1, M_bind at 1, bind at 1, lookup_session at 1, get at 1
    in Hp.
  unfold mbind at 1, M_bind at 1, bind at 1 in Hp.
  pose proof (silent_clear_session_timeout (userSessions w !! c) (trace w)
                w eq_refl) as H1.
  destruct (clear_session_timeout (userSessions w !! c) w) as [[[]| |] w1];
    simpl in H1; [|injection Hp as <- <-; rewrite H1, drop_all; auto..].
  unfold mbind at 1, M_bind at 1, bind at 1 in Hp.
  pose proof (pure_foreign u (userSessions w !! c) w1) as H2.
  destruct (foreign u (userSessions w !! c) w1) as [[b| |] w2];
    simpl in H2; subst w2;
    [|injection Hp as <- <-; rewrite H1, drop_all; auto..].
  destruct b.
  { munfold. simpl in Hp. injection Hp as <- <-. simpl.
    left. by rewrite H1, drop_app_length. }
  unfold mbind at 1, M_bind at 1, bind at 1 in Hp.
  pose proof (on_press_no_answer E c u m d (userSessions w !! c) (trace w)
                w1 (since_refl _ _ _ H1)) as [es [Hes HP]].
  apply filter_no_answer in HP.
  destruct (on_press E c u m d (userSessions w !! c) w1) as [[[]| |] w3];
    simpl in Hes.
  - munfold. simpl in Hp. injection Hp as <- <-. simpl.
    rewrite Hes, <- app_assoc, drop_app_length. by eexists.
  - injection Hp as <- <-. right. by rewrite Hes, drop_app_length.
  - injection Hp as <- <-. by rewrite Hes, drop_app_length.
Qed.

(** ** The access token of a linked chat *)

(** A leaf of [walk] for the operations that leave the table of tokens
    alone. *)
Ltac same_tokens := intros ? H; exact H.

Section AccessToken.
Context (c : Z) (a : string).
Local Abbreviation linked_with := (linked_with c a).

Lemma linked_db_write_other E c' t :
  c' ≠ c → triple linked_with (db_write E (<[c' := t]>)) linked_with.
Proof.
  intros Hne w [t0 [Ht Ha]]. unfold db_write.
  destruct (db_write_ok E); [|by exists t0].
  exists t0. simpl. by rewrite lookup_insert_ne.
Qed.

Lemma linked_on_press_setgroup E c' data :
  triple linked_with (on_press_setgroup E c' data) linked_with.
Proof.
  unfold on_press_setgroup.
  apply (triple_bind linked_with linked_with linked_with);
    [walk same_tokens|done|intros session].
  apply (triple_bind linked_with linked_with linked_with);
    [walk same_tokens|done|intros [groups|]]; [|walk same_tokens].
  destruct (List.find _ groups) as [g|]; [|walk same_tokens].
  apply (triple_try_catch linked_with linked_with linked_with);
    [|done|walk same_tokens].
  intros w [t [Ht Ha]].
  unfold mbind at 1, M_bind at 1, bind at 1, findToken at 1, get at 1.
  destruct (tokens w !! c') as [t'|] eqn:Ht';
    [|apply (ltac:(walk same_tokens) :
               triple linked_with
                 (sendMessage c' "You are not logged in. Please use /login first."
                              None ;; ret ()) linked_with); by exists t].
  unfold mbind at 1, M_bind at 1, bind at 1, db_write at 1.
  destruct (db_write_ok E); [|by exists t]. unfold put at 1.
  apply (ltac:(walk same_tokens) :
           triple linked_with
             (sendMessage c' ("Default group set to " +:+ String "034" "" +:+
                              g_name g +:+ String "034" "" +:+ ".") None ;;
              finish_session E c' session) linked_with).
  unfold linked_with. simpl.
  destruct (decide (c' = c)) as [->|Hne].
  - rewrite lookup_insert_eq. eexists. split; [done|]. simpl. congruence.
  - rewrite lookup_insert_ne by done. by exists t.
Qed.

Lemma linked_handle E ev :
  (∀ c', ev = OAuthCallback c' → c' ≠ c) → (∀ c', ev ≠ Unlink c') →
  triple linked_with (handle E ev) linked_with.
Proof.
  intros Ho Hu. destruct ev; simpl; try (by destruct (Hu chatId)).
  all: try (walk same_tokens).
  - walk_with ltac:(apply linked_on_press_setgroup) same_tokens.
  - walk ltac:(first [ apply linked_db_write_other; by apply Ho
                     | same_tokens ]).
Qed.

Lemma unlinked_or_linked E c' :
  triple (λ w, match tokens w !! c with
               | Some t => accessToken t = a
               | None => c' = c
               end)
         (on_unlink E c')
         (λ w, match tokens w !! c with
               | Some t => accessToken t = a
               | None => c' = c
               end).
Proof.
  walk ltac:(first
    [ intros w H; unfold db_write; destruct (db_write_ok E); [|exact H];
      simpl; destruct (decide (c' = c)) as [->|];
      [by rewrite lookup_delete_eq|by rewrite lookup_delete_ne]
    | same_tokens ]).
Qed.
End AccessToken.

(** No event replaces the access token of a linked chat: after the event
    the chat has the same access token, unless the event is the [/unlink]
    of that chat, which alone may leave it without one. *)
Theorem access_token_kept E ev w c t :
  tokens w !! c = Some t → accessToken t ≠ "" →
  match tokens (step_world w (E, ev)) !! c with
  | Some t' => accessToken t' = accessToken t
  | None => ev = Unlink c
  end.
Proof.
  intros Ht Ha. unfold step_world. simpl.
  assert (linked_with c (accessToken t) w) as Hw by (by exists t).
  destruct ev as [c' u|c'|c' u|c' u|c' u|c' u|q c' u m d|c' u m x|c'|x].
  2: { pose proof (unlinked_or_linked c (accessToken t) E c') as H.
       unfold triple in H. specialize (H w). cbv beta in H.
       rewrite Ht in H. specialize (H eq_refl). simpl in *.
       destruct (tokens (on_unlink E c' w).2 !! c); [done|by subst]. }
  8: { destruct (decide (c' = c)) as [->|Hne].
       - simpl. unfold on_oauth_callback. munfold. rewrite Ht. simpl.
         destruct (accessToken t) eqn:Hacc; [done|]. simpl. by rewrite Ht.
       - destruct (linked_handle c (accessToken t) E (OAuthCallback c'))
           with (w := w) as [t' [Ht' Ha']]; [congruence|done|done|].
         by rewrite Ht'. }
  all: match goal with
       | Ht : tokens ?w !! ?c = Some ?t |- context [handle ?E ?ev] =>
           destruct (linked_handle c (accessToken t) E ev) with (w := w)
             as [t' [Ht' Ha']]; [done|done|done|]; by rewrite Ht'
       end.
Qed.

(** ** Commands of a chat without account *)

(** What the cleanup that opens every command leaves. *)
Lemma after_cleanup E c w :
  inv w →
  ∃ w1, cleanUpSession E c w = (Val (), w1) ∧
        quiet c w1 ∧
        userSessions w1 !! c = None ∧
        tokens w1 = tokens w ∧
        next_message w1 = next_message w ∧
        trace w1 = trace w ++ (DeleteMessage c <$> recorded_ids c w).
Proof.
  intros Hi. pose proof (triple_cleanUpSession E c w Hi) as Hq.
  unfold recorded_ids. destruct (userSessions w !! c) as [l|] eqn:Hl.
  - destruct (inv_object w Hi c l Hl) as [_ [s Hs]].
    rewrite (cleanUpSession_Some E c w l s Hl Hs) in *.
    eexists. split; [done|]. split; [done|].
    split; [apply cleaned_userSessions|].
    unfold cleaned. simpl. rewrite Hs. simpl.
    by rewrite disarm_tokens, disarm_trace; unfold disarm; destruct (timeout s).
  - rewrite (cleanUpSession_None E c w Hl) in *.
    eexists. split; [done|]. simpl. by rewrite app_nil_r.
Qed.

(** In a chat without access token, [/group], [/setgroup], [/expense]
    and [/balance] end the session of the chat as every command does,
    send the advice to log in, and stop there: no request goes to the
    Splitwise API and no session is opened. *)
Theorem commands_need_login db evs E c u ev :
  let w := run (start db) evs in
  truthy (accessToken <$> tokens w !! c) = false →
  ev ∈ [GroupList c u; SetGroup c u; Expense c u; BalanceOf c u] →
  (handle E ev w).1 = Ret ∧
  userSessions (step_world w (E, ev)) !! c = None ∧
  calls (handle E ev) w =
    (DeleteMessage c <$> recorded_ids c w) ++
    [SendMessage c login_first None (next_message w)].
Proof.
  intros w Htok Hev.
  assert (inv w) as Hi by apply inv_run, inv_start.
  destruct (after_cleanup E c w Hi) as (w1 & Hc & _ & Hn & Ht & Hm & Htr).
  rewrite <- Ht in Htok. unfold step_world, calls. simpl.
  assert (handle E ev w =
          (Ret, (sendMessage c login_first None w1).2)) as ->.
  { repeat (apply elem_of_cons in Hev as [->|Hev]);
      [..|by apply elem_of_nil in Hev]; simpl;
      [unfold on_group|unfold on_setgroup|unfold on_expense|unfold on_balance];
      unfold mbind at 1, M_bind at 1, bind at 1; rewrite Hc;
      unfold mbind at 1, M_bind at 1, bind at 1;
      unfold loadToken, findToken, get; rewrite Htok; reflexivity. }
  munfold. simpl. rewrite Hm, Htr, <- app_assoc.
  by rewrite drop_app_length.
Qed.

(** ** Deletions that fail *)

Section Same.
Context {A B : Type}.

Lemma same_bind (m1 m2 : M A) (k1 k2 : A → M B) :
  same m1 m2 → (∀ a, same (k1 a) (k2 a)) → same (m1 ≫= k1) (m2 ≫= k2).
Proof.
  intros Hm Hk w. unfold mbind, M_bind, bind. rewrite Hm.
  destruct (m2 w) as [[a| |] w']; [apply Hk|done..].
Qed.
End Same.

Lemma same_try_catch (b1 b2 h1 h2 : M unit) :
  same b1 b2 → same h1 h2 → same (try_catch b1 h1) (try_catch b2 h2).
Proof.
  intros Hb Hh w. unfold try_catch. rewrite Hb.
  destruct (b2 w) as [[a| |] w']; [done..|apply Hh].
Qed.

Lemma same_try_finally (b1 b2 f1 f2 : M unit) :
  same b1 b2 → same f1 f2 → same (try_finally b1 f1) (try_finally b2 f2).
Proof.
  intros Hb Hf w. unfold try_finally. rewrite Hb.
  destruct (b2 w) as [r w']. by rewrite Hf.
Qed.

Lemma same_for_of {A} (l : list A) (b1 b2 : A → M unit) :
  (∀ x, same (b1 x) (b2 x)) → same (for_of l b1) (for_of l b2).
Proof.
  intros Hb. induction l as [|x l IH]; [done|]. simpl. by apply same_bind.
Qed.

(** A deletion inside [try { } catch { }]: the attempt is all that
    shows. *)
Lemma same_try_delete E1 E2 c i :
  same (try_catch (deleteMessage E1 c i) (ret ()))
       (try_catch (deleteMessage E2 c i) (ret ())).
Proof.
  intros w. unfold deleteMessage. munfold.
  by destruct (delete_ok E1 i), (delete_ok E2 i).
Qed.

Lemma same_try_edit_delete E1 E2 c i :
  edit_ok E1 = edit_ok E2 →
  same (try_catch (editMessageReplyMarkup E1 [] c i ;; deleteMessage E1 c i)
                  (ret ()))
       (try_catch (editMessageReplyMarkup E2 [] c i ;; deleteMessage E2 c i)
                  (ret ())).
Proof.
  intros He w. unfold editMessageReplyMarkup, deleteMessage. munfold.
  rewrite He. destruct (edit_ok E2); [|done]. simpl.
  by destruct (delete_ok E1 i), (delete_ok E2 i).
Qed.

Ltac same_walk :=
  lazymatch goal with
  | |- same ?m1 ?m2 =>
    first
      [ apply same_try_delete
      | apply same_try_edit_delete; reflexivity
      | constr_eq m1 m2; intros ?; reflexivity
      | lazymatch m1 with
        | mbind _ _ => apply same_bind; [same_walk | intros ?; same_walk]
        | try_catch _ _ => apply same_try_catch; same_walk
        | try_finally _ _ => apply same_try_finally; same_walk
        | for_of _ _ => apply same_for_of; intros ?; same_walk
        | match ?x with _ => _ end => destruct x; same_walk
        | _ => let h := head_of m1 in
               unfold h;
               cbn [CLIENT_ID REDIRECT_URI get_groups get_group create_expense
                    exchange_code edit_ok db_write_ok];
               same_walk
        end ]
  end.

(** Whether Telegram deletes a message or refuses to: a handler returns
    the same, makes the same calls and leaves the same sessions, timers
    and tokens. *)
Theorem failed_deletions_go_unnoticed d E ev w :
  handle (with_delete_ok d E) ev w = handle E ev w.
Proof.
  revert w. change (same (handle (with_delete_ok d E) ev) (handle E ev)).
  destruct E as [a1 a2 a3 a4 a5 a6 a7 a8 a9]. unfold with_delete_ok.
  cbn [CLIENT_ID REDIRECT_URI get_groups get_group create_expense
       exchange_code edit_ok db_write_ok].
  destruct ev; cbn [handle]; same_walk.
Qed.

(** ** Deadlines *)

(** A chat never has two deadlines pending: arming a timer for a chat
    cancels the one its session holds. *)
Theorem one_deadline_per_chat db evs t1 t2 tm1 tm2 :
  let w := run (start db) evs in
  timers w !! t1 = Some tm1 → timers w !! t2 = Some tm2 →
  t_chat tm1 = t_chat tm2 → t1 = t2.
Proof.
  intros w H1 H2 Hc.
  assert (inv w) as Hi by apply inv_run, inv_start.
  destruct (inv_timers w Hi t1 tm1 H1) as (_ & l1 & s1 & Hl1 & Hs1 & Ht1 & _).
  destruct (inv_timers w Hi t2 tm2 H2) as (_ & l2 & s2 & Hl2 & Hs2 & Ht2 & _).
  rewrite Hc in Hl1. congruence.
Qed.

(** When the deadline of a session passes: the buttons of the armed
    message are removed and, if that worked, the message is deleted; the
    notice is sent; the record of the chat leaves the store, and no
    deadline is pending for the chat any more. The deadlines of the other
    chats stay. *)
Theorem expiry_ends_the_session db evs E t tm :
  let w := run (start db) evs in
  let c := t_chat tm in
  timers w !! t = Some tm →
  let w' := step_world w (E, Timeout t) in
  (handle E (Timeout t) w).1 = Val () ∧
  calls (handle E (Timeout t)) w =
    EditMessageReplyMarkup [] c (t_message tm) ::
    (if edit_ok E then [DeleteMessage c (t_message tm)] else []) ++
    [SendMessage c expiry_notice None (next_message w)] ∧
  userSessions w' = delete c (userSessions w) ∧
  timers w' = delete t (timers w) ∧
  no_timer c w'.
Proof.
  intros w c Ht w'.
  assert (inv w) as Hi by apply inv_run, inv_start.
  destruct (inv_timers w Hi t tm Ht) as (_ & l & s & Hl & Hs & Hto & Hcap).
  assert (∀ t' tm', timers w !! t' = Some tm' → t_chat tm' = c → t' = t)
    as Hone.
  { intros t' tm' Ht' Hc'.
    destruct (inv_timers w Hi t' tm' Ht') as (_ & l' & s' & Hl' & Hs' & Hto' & _).
    rewrite Hc' in Hl'. fold c in Hl. congruence. }
  subst w'. unfold step_world, calls. simpl.
  unfold on_timeout, onExpire, editMessageReplyMarkup, deleteMessage,
    record_message. munfold. rewrite Ht, Hcap. fold c. simpl.
  assert (∀ w0 : world, timers w0 = delete t (timers w) → no_timer c w0)
    as Hno.
  { intros w0 Hw0 t' tm'. rewrite Hw0. intros [Hne Ht']%lookup_delete_Some Hc'.
    by destruct Hne, (Hone t' tm' Ht' Hc'). }
  destruct (edit_ok E); simpl; [destruct (delete_ok E (t_message tm)); simpl|];
    rewrite ?drop_app_length, <- ?app_assoc, ?drop_app_length;
    (repeat split; [by apply Hno]).
Qed.

(** ** Repetitions of a character class *)

Section RepClass.
Context (input : string) (p : ascii → bool)
        (k : string → captures → option captures).

Lemma rmatch_Rep_None r lo s c :
  rmatch input (Rep r lo None) k s c
  = rmatch input (Rep r lo (Some (S (String.length s)))) k s c.
Proof. reflexivity. Qed.

Lemma rmatch_Rep_0 r lo s c :
  rmatch input (Rep r lo (Some 0%nat)) k s c
  = match lo with O => k s c | S _ => None end.
Proof. reflexivity. Qed.

Lemma rmatch_Rep_S_S r n lo s c :
  rmatch input (Rep r (S lo) (Some (S n))) k s c
  = rmatch input r (rmatch input (Rep r lo (Some n)) k) s c.
Proof. reflexivity. Qed.

Lemma rmatch_Rep_S_0 r n s c :
  rmatch input (Rep r 0 (Some (S n))) k s c
  = match rmatch input r (rmatch input (Rep r 0 (Some n)) k) s c with
    | Some c' => Some c'
    | None => k s c
    end.
Proof. reflexivity. Qed.

Lemma rmatch_Class (k' : string → captures → option captures) s c :
  rmatch input (Class p) k' s c
  = match s with
    | String a s' => if p a then k' s' c else None
    | EmptyString => None
    end.
Proof. reflexivity. Qed.

(** What a repetition consumed when the match succeeded. *)
Lemma rep_class_sound n lo s c c' :
  rmatch input (Rep (Class p) lo (Some n)) k s c = Some c' →
  ∃ ds rest, s = ds +:+ rest ∧ all_in p ds ∧
             (lo ≤ String.length ds ≤ n)%nat ∧ k rest c = Some c'.
Proof.
  revert lo s c. induction n as [|n IH]; intros lo s c H.
  - rewrite rmatch_Rep_0 in H. destruct lo; [|done].
    exists "", s. simpl. repeat split; (done || lia).
  - destruct lo as [|lo].
    + rewrite rmatch_Rep_S_0, rmatch_Class in H.
      destruct s as [|a s].
      { exists "", "". simpl. repeat split; (done || lia). }
      destruct (p a) eqn:Ha.
      * destruct (rmatch input (Rep (Class p) 0 (Some n)) k s c) as [c''|]
          eqn:Hr.
        -- injection H as ->.
           destruct (IH _ _ _ Hr) as (ds & rest & -> & Hds & Hlen & Hk).
           exists (String a ds), rest. simpl. rewrite Ha.
           repeat split; (done || lia).
        -- exists "", (String a s). simpl. repeat split; (done || lia).
      * exists "", (String a s). simpl. repeat split; (done || lia).
    + rewrite rmatch_Rep_S_S, rmatch_Class in H.
      destruct s as [|a s]; [done|]. destruct (p a) eqn:Ha; [|done].
      destruct (IH _ _ _ H) as (ds & rest & -> & Hds & Hlen & Hk).
      exists (String a ds), rest. simpl. rewrite Ha.
      repeat split; (done || lia).
Qed.

(** A repetition takes all the characters of the class there are, up to
    its bound, when what follows matches the rest. *)
Lemma rep_class_greedy n lo ds rest c c' :
  all_in p ds → (lo ≤ String.length ds ≤ n)%nat →
  String.length ds = n ∨ not_next p rest →
  k rest c = Some c' →
  rmatch input (Rep (Class p) lo (Some n)) k (ds +:+ rest) c = Some c'.
Proof.
  revert n lo. induction ds as [|a ds IH]; intros n lo Hds Hlen Hmax Hk.
  - simpl in Hlen. assert (lo = 0%nat) as -> by lia.
    change ("" +:+ rest) with rest.
    destruct n as [|n]; [by rewrite rmatch_Rep_0|].
    rewrite rmatch_Rep_S_0, rmatch_Class.
    destruct Hmax as [?|Hmax]; [done|].
    destruct rest as [|b rest]; [done|]. simpl in Hmax.
    by destruct (p b).
  - simpl in Hds, Hlen. apply andb_prop_elim in Hds as [Ha Hds].
    destruct n as [|n]; [lia|]. rewrite append_cons.
    assert (String.length ds = n ∨ not_next p rest) as Hmax'.
    { destruct Hmax as [Hmax|?]; [left; simpl in Hmax; lia|by right]. }
    destruct lo as [|lo].
    + rewrite rmatch_Rep_S_0, rmatch_Class.
      destruct (p a); [|done].
      rewrite (IH n 0%nat) by (done || lia). done.
    + rewrite rmatch_Rep_S_S, rmatch_Class.
      destruct (p a); [|done].
      apply IH; (done || lia).
Qed.
End RepClass.

(** ** The pattern of an amount *)

Section Pattern.
Context (input : string).
Implicit Types (k : string → captures → option captures).

Lemma rmatch_Cat r1 r2 k s c :
  rmatch input (Cat r1 r2) k s c = rmatch input r1 (rmatch input r2 k) s c.
Proof. reflexivity. Qed.

Lemma rmatch_Group i r k s c :
  rmatch input (Group i r) k s c
  = rmatch input r
      (λ s' c', k s' (<[i := substring (pos_of input s)
                                (pos_of input s' - pos_of input s) input]> c'))
      s c.
Proof. reflexivity. Qed.

Lemma rmatch_Opt r k s c :
  rmatch input (Opt r) k s c
  = match rmatch input r k s c with
    | Some c' => Some c'
    | None => k s c
    end.
Proof. reflexivity. Qed.

Lemma append_nil_r s : s +:+ "" = s.
Proof. induction s as [|a s IH]; [done|]. rewrite append_cons. by f_equal. Qed.

Lemma substring_0_append mid rest :
  substring 0 (String.length mid) (mid +:+ rest) = mid.
Proof.
  induction mid as [|a mid IH].
  - change ("" +:+ rest) with rest. by destruct rest.
  - rewrite append_cons. simpl. by f_equal.
Qed.

End Pattern.

(** What a group captures. *)
Lemma capture_of input pre mid rest :
  input = pre +:+ mid +:+ rest →
  substring (pos_of input (mid +:+ rest))
            (pos_of input rest - pos_of input (mid +:+ rest)) input = mid.
Proof.
  intros ->. unfold pos_of. rewrite !length_append.
  replace (_ - _ - _)%nat with (String.length mid) by lia.
  replace (_ - _)%nat with (String.length pre) by lia.
  induction pre as [|a pre IH].
  - change ("" +:+ mid +:+ rest) with (mid +:+ rest).
    apply substring_0_append.
  - by rewrite append_cons.
Qed.

Lemma ws_not_digit a : is_ws a → is_digit a = false.
Proof. destruct a as [[] [] [] [] [] [] [] []]; by vm_compute. Qed.
Lemma upper_not_ws a : is_upper a → is_ws a = false.
Proof. destruct a as [[] [] [] [] [] [] [] []]; by vm_compute. Qed.
Lemma digit_not_ws a : is_digit a → is_ws a = false.
Proof. destruct a as [[] [] [] [] [] [] [] []]; by vm_compute. Qed.
Lemma upper_not_digit a : is_upper a → is_digit a = false.
Proof. destruct a as [[] [] [] [] [] [] [] []]; by vm_compute. Qed.
Lemma upper_not_point a : is_upper a → Ascii.eqb "." a = false.
Proof. destruct a as [[] [] [] [] [] [] [] []]; by vm_compute. Qed.
Lemma ws_not_point a : is_ws a → Ascii.eqb "." a = false.
Proof. destruct a as [[] [] [] [] [] [] [] []]; by vm_compute. Qed.

Lemma all_in_head p a s : all_in p (String a s) → p a.
Proof. simpl. by intros [? _]%andb_prop_elim. Qed.

Lemma not_next_code p code :
  (∀ a, is_upper a → p a = false) →
  from_option (λ k, all_in is_upper k ∧ String.length k = 3%nat) True code →
  not_next p (default "" code).
Proof.
  intros Hp Hcode. destruct code as [[|a k]|]; simpl in *; [by destruct Hcode|..].
  - destruct Hcode as [[Ha _]%andb_prop_elim _]. by rewrite (Hp a Ha).
  - done.
Qed.

Lemma not_next_ws_code p ws code :
  (∀ a, is_upper a → p a = false) → (∀ a, is_ws a → p a = false) →
  all_in is_ws ws →
  from_option (λ k, all_in is_upper k ∧ String.length k = 3%nat) True code →
  not_next p (ws +:+ default "" code).
Proof.
  intros Hu Hw Hws Hcode. destruct ws as [|a ws].
  - by apply not_next_code.
  - rewrite append_cons. simpl. apply all_in_head in Hws.
    by rewrite (Hw a Hws).
Qed.

Lemma amount_tail_complete input pre ws code c :
  input = pre +:+ ws +:+ default "" code →
  all_in is_ws ws →
  from_option (λ k, all_in is_upper k ∧ String.length k = 3%nat) True code →
  rmatch input amount_tail at_end (ws +:+ default "" code) c
  = Some (match code with Some k => <[3%nat := k]> c | None => c end).
Proof.
  intros Hin Hws Hcode. unfold amount_tail, Star.
  rewrite rmatch_Cat, rmatch_Rep_None.
  apply rep_class_greedy; [done|rewrite length_append; lia| |].
  { right. apply not_next_code; [apply upper_not_ws|done]. }
  rewrite rmatch_Opt, rmatch_Group.
  destruct code as [k|]; [|reflexivity].
  change (default "" (Some k)) with k in *. simpl in Hcode.
  destruct Hcode as [Hk Hlen].
  pose proof (rep_class_greedy input is_upper
    (λ s' c', at_end s' (<[3%nat := substring (pos_of input k)
                             (pos_of input s' - pos_of input k) input]> c'))
    3 3 k "" c) as H.
  rewrite append_nil_r in H. erewrite H; [done|done|lia|by left|].
  simpl. do 2 f_equal.
  pose proof (capture_of input (pre +:+ ws) k "") as Hcap.
  rewrite append_nil_r in Hcap. apply Hcap. by rewrite append_assoc.
Qed.

Lemma point_fails input k s c :
  not_next (Ascii.eqb ".") s → rmatch input (Class (Ascii.eqb ".")) k s c = None.
Proof.
  rewrite rmatch_Class. destruct s as [|a s]; [done|]. cbn [not_next].
  by destruct (Ascii.eqb "." a).
Qed.

Lemma amount_decimals_match input pre f rest k c c' :
  input = pre +:+ String "." f +:+ rest →
  all_in is_digit f → (1 ≤ String.length f ≤ 2)%nat →
  not_next is_digit rest →
  k rest (<[2%nat := String "." f]> c) = Some c' →
  rmatch input
    (Group 2 (Cat (Class (Ascii.eqb ".")) (Rep (Class is_digit) 1 (Some 2%nat))))
    k (String "." f +:+ rest) c = Some c'.
Proof.
  intros Hin Hf Hlen Hn Hk.
  pose proof (capture_of input pre (String "." f) rest Hin) as Hcap.
  rewrite rmatch_Group, rmatch_Cat.
  rewrite append_cons in *. rewrite rmatch_Class.
  change (Ascii.eqb "." ".") with true. cbv iota.
  apply rep_class_greedy; [done|lia|by right|].
  cbv beta. by rewrite Hcap.
Qed.

Lemma amount_match input int frac ws code :
  input = amount_text int frac ws code →
  amount_parts int frac ws code →
  rmatch input amount_pattern at_end (amount_text int frac ws code) ∅
  = Some (amount_captures int frac code).
Proof.
  intros Hin ([Hint Hne] & Hfrac & Hws & Hcode).
  change amount_pattern with
    (Cat (Group 1 (Cat (Plus (Class is_digit))
                       (Opt (Group 2 (Cat (Class (Ascii.eqb "."))
                                          (Rep (Class is_digit) 1
                                               (Some 2%nat)))))))
         amount_tail).
  unfold amount_text in *.
  assert (not_next is_digit (ws +:+ default "" code)) as Hn2.
  { apply not_next_ws_code;
      [apply upper_not_digit|apply ws_not_digit|done..]. }
  assert (not_next (Ascii.eqb ".") (ws +:+ default "" code)) as Hn2'.
  { apply not_next_ws_code;
      [apply upper_not_point|apply ws_not_point|done..]. }
  pose proof (amount_tail_complete input
                (int +:+ default "" (String "." <$> frac)) ws code) as Htail.
  rewrite append_assoc in Htail.
  specialize (λ c, Htail c Hin Hws Hcode) as Htail'.
  pose proof (capture_of input "" (int +:+ default "" (String "." <$> frac))
                (ws +:+ default "" code)) as H1.
  rewrite append_assoc in H1.
  change ("" +:+ ?x) with x in H1. specialize (H1 Hin).
  rewrite rmatch_Cat, rmatch_Group, rmatch_Cat. unfold Plus.
  rewrite rmatch_Rep_None.
  apply rep_class_greedy; [done| | |].
  { split; [destruct int; [done|simpl; lia]|].
    rewrite length_append. lia. }
  { right. destruct frac as [f|]; [done|]. exact Hn2. }
  rewrite rmatch_Opt.
  destruct frac as [f|]; simpl in Hfrac.
  - destruct Hfrac as [Hf Hlen].
    change (default "" (String "." <$> Some f)) with (String "." f) in *.
    erewrite (amount_decimals_match input int f); [done|done..|].
    cbv beta. rewrite H1. by rewrite Htail'.
  - change (default "" (String "." <$> None)) with "" in *.
    change ("" +:+ ?x) with x in *.
    rewrite rmatch_Group, rmatch_Cat, point_fails by done.
    rewrite H1, Htail'. unfold amount_captures. simpl.
    by rewrite append_nil_r.
Qed.

Lemma at_end_Some rest c c' : at_end rest c = Some c' → rest = "".
Proof. by destruct rest. Qed.

Lemma amount_tail_sound input rest c c' :
  rmatch input amount_tail at_end rest c = Some c' →
  ∃ ws code, rest = ws +:+ default "" code ∧ all_in is_ws ws ∧
    from_option (λ k, all_in is_upper k ∧ String.length k = 3%nat) True code.
Proof.
  unfold amount_tail, Star. rewrite rmatch_Cat, rmatch_Rep_None.
  intros (ws & rest3 & -> & Hws & _ & H)%rep_class_sound.
  rewrite rmatch_Opt in H.
  destruct (rmatch input (Group 3 _) at_end rest3 c) as [c''|] eqn:H3.
  - rewrite rmatch_Group in H3.
    apply rep_class_sound in H3 as (k & rest4 & -> & Hk & Hlen & H3).
    apply at_end_Some in H3 as ->. rewrite append_nil_r.
    exists ws, (Some k). simpl. repeat split; (done || lia).
  - apply at_end_Some in H as ->. exists ws, None. by simpl.
Qed.

Lemma amount_match_sound s caps :
  match_anchored amount_pattern s = Some caps →
  ∃ int frac ws code,
    amount_parts int frac ws code ∧ s = amount_text int frac ws code ∧
    caps = amount_captures int frac code.
Proof.
  intros H.
  cut (∃ int frac ws code,
         amount_parts int frac ws code ∧ s = amount_text int frac ws code).
  { intros (int & frac & ws & code & Hok & ->).
    exists int, frac, ws, code. split; [exact Hok|]. split; [done|].
    unfold match_anchored in H.
    change (rmatch ?i ?r _ ?t ∅) with (rmatch i r at_end t ∅) in H.
    rewrite amount_match in H by done. congruence. }
  unfold match_anchored in H.
  change (rmatch ?i ?r _ ?t ∅) with (rmatch i r at_end t ∅) in H.
  change amount_pattern with
    (Cat (Group 1 (Cat (Plus (Class is_digit))
                       (Opt (Group 2 (Cat (Class (Ascii.eqb "."))
                                          (Rep (Class is_digit) 1
                                               (Some 2%nat)))))))
         amount_tail) in H.
  rewrite rmatch_Cat, rmatch_Group, rmatch_Cat in H. unfold Plus in H.
  rewrite rmatch_Rep_None in H. revert H. generalize s at 1 3 4 5 as input.
  intros input (int & rest1 & -> & Hint & Hlen & H)%rep_class_sound.
  rewrite rmatch_Opt in H.
  assert (int ≠ "") as Hne by (intros ->; simpl in Hlen; lia).
  match type of H with
  | match ?m with _ => _ end = _ => destruct m as [c'|] eqn:H2
  end.
  - clear H. rewrite rmatch_Group, rmatch_Cat, rmatch_Class in H2.
    destruct rest1 as [|a rest1]; [done|].
    destruct (Ascii.eqb "." a) eqn:Ha; [|done].
    apply Ascii.eqb_eq in Ha as <-.
    apply rep_class_sound in H2 as (f & rest2 & -> & Hf & Hlenf & H2).
    apply amount_tail_sound in H2 as (ws & code & -> & Hws & Hcode).
    exists int, (Some f), ws, code. unfold amount_text, amount_parts.
    simpl. by rewrite append_cons.
  - apply amount_tail_sound in H as (ws & code & -> & Hws & Hcode).
    exists int, None, ws, code. by unfold amount_text, amount_parts.
Qed.

Lemma amount_match_complete int frac ws code :
  amount_parts int frac ws code →
  match_anchored amount_pattern (amount_text int frac ws code)
  = Some (amount_captures int frac code).
Proof. intros Hok. unfold match_anchored. by apply amount_match. Qed.


(** ** The number of an amount *)

Lemma take_digits_append ds rest :
  all_in is_digit ds → not_next is_digit rest →
  take_digits (ds +:+ rest) = ds.
Proof.
  intros Hds Hn. induction ds as [|a ds IH].
  - change ("" +:+ rest) with rest. destruct rest as [|b rest]; [done|].
    simpl in *. by destruct (is_digit b).
  - rewrite append_cons. simpl in *.
    apply andb_prop_elim in Hds as [Ha Hds].
    destruct (is_digit a); [|done]. by rewrite IH.
Qed.

Lemma drop_digits_append ds rest :
  all_in is_digit ds → not_next is_digit rest →
  drop_digits (ds +:+ rest) = rest.
Proof.
  intros Hds Hn. induction ds as [|a ds IH].
  - change ("" +:+ rest) with rest. destruct rest as [|b rest]; [done|].
    simpl in *. by destruct (is_digit b).
  - rewrite append_cons. simpl in *.
    apply andb_prop_elim in Hds as [Ha Hds].
    destruct (is_digit a); [|done]. by rewrite IH.
Qed.

Lemma take_digits_all ds : all_in is_digit ds → take_digits ds = ds.
Proof.
  intros Hds. rewrite <- (append_nil_r ds) at 1.
  by apply take_digits_append.
Qed.

Lemma drop_digits_all ds : all_in is_digit ds → drop_digits ds = "".
Proof.
  intros Hds. rewrite <- (append_nil_r ds) at 1.
  by apply drop_digits_append.
Qed.

(** A text that starts with a digit has no sign and no white space in
    front. *)
Lemma parseFloat_digit a s :
  is_digit a →
  parseFloat (String a s)
  = let t := String a s in
    let frac_part :=
      match drop_digits t with
      | String "." r => take_digits r
      | _ => EmptyString
      end in
    of_decimal (digits_val 0 (take_digits t +:+ frac_part))
               (String.length frac_part).
Proof.
  intros Ha.
  destruct a as [[] [] [] [] [] [] [] []]; try (by vm_compute in Ha);
    reflexivity.
Qed.

Lemma digits_not_next_point f : not_next is_digit (String "." f).
Proof. done. Qed.

(** [parseFloat] of the first capture group. *)
Lemma parseFloat_amount int frac :
  all_in is_digit int → int ≠ "" →
  from_option (λ f, all_in is_digit f ∧ (1 ≤ String.length f ≤ 2)%nat)
              True frac →
  parseFloat (int +:+ default "" (String "." <$> frac))
  = amount_value int frac.
Proof.
  intros Hint Hne Hfrac. unfold amount_value.
  destruct int as [|a int]; [done|]. clear Hne.
  pose proof (all_in_head _ _ _ Hint) as Ha.
  rewrite append_cons, (parseFloat_digit a _ Ha). cbv zeta.
  rewrite <- append_cons.
  destruct frac as [f|]; simpl in Hfrac.
  - destruct Hfrac as [Hf _].
    change (default "" (String "." <$> Some f)) with (String "." f).
    change (default "" (Some f)) with f.
    rewrite take_digits_append, drop_digits_append by done.
    by rewrite take_digits_all.
  - change (default "" (String "." <$> None)) with "".
    change (default "" None) with "".
    rewrite append_nil_r.
    rewrite take_digits_all, drop_digits_all by done.
    by rewrite append_nil_r.
Qed.

Lemma amount_captures_1 int frac code :
  amount_captures int frac code !! 1%nat
  = Some (int +:+ default "" (String "." <$> frac)).
Proof. by destruct code, frac. Qed.

Lemma amount_captures_3 int frac code :
  amount_captures int frac code !! 3%nat = code.
Proof. by destruct code, frac. Qed.

Lemma or_str_code code :
  from_option (λ k, all_in is_upper k ∧ String.length k = 3%nat) True code →
  or_str code "SGD" = default "SGD" code.
Proof. destruct code as [[|a k]|]; simpl; [by intros [_ ?]|done..]. Qed.

(** What the amount step makes of a text. *)
Lemma accepted_amount_spec text a cur :
  accepted_amount text = Some (a, cur) ↔
  ∃ int frac ws code,
    amount_parts int frac ws code ∧ trim text = amount_text int frac ws code ∧
    a = amount_value int frac ∧ isNaN a = false ∧ le_zero a = false ∧
    cur = default "SGD" code.
Proof.
  unfold accepted_amount. split.
  - destruct (match_anchored amount_pattern (trim text)) as [caps|] eqn:Hm;
      [|done].
    apply amount_match_sound in Hm
      as (int & frac & ws & code & Hok & Htext & ->).
    rewrite amount_captures_1, amount_captures_3. cbn [show_undef default id from_option].
    destruct Hok as ([Hint Hne] & Hfrac & Hws & Hcode).
    change (from_option id "undefined" (Some ?x)) with x.
    rewrite parseFloat_amount, or_str_code by done.
    destruct (isNaN _ || le_zero _) eqn:Hpos; [done|].
    apply orb_false_elim in Hpos as [Hnan Hle]. intros [= <- <-].
    by exists int, frac, ws, code.
  - intros (int & frac & ws & code & Hok & Htext & -> & Hnan & Hle & ->).
    rewrite Htext, (amount_match_complete int frac ws code Hok).
    rewrite amount_captures_1, amount_captures_3.
    destruct Hok as ([Hint Hne] & Hfrac & Hws & Hcode).
    change (show_undef (Some ?x)) with x.
    rewrite parseFloat_amount, or_str_code by done.
    by rewrite Hnan, Hle.
Qed.


(** * The data of the buttons *)

(** ** Decimal numerals *)

Lemma pretty_N_char_digit d :
  (d < 10)%N →
  is_digit (pretty_N_char d) = true ∧
  digit_val (pretty_N_char d) = Z.of_N d.
Proof.
  intros Hd. destruct d as [|p]; [done|].
  do 4 (try destruct p as [p|p|]); try lia; done.
Qed.

Lemma digits_val_pretty_N_go x s :
  ∃ L : nat, ∀ acc,
    digits_val acc (pretty_N_go x s)
    = digits_val (acc * 10 ^ Z.of_nat L + Z.of_N x) s.
Proof.
  revert s. induction (N.lt_wf_0 x) as [x _ IH]. intros s.
  assert (x = 0 ∨ 0 < x)%N as [->|Hx] by lia.
  { exists 0%nat. intros acc. rewrite pretty_N_go_0. f_equal. lia. }
  rewrite pretty_N_go_step by done.
  destruct (IH (x `div` 10)%N (N.div_lt x 10 Hx eq_refl)
              (String (pretty_N_char (x `mod` 10)) s)) as [L HL].
  destruct (pretty_N_char_digit (x `mod` 10)%N) as [Hd Hv];
    [by apply N.mod_lt|].
  exists (S L). intros acc. rewrite HL. simpl. rewrite Hd, Hv. f_equal.
  rewrite Nat2Z.inj_succ, Z.pow_succ_r by lia.
  pose proof (N.div_mod x 10). lia.
Qed.

Lemma pretty_N_go_head x s :
  (0 < x)%N → ∃ a t, pretty_N_go x s = String a t ∧ is_digit a = true.
Proof.
  revert s. induction (N.lt_wf_0 x) as [x _ IH]. intros s Hx.
  rewrite pretty_N_go_step by done.
  destruct (pretty_N_char_digit (x `mod` 10)%N) as [Hd _];
    [by apply N.mod_lt|].
  destruct (N.eq_0_gt_0_cases (x `div` 10)) as [->|Hq].
  - rewrite pretty_N_go_0. by eexists _, _.
  - apply IH; [by apply N.div_lt|done].
Qed.

Lemma pretty_N_go_all p x s :
  (∀ a, is_digit a = true → p a = true) →
  all_in p s → all_in p (pretty_N_go x s).
Proof.
  intros Hp. revert s. induction (N.lt_wf_0 x) as [x _ IH]. intros s Hs.
  assert (x = 0 ∨ 0 < x)%N as [->|Hx] by lia; [by rewrite pretty_N_go_0|].
  rewrite pretty_N_go_step by done.
  apply IH; [by apply N.div_lt|]. simpl.
  destruct (pretty_N_char_digit (x `mod` 10)%N) as [Hd _];
    [by apply N.mod_lt|].
  by rewrite (Hp _ Hd).
Qed.

Lemma pretty_N_all p (x : N) :
  (∀ a, is_digit a = true → p a = true) → all_in p (pretty x).
Proof.
  intros Hp. unfold pretty, pretty_N. case_decide.
  - simpl. by rewrite Hp.
  - by apply pretty_N_go_all.
Qed.

Lemma pretty_Z_all p (z : Z) :
  (∀ a, is_numeral a = true → p a = true) → all_in p (pretty z).
Proof.
  intros Hp.
  assert (∀ a, is_digit a = true → p a = true) as Hd.
  { intros a Ha. apply Hp. unfold is_numeral. by rewrite Ha. }
  destruct z as [|q|q]; unfold pretty, pretty_Z.
  - simpl. by rewrite Hd.
  - by apply pretty_N_all.
  - rewrite append_cons. simpl. rewrite Hp by done.
    by apply pretty_N_all.
Qed.

Lemma parseInt_digit a s :
  is_digit a → parseInt (String a s) = Some (digits_val 0 (String a s)).
Proof.
  intros Ha.
  destruct a as [[] [] [] [] [] [] [] []]; try (by vm_compute in Ha);
    reflexivity.
Qed.

(** [parseInt] reads back what a template literal shows for an index. *)
Lemma parseInt_pretty (n : nat) : parseInt (pretty n) = Some (Z.of_nat n).
Proof.
  unfold pretty, pretty_nat, pretty, pretty_N. case_decide as Hn.
  - by replace n with 0%nat by lia.
  - destruct (pretty_N_go_head (N.of_nat n) "") as (a & t & Heq & Ha);
      [lia|].
    destruct (digits_val_pretty_N_go (N.of_nat n) "") as [L HL].
    rewrite Heq, parseInt_digit by by rewrite Ha.
    rewrite <- Heq, HL. simpl. f_equal. lia.
Qed.

(** ** Splitting the data at the underscores *)

Lemma split_us_plain t : all_in not_underscore t → split_us t = [t].
Proof.
  induction t as [|a t IH]; [done|]. simpl.
  intros [Ha Ht]%andb_prop_elim. unfold not_underscore in Ha.
  destruct (Ascii.eqb a "_"); [done|]. by rewrite IH.
Qed.

Lemma digit_not_underscore a : is_digit a = true → not_underscore a = true.
Proof. destruct a as [[] [] [] [] [] [] [] []]; by vm_compute. Qed.

Lemma numeral_not_underscore a :
  is_numeral a = true → not_underscore a = true.
Proof. destruct a as [[] [] [] [] [] [] [] []]; by vm_compute. Qed.

Lemma split_part_toggle t :
  all_in not_underscore t → split_part 2 ("toggle_member_" +:+ t) = Some t.
Proof.
  intros Ht. unfold split_part. rewrite !append_cons.
  change ("" +:+ t) with t. simpl. by rewrite (split_us_plain t Ht).
Qed.

Lemma split_part_group t :
  all_in not_underscore t → split_part 1 ("group_" +:+ t) = Some t.
Proof.
  intros Ht. unfold split_part. rewrite !append_cons.
  change ("" +:+ t) with t. simpl. by rewrite (split_us_plain t Ht).
Qed.

Lemma split_part_createExpense t :
  all_in not_underscore t → split_part 1 ("createExpense_" +:+ t) = Some t.
Proof.
  intros Ht. unfold split_part. rewrite !append_cons.
  change ("" +:+ t) with t. simpl. by rewrite (split_us_plain t Ht).
Qed.

Lemma split_part_setgroup t :
  all_in not_underscore t → split_part 1 ("setgroup_" +:+ t) = Some t.
Proof.
  intros Ht. unfold split_part. rewrite !append_cons.
  change ("" +:+ t) with t. simpl. by rewrite (split_us_plain t Ht).
Qed.

Lemma startsWith_append p t : startsWith p (p +:+ t) = true.
Proof. apply prefix_correct, substring_0_append. Qed.

Lemma member_at_index ms (idx : nat) :
  member_at ms (Some (Z.of_nat idx)) = ms !! idx.
Proof.
  unfold member_at. rewrite Nat2Z.id.
  by destruct (Z.leb_spec 0 (Z.of_nat idx)); [|lia].
Qed.

(** The index a member button carries is the index the handler reads. *)
Lemma toggle_data_index ms (idx : nat) :
  member_at ms (parseInt (show_undef
                  (split_part 2 ("toggle_member_" +:+ pretty idx))))
  = ms !! idx.
Proof.
  rewrite split_part_toggle.
  - change (show_undef (Some ?x)) with x.
    by rewrite parseInt_pretty, member_at_index.
  - apply pretty_N_all, digit_not_underscore.
Qed.

Lemma toggled_buttons_row ms sel idx m :
  ms !! idx = Some m →
  toggled_buttons ms sel !! idx
  = Some [Button (member_name m +:+ " " +:+
                  (if bool_decide (m_id m ∈ sel) then check_mark else ""))
                 ("toggle_member_" +:+ pretty idx)].
Proof.
  intros Hm. unfold toggled_buttons, keyboard.
  rewrite lookup_app_l by (rewrite length_imap; by eapply lookup_lt_Some).
  by rewrite list_lookup_imap, Hm.
Qed.

Lemma member_buttons_row ms idx m :
  ms !! idx = Some m →
  member_buttons ms !! idx
  = Some [Button (member_name m) ("toggle_member_" +:+ pretty idx)].
Proof.
  intros Hm. unfold member_buttons, keyboard.
  rewrite lookup_app_l by (rewrite length_imap; by eapply lookup_lt_Some).
  by rewrite list_lookup_imap, Hm.
Qed.

(** The buttons of the members and the handler of a toggle agree: the
    button shown for the member at an index of the roster, pressed by the
    owner, toggles that member. *)
Theorem member_button_toggles_its_member E q c u mid w l s ms sel idx m :
  userSessions w !! c = Some l → heap w !! l = Some s →
  userId s = Some u →
  members s = Some ms → selectedMembers s = Some sel →
  ms !! idx = Some m →
  ∃ text data,
    member_buttons ms !! idx = Some [Button (member_name m) data] ∧
    toggled_buttons ms sel !! idx = Some [Button text data] ∧
    on_callback_query E q c u mid data w =
      (Val (),
       add_calls [EditMessageReplyMarkup
                    (toggled_buttons ms (toggle (m_id m) sel)) c mid;
                  AnswerCallbackQuery q None]
                 (select l (toggle (m_id m) sel) (disarm l s w))).
Proof.
  intros Hl Hs Hu Hms Hsel Hm.
  eexists _, ("toggle_member_" +:+ pretty idx).
  split; [by apply member_buttons_row|].
  split; [by apply toggled_buttons_row|].
  apply (toggle_press E q c u mid _ w l s ms sel m Hl Hs Hu Hms Hsel).
  - apply startsWith_append.
  - by rewrite toggle_data_index.
Qed.

(** ** The button of a default group *)

Lemma on_press_setgroup_data E c u mid t session :
  on_press E c u mid ("setgroup_" +:+ t) session
  = on_press_setgroup E c ("setgroup_" +:+ t).
Proof.
  unfold on_press. rewrite (startsWith_append "setgroup_" t).
  rewrite !append_cons. rewrite !startsWith_cons.
  destruct (ascii_dec "g" "s"); [done|].
  by destruct (ascii_dec "c" "s").
Qed.

Lemma find_by_id gs g :
  g ∈ gs →
  ∃ g', List.find (λ g0, String.eqb (pretty (g_id g0)) (pretty (g_id g))) gs
        = Some g' ∧ g' ∈ gs ∧ g_id g' = g_id g.
Proof.
  induction gs as [|g0 gs IH]; [by intros ?%elem_of_nil|].
  intros Hg. simpl.
  destruct (String.eqb (pretty (g_id g0)) (pretty (g_id g))) eqn:Heq.
  - exists g0. apply String.eqb_eq in Heq. apply (inj pretty) in Heq.
    split; [done|]. split; [by left|done].
  - apply elem_of_cons in Hg as [->|Hg]; [by rewrite String.eqb_refl in Heq|].
    destruct (IH Hg) as (g' & Hf & Hin & Hid). exists g'.
    split; [done|]. split; [by right|done].
Qed.

Lemma group_buttons_row prefix gs i g :
  gs !! i = Some g →
  group_buttons prefix gs !! i
  = Some [Button (g_name g) (prefix +:+ pretty (g_id g))].
Proof.
  intros Hg. unfold group_buttons, keyboard. by rewrite list_lookup_fmap, Hg.
Qed.

(** The buttons of [/setgroup] and the handler of [setgroup_] agree: the
    button shown for a group of the list, pressed by the owner in a
    linked chat, stores the id of that group as the default group of
    the chat, names a group of that id in the confirmation, and ends
    the session. The access token stays. *)
Theorem default_group_button E q c u mid w l s gs i g tok :
  userSessions w !! c = Some l → heap w !! l = Some s →
  userId s = Some u → groups s = Some gs →
  gs !! i = Some g →
  tokens w !! c = Some tok → db_write_ok E = true →
  let data := "setgroup_" +:+ pretty (g_id g) in
  group_buttons "setgroup_" gs !! i = Some [Button (g_name g) data] ∧
  ∃ g', g' ∈ gs ∧ g_id g' = g_id g ∧
    on_callback_query E q c u mid data w =
      (Val (),
       add_calls [AnswerCallbackQuery q None]
         (set_userSessions (delete c (userSessions w))
            (add_calls (DeleteMessage c <$> default [] (messageIds s))
               (told c ("Default group set to " +:+ String "034" "" +:+
                        g_name g' +:+ String "034" "" +:+ ".")
                  (set_tokens
                     (<[c := Token (accessToken tok)
                                   (Some (pretty (g_id g)))]> (tokens w))
                     (disarm l s w)))))).
Proof.
  intros Hl Hs Hu Hgs Hg Htok Hdb data.
  split; [by apply group_buttons_row|].
  destruct (find_by_id gs g) as (g' & Hfind & Hin & Hid);
    [by eapply list_elem_of_lookup_2|].
  exists g'. split; [done|]. split; [done|].
  rewrite (owner_press E q c u mid data w l s Hl Hs Hu).
  subst data. rewrite on_press_setgroup_data.
  pose proof (disarm_heap l s w Hs) as Hs'.
  pose proof (disarm_userSessions l s w) as Hl'.
  pose proof (disarm_tokens l s w) as Ht'.
  set (w1 := disarm l s w) in *.
  unfold on_press_setgroup.
  rewrite split_part_setgroup
    by (apply pretty_Z_all, numeral_not_underscore).
  change (show_undef (Some ?x)) with x.
  unfold mbind at 1, M_bind at 1, bind at 1.
  unfold mbind at 1, M_bind at 1, bind at 1, lookup_session at 1, get at 1.
  rewrite Hl', Hl.
  unfold mbind at 1, M_bind at 1, bind at 1, prop at 1.
  rewrite Hs'. cbn [groups set_timeout]. rewrite Hgs, Hfind.
  unfold try_catch at 1.
  unfold mbind at 1, M_bind at 1, bind at 1, findToken at 1, get at 1.
  rewrite Ht', Htok.
  unfold mbind at 1, M_bind at 1, bind at 1, db_write at 1. rewrite Hdb.
  unfold put at 1.
  unfold mbind at 1, M_bind at 1, bind at 1, sendMessage at 1.
  rewrite (finish_session_spec E c l (set_timeout None s)) by exact Hs'.
  unfold answerCallbackQuery, emit, put, told, sendMessage, add_calls,
    set_userSessions, set_tokens. simpl. by rewrite Ht', Hl'.
Qed.

(** * The expense wizard *)

Lemma truthy_Some s : s ≠ "" → truthy (Some s) = true.
Proof. intros Hs. simpl. by apply String.eqb_neq in Hs as ->. Qed.

(** [/expense] in a linked chat with a default group, in full. *)
Lemma expense_opened E c u w tok gid :
  inv w →
  tokens w !! c = Some (Token tok (Some gid)) → tok ≠ "" → gid ≠ "" →
  ∃ w1 l,
    handle E (Expense c u) w = (Val (), w1) ∧
    userSessions w1 !! c = Some l ∧
    heap w1 !! l =
      Some (recorded [next_message w]
              (new_session (Some u) (Some "awaiting_description")
                           (Some gid) None)) ∧
    next_message w1 = next_message w + 1 ∧
    tokens w1 = tokens w ∧
    no_timer c w1 ∧
    trace w1 = trace w ++ (DeleteMessage c <$> recorded_ids c w) ++
               [SendMessage c description_prompt None (next_message w)].
Proof.
  intros Hi Htok Ht Hg.
  destruct (after_cleanup E c w Hi) as (w1 & Hc & Hq & Hn & Htk & Hm & Htr).
  rewrite <- Htk in Htok.
  assert (handle E (Expense c u) w
          = open_expense c u (Some gid) w1) as ->.
  { simpl. unfold on_expense.
    unfold mbind at 1, M_bind at 1, bind at 1. rewrite Hc.
    unfold mbind at 1, M_bind at 1, bind at 1, findToken at 1, get at 1.
    rewrite Htok. cbn [fmap option_fmap option_map accessToken mbind
                       option_bind defaultGroupId].
    by rewrite !truthy_Some. }
  unfold open_expense, push_message, recorded, new_session. munfold. simpl.
  rewrite !lookup_insert_eq. simpl. rewrite !lookup_insert_eq. simpl.
  eexists _, (next_loc w1). split; [reflexivity|]. simpl.
  rewrite lookup_insert_eq, lookup_alter_eq, lookup_insert_eq.
  rewrite Hm, Htr, <- app_assoc.
  repeat split; try done. apply Hq.
Qed.

(** [/expense] in a linked chat with a default group: after the cleanup
    that opens every command, the chat has a fresh session of the sender
    that waits for a description, for the default group, with the prompt
    as its one recorded message and no deadline. Nothing is asked of the
    Splitwise API. *)
Theorem expense_opens_the_wizard db evs E c u tok gid :
  let w := run (start db) evs in
  tokens w !! c = Some (Token tok (Some gid)) → tok ≠ "" → gid ≠ "" →
  let w' := step_world w (E, Expense c u) in
  calls (handle E (Expense c u)) w =
    (DeleteMessage c <$> recorded_ids c w) ++
    [SendMessage c description_prompt None (next_message w)] ∧
  no_timer c w' ∧
  ∃ l', userSessions w' !! c = Some l' ∧
        heap w' !! l' =
          Some (recorded [next_message w]
                  (new_session (Some u) (Some "awaiting_description")
                               (Some gid) None)).
Proof.
  intros w Htok Ht Hg w'.
  assert (inv w) as Hi by apply inv_run, inv_start.
  destruct (expense_opened E c u w tok gid Hi Htok Ht Hg)
    as (w1 & l & Hh & Hl & Hs & _ & _ & Hq & Htr).
  subst w'. unfold step_world, calls. cbn [fst snd]. rewrite Hh.
  cbn [fst snd]. rewrite Htr, drop_app_length.
  split; [done|]. split; [done|]. by exists l.
Qed.

(** ** Blank texts *)







Lemma description_taken c u mid text w l s :
  userSessions w !! c = Some l → heap w !! l = Some s →
  userId s = Some u → step s = Some "awaiting_description" →
  on_message c u mid (Some text) w =
    if String.eqb (trim text) ""
    then (Ret,
          set_heap (<[l := recorded [mid] s]> (heap w))
            (told c "Invalid description. Please enter a valid description."
                  w))
    else (Val (),
          set_heap
            (<[l := recorded [mid; next_message w]
                      (set_step (Some "awaiting_amount")
                         (set_description (Some (trim text)) s))]> (heap w))
            (told c "Please enter the amount for the expense (e.g., 10 USD or 10, default is SGD):"
                  w)).
Proof.
  intros Hl Hs Hu Hst.
  unfold on_message, record_message, on_awaiting_description, trimmed,
    push_message, told.
  munfold. rewrite Hl, Hs. simpl.
  rewrite bool_decide_eq_true_2 by done.
  rewrite lookup_alter_eq, Hs. simpl. rewrite Hst. simpl.
  destruct (String.eqb (trim text) "") eqn:Heq.
  - simpl. by rewrite (alter_lookup_insert _ _ s).
  - simpl. rewrite !lookup_alter_eq, Hs. simpl.
    f_equal. f_equal. apply map_eq. intros i.
    destruct (decide (i = l)) as [->|Hne].
    + rewrite !lookup_alter_eq, lookup_insert_eq, Hs. simpl.
      unfold recorded. simpl. by rewrite <- app_assoc.
    + by rewrite !lookup_alter_ne, lookup_insert_ne.
Qed.


(** ** An equal split *)




(** * Linking and unlinking an account *)

(** [/login] in a chat without access token. *)
Lemma login_unlinked E c u w :
  inv w → truthy (accessToken <$> tokens w !! c) = false →
  ∃ w1 l,
    handle E (Login c u) w = (Val (), w1) ∧
    trace w1 = trace w ++ (DeleteMessage c <$> recorded_ids c w) ++
               [SendMessage c (login_link E c) None (next_message w)] ∧
    tokens w1 = tokens w ∧
    next_message w1 = next_message w + 1 ∧
    userSessions w1 !! c = Some l ∧
    heap w1 !! l = Some (Session None None None None None None None None
                                 None None None (Some (next_message w))).
Proof.
  intros Hi Htok.
  destruct (after_cleanup E c w Hi) as (w0 & Hc & Hq & Hn & Htk & Hm & Htr).
  rewrite <- Htk in Htok.
  simpl. unfold on_login.
  unfold mbind at 1, M_bind at 1, bind at 1. rewrite Hc.
  unfold mbind at 1, M_bind at 1, bind at 1, findToken at 1, get at 1.
  rewrite Htok. munfold. simpl.
  eexists _, (next_loc w0). split; [reflexivity|]. simpl.
  rewrite !lookup_insert_eq, Htr, Hm, <- app_assoc. by rewrite Htk.
Qed.

(** From [/login] to the linked account. In a chat without access
    token, [/login] sends the link, whose state is the chat, and keeps
    the id of that message; when the browser then comes back with a code
    that the token endpoint exchanges for an access token, the token is
    stored for the chat, the message with the link is deleted, the chat
    is told of the success and the browser gets the page of a
    successful login. *)
Theorem login_round_trip db evs E1 E2 c u a :
  let w := run (start db) evs in
  truthy (accessToken <$> tokens w !! c) = false →
  exchange_code E2 = Some (Some a) → db_write_ok E2 = true →
  let w1 := step_world w (E1, Login c u) in
  let w2 := step_world w1 (E2, OAuthCallback c) in
  calls (handle E1 (Login c u)) w =
    (DeleteMessage c <$> recorded_ids c w) ++
    [SendMessage c (login_link E1 c) None (next_message w)] ∧
  calls (handle E2 (OAuthCallback c)) w1 =
    [ExchangeCode; DeleteMessage c (next_message w);
     SendMessage c login_done None (next_message w + 1); login_page] ∧
  tokens w2 = <[c := Token a (tokens w !! c ≫= defaultGroupId)]> (tokens w).
Proof.
  intros w Htok Hex Hdb w1 w2.
  assert (inv w) as Hi by apply inv_run, inv_start.
  destruct (login_unlinked E1 c u w Hi Htok)
    as (w1' & l & Hh & Htr & Htk & Hm & Hl & Hs).
  subst w2 w1. unfold step_world, calls. cbn [fst snd]. rewrite Hh.
  cbn [fst snd]. rewrite Htr, drop_app_length. split; [done|].
  rewrite <- Htk in Htok. revert Htr.
  generalize (trace w ++ (DeleteMessage c <$> recorded_ids c w) ++
              [SendMessage c (login_link E1 c) None (next_message w)]).
  intros tr Htr.
  simpl. unfold on_oauth_callback, saveToken, fetch, deleteMessage, db_write.
  munfold. rewrite Htok, Hex, Hdb. simpl. rewrite Hl. simpl. rewrite Hs. simpl.
  rewrite Hm, Htk.
  destruct (delete_ok E2 (next_message w)); simpl;
    rewrite Htr, <- !app_assoc, drop_app_length; done.
Qed.

(** A token that could not be stored. When the token endpoint answers
    with an access token but the database refuses the write, the error
    stays inside [saveToken]: the chat is told that the login succeeded
    and the browser gets the page of a successful login, while the chat
    has the tokens it had. *)
Theorem unsaved_token_goes_unnoticed db evs E c a :
  let w := run (start db) evs in
  truthy (accessToken <$> tokens w !! c) = false →
  exchange_code E = Some (Some a) → db_write_ok E = false →
  let w' := step_world w (E, OAuthCallback c) in
  tokens w' = tokens w ∧
  ∃ es, calls (handle E (OAuthCallback c)) w =
          ExchangeCode :: es ++
          [SendMessage c login_done None (next_message w); login_page] ∧
        Forall (λ e, ∃ i, e = DeleteMessage c i) es.
Proof.
  intros w Htok Hex Hdb w'.
  assert (inv w) as Hi by apply inv_run, inv_start.
  subst w'. unfold step_world, calls. cbn [fst snd].
  assert (∃ es, Forall (λ e, ∃ i, e = DeleteMessage c i) es ∧
                handle E (OAuthCallback c) w =
                  (Val (), add_calls [login_page]
                             (told c login_done
                                (add_calls (ExchangeCode :: es) w))))
    as (es & Hes & ->).
  { simpl.
    unfold on_oauth_callback, saveToken, fetch, deleteMessage, db_write.
    munfold. rewrite Htok, Hex, Hdb. simpl.
    destruct (userSessions w !! c) as [l|] eqn:Hl.
    - destruct (inv_object w Hi c l Hl) as [_ [s Hs]].
      destruct (loginMessageId s) as [i|] eqn:Hi'.
      + exists [DeleteMessage c i]. split; [repeat constructor; by eexists|].
        simpl. rewrite Hs. simpl. rewrite Hi'.
        destruct (delete_ok E i); unfold told, add_calls, sendMessage;
          simpl; by rewrite <- !app_assoc.
      + exists []. split; [constructor|].
        simpl. rewrite Hs. simpl. rewrite Hi'.
        unfold told, add_calls, sendMessage; simpl;
          by rewrite <- !app_assoc.
    - exists []. split; [constructor|].
      unfold told, add_calls, sendMessage; simpl;
        by rewrite <- !app_assoc. }
  unfold told, add_calls. munfold. simpl. split; [done|].
  exists es. split; [|done].
  by rewrite <- !app_assoc, drop_app_length.
Qed.

(** [/unlink]. The session of the chat is ended as by every command.
    A chat without access token is told so; for a linked chat the row
    of the chat is destroyed and the chat is told that it is unlinked,
    unless the database refuses, in which case the row stays and the
    chat is told of the failure. Either way one message is sent and no
    session is left. *)
Theorem unlink_outcomes db evs E c :
  let w := run (start db) evs in
  let w' := step_world w (E, Unlink c) in
  calls (handle E (Unlink c)) w =
    (DeleteMessage c <$> recorded_ids c w) ++
    [SendMessage c (unlink_outcome E c w).1 None (next_message w)] ∧
  tokens w' = (unlink_outcome E c w).2 ∧
  userSessions w' !! c = None.
Proof.
  intros w w'.
  assert (inv w) as Hi by apply inv_run, inv_start.
  destruct (after_cleanup E c w Hi) as (w1 & Hc & Hq & Hn & Htk & Hm & Htr).
  subst w'. unfold step_world, calls, unlink_outcome. cbn [fst snd].
  destruct (handle E (Unlink c) w) as [r w2] eqn:Hh. cbn [fst snd].
  simpl in Hh. unfold on_unlink in Hh.
  unfold mbind at 1, M_bind at 1, bind at 1 in Hh. rewrite Hc in Hh.
  unfold db_write in Hh. munfold. rewrite Htk in Hh.
  destruct (truthy (accessToken <$> tokens w !! c)); simpl in *;
    [destruct (db_write_ok E); simpl in *|];
    injection Hh as <- <-; simpl;
    by rewrite Hm, Htr, <- app_assoc, drop_app_length, ?Htk.
Qed.

(** * The list of groups *)

(** [/group] in a linked chat whose account has groups: after the
    cleanup that opens every command, the list is asked of the
    Splitwise API and sent with one button for each group; the chat has
    a fresh session of the sender, and a deadline is armed for the
    message and kept in the session. The id of the message is recorded
    twice: once by the command and once more by [setButtonTimeout]. *)
Theorem group_list_opens db evs E c u tok g gs :
  let w := run (start db) evs in
  tokens w !! c = Some tok → accessToken tok ≠ "" →
  get_groups E = Some (Some (g :: gs)) →
  let w' := step_world w (E, GroupList c u) in
  let n := next_message w in
  calls (handle E (GroupList c u)) w =
    (DeleteMessage c <$> recorded_ids c w) ++
    [GetGroups (Some (accessToken tok));
     SendMessage c "Here are your groups:"
       (Some (group_buttons "group_" (g :: gs))) n] ∧
  ∃ l t, userSessions w' !! c = Some l ∧
         heap w' !! l =
           Some (set_timeout (Some t)
                   (recorded [n; n] (new_session (Some u) None None None))) ∧
         timers w' !! t = Some (Timer c n (Some l)).
Proof.
  intros w Htok Ha Hg w' n.
  assert (inv w) as Hi by apply inv_run, inv_start.
  destruct (after_cleanup E c w Hi) as (w1 & Hc & Hq & Hn & Htk & Hm & Htr).
  rewrite <- Htk in Htok.
  subst w' n. unfold step_world, calls. cbn [fst snd].
  destruct (handle E (GroupList c u) w) as [r w2] eqn:Hh. cbn [fst snd].
  simpl in Hh. unfold on_group in Hh.
  unfold mbind at 1, M_bind at 1, bind at 1 in Hh. rewrite Hc in Hh.
  unfold mbind at 1, M_bind at 1, bind at 1, loadToken at 1, get at 1 in Hh.
  rewrite Htok in Hh.
  cbn [fmap option_fmap option_map] in Hh.
  rewrite (truthy_Some _ Ha) in Hh. cbn [negb] in Hh.
  unfold fetch, setButtonTimeout, push_message, record_message,
    clear_session_timeout, new_session in Hh.
  rewrite Hg in Hh. munfold. simpl in Hh.
  repeat (progress (rewrite ?lookup_alter_eq, ?lookup_insert_eq in Hh;
                    simpl in Hh)).
  injection Hh as <- <-. simpl.
  rewrite Htr, <- !app_assoc, drop_app_length. rewrite Hm.
  split; [done|].
  exists (next_loc w1), (next_timer w1).
  rewrite !lookup_insert_eq. split; [done|]. split; [|done].
  rewrite !lookup_alter_eq, lookup_insert_eq. done.
Qed.

(** * From the command to the request *)


(** * One chat and the others *)

Section Others.
Context (c' : Z) (l' : loc) (s' : session).
Local Abbreviation kept := (holds c' l' s').

(** What the store holds for another chat is another object. *)
Lemma kept_lookup_session {A} c (k : option loc → M A) :
  c ≠ c' →
  (∀ o, o ≠ Some l' → triple kept (k o) kept) →
  triple kept (lookup_session c ≫= k) kept.
Proof.
  intros Hc Hk w Hw. unfold mbind, M_bind, bind, lookup_session, get.
  apply Hk; [|done]. intros Ho. destruct Hw as (_ & _ & _ & Hinj).
  by apply Hc, Hinj.
Qed.

Lemma kept_modify l f :
  Some l ≠ Some l' → triple kept (modify l f) kept.
Proof.
  intros Hne w (Hl & Hs & Hlt & Hinj). repeat split; try done. simpl.
  rewrite lookup_alter_ne; [done|]. by intros ->.
Qed.

Lemma kept_assign_session c s0 :
  c ≠ c' → triple kept (assign_session c s0) kept.
Proof.
  intros Hc w (Hl & Hs & Hlt & Hinj). repeat split; simpl.
  - by rewrite lookup_insert_ne.
  - rewrite lookup_insert_ne; [done|]. lia.
  - lia.
  - intros c1. destruct (decide (c1 = c)) as [->|Hne].
    + rewrite lookup_insert_eq. intros [= Heq]. lia.
    + rewrite lookup_insert_ne by done. apply Hinj.
Qed.

Lemma kept_store_delete c :
  c ≠ c' → triple kept (store_delete c) kept.
Proof.
  intros Hc w (Hl & Hs & Hlt & Hinj). repeat split; simpl; try done.
  - by rewrite lookup_delete_ne.
  - intros c1 [_ H1]%lookup_delete_Some. by apply Hinj.
Qed.
End Others.

(** The parts of [walk] for [holds c' l' s'] in a handler of another
    chat. *)
Ltac kept_pre :=
  apply kept_lookup_session; [assumption|intros ? ?].
Ltac kept_leaf :=
  first [ apply kept_modify; congruence
        | apply kept_assign_session; assumption
        | apply kept_store_delete; assumption
        | let K := fresh in intros ? K; exact K ].

Lemma kept_handle E ev c c' l' s' :
  (∀ t, ev ≠ Timeout t) → event_chat initial ev = Some c → c ≠ c' →
  triple (holds c' l' s') (handle E ev) (holds c' l' s').
Proof.
  intros Hev Hc Hne.
  destruct ev; simpl in Hc; try (by destruct (Hev t));
    injection Hc as ->; simpl; walk_with kept_pre kept_leaf.
Qed.

(** The callback of a timer of another chat. *)
Lemma kept_onExpire E t tm c' l' s' :
  t_chat tm ≠ c' → t_session tm ≠ Some l' →
  triple (holds c' l' s') (clearTimeout t ;; onExpire E tm) (holds c' l' s').
Proof.
  intros Hne Hs. destruct (t_session tm) as [l|] eqn:Hl;
    unfold onExpire; rewrite Hl; walk_with kept_pre kept_leaf.
Qed.

Lemma kept_on_timeout E t c c' l' s' w :
  inv w → (t_chat <$> timers w !! t) = Some c → c ≠ c' →
  holds c' l' s' w → holds c' l' s' (on_timeout E t w).2.
Proof.
  intros Hi Hc Hne Hw. unfold on_timeout. munfold.
  destruct (timers w !! t) as [tm|] eqn:Ht; [|done].
  injection Hc as <-.
  destruct (inv_timers w Hi t tm Ht) as (_ & l & s & Hl & _ & _ & Hs).
  apply kept_onExpire; [done| |done].
  rewrite Hs. intros [= ->]. destruct Hw as (_ & _ & _ & Hinj).
  by apply Hne, Hinj.
Qed.

(** An update, a command, a press, a deadline or a redirect of one chat
    leaves the session of every other chat alone: the store keeps the
    same object for it, and the object holds what it held. *)
Theorem other_chats_untouched db evs E ev c c' l' s' :
  let w := run (start db) evs in
  event_chat w ev = Some c → c ≠ c' →
  userSessions w !! c' = Some l' → heap w !! l' = Some s' →
  userSessions (handle E ev w).2 !! c' = Some l' ∧
  heap (handle E ev w).2 !! l' = Some s'.
Proof.
  intros w Hc Hne Hl Hs.
  assert (inv w) as Hi by apply inv_run, inv_start.
  assert (holds c' l' s' w) as Hw.
  { repeat split; try done.
    - by apply (inv_object w Hi c').
    - intros c1 H1. by apply (inv_inj w Hi c1 c' l'). }
  assert (holds c' l' s' (handle E ev w).2) as (H1 & H2 & _); [|done].
  destruct ev as [| | | | | | | | |t].
  10: by apply (kept_on_timeout E t c).
  all: by apply (kept_handle E _ c).
Qed.
(** * From the list of groups to the wizard *)

Lemma on_press_group_data E c u mid t session :
  on_press E c u mid ("group_" +:+ t) session
  = on_press_group E c mid ("group_" +:+ t) session.
Proof. unfold on_press. by rewrite (startsWith_append "group_" t). Qed.

Lemma on_press_createExpense_data E c u mid t session :
  on_press E c u mid ("createExpense_" +:+ t) session
  = on_press_createExpense c u ("createExpense_" +:+ t).
Proof.
  unfold on_press. rewrite (startsWith_append "createExpense_" t).
  rewrite !append_cons. rewrite !startsWith_cons.
  by destruct (ascii_dec "g" "c").
Qed.

(** The press of the button of a group, in full. *)
Lemma group_pressed E q c u mid w l s t tok grp :
  userSessions w !! c = Some l → heap w !! l = Some s →
  userId s = Some u → all_in not_underscore t →
  tokens w !! c = Some tok → accessToken tok ≠ "" →
  get_group E = Some (Some grp) → edit_ok E = true →
  let n := next_message w in
  ∃ w1,
    on_callback_query E q c u mid ("group_" +:+ t) w = (Val (), w1) ∧
    trace w1 = trace w ++
      [GetGroup t (Some (accessToken tok));
       EditMessageReplyMarkup [] c mid;
       SendMessage c (group_info "*Group Members*:" grp)
         (Some [[Button "Create expense in group" ("createExpense_" +:+ t)]])
         n;
       AnswerCallbackQuery q None] ∧
    userSessions w1 !! c = Some l ∧
    heap w1 !! l = Some (set_timeout (Some (next_timer w))
                           (recorded [mid; n; n] s)) ∧
    next_loc w1 = next_loc w ∧
    next_message w1 = n + 1.
Proof.
  intros Hl Hs Hu Ht Htok Ha Hg He n.
  rewrite (owner_press E q c u mid _ w l s Hl Hs Hu).
  rewrite on_press_group_data.
  unfold on_press_group. rewrite (split_part_group t Ht).
  change (show_undef (Some t)) with t.
  assert (∃ tms, let w0 := World (<[l := set_timeout None s]> (heap w))
                    (userSessions w) tms (tokens w) (next_loc w)
                    (next_timer w) (next_message w) (trace w) in
          disarm l s w = w0) as (tms & ->).
  { unfold disarm. destruct (timeout s) eqn:Hto.
    - by eexists.
    - exists (timers w). destruct w; simpl in *. f_equal.
      apply map_eq. intros l0. destruct (decide (l0 = l)) as [->|Hne].
      + rewrite lookup_insert_eq, Hs. f_equal. destruct s; simpl in *.
        by subst.
      + by rewrite lookup_insert_ne. }
  unfold fetch, editMessageReplyMarkup, setButtonTimeout, push_message,
    record_message, clear_session_timeout.
  rewrite Hg, He. munfold. simpl. rewrite Htok. simpl.
  apply String.eqb_neq in Ha. rewrite ?Ha. simpl.
  repeat (progress (rewrite ?lookup_alter_eq, ?lookup_insert_eq, ?Hl; simpl)).
  eexists. split; [reflexivity|]. simpl.
  rewrite !lookup_alter_eq, lookup_insert_eq. simpl.
  by rewrite <- !app_assoc.
Qed.

(** The press of the button of the details of a group, in full. *)
Lemma createExpense_pressed E q c u mid w l s t :
  userSessions w !! c = Some l → heap w !! l = Some s →
  userId s = Some u → all_in not_underscore t →
  let n := next_message w in
  ∃ w1,
    on_callback_query E q c u mid ("createExpense_" +:+ t) w = (Val (), w1) ∧
    trace w1 = trace w ++
      [SendMessage c description_prompt None n; AnswerCallbackQuery q None] ∧
    userSessions w1 !! c = Some (next_loc w) ∧
    heap w1 !! next_loc w =
      Some (recorded [n] (new_session (Some u) (Some "awaiting_description")
                                      (Some t) None)).
Proof.
  intros Hl Hs Hu Ht n.
  rewrite (owner_press E q c u mid _ w l s Hl Hs Hu).
  rewrite on_press_createExpense_data.
  unfold on_press_createExpense. rewrite (split_part_createExpense t Ht).
  assert (next_loc (disarm l s w) = next_loc w ∧
          next_message (disarm l s w) = next_message w ∧
          trace (disarm l s w) = trace w) as (Hnl & Hnm & Htr).
  { unfold disarm. by destruct (timeout s). }
  set (w0 := disarm l s w) in *.
  unfold open_expense, push_message, recorded, new_session. munfold. simpl.
  rewrite !lookup_insert_eq. simpl. rewrite !lookup_insert_eq. simpl.
  eexists. split; [reflexivity|]. simpl.
  rewrite Hnl, Hnm, Htr, <- app_assoc.
  by rewrite lookup_insert_eq, lookup_alter_eq, lookup_insert_eq.
Qed.

(** From the list of groups to the wizard. The button shown for a group
    of the list carries the id of the group; pressed by the owner in a
    linked chat, it asks the Splitwise API for the group of that id,
    removes the buttons of the list and sends the details with one
    button, which carries the same id; and that button, pressed by the
    owner, opens the expense wizard for the group of that id, with a
    fresh session in place of the old one. *)
Theorem group_button_opens_the_wizard db evs E1 E2 q1 q2 c u mid1 mid2
    l s gs i g tok grp :
  let w := run (start db) evs in
  userSessions w !! c = Some l → heap w !! l = Some s →
  userId s = Some u → gs !! i = Some g →
  tokens w !! c = Some tok → accessToken tok ≠ "" →
  get_group E1 = Some (Some grp) → edit_ok E1 = true →
  let gid := pretty (g_id g) in
  let n := next_message w in
  let press1 := on_callback_query E1 q1 c u mid1 ("group_" +:+ gid) in
  let press2 :=
    on_callback_query E2 q2 c u mid2 ("createExpense_" +:+ gid) in
  group_buttons "group_" gs !! i
    = Some [Button (g_name g) ("group_" +:+ gid)] ∧
  calls press1 w =
    [GetGroup gid (Some (accessToken tok));
     EditMessageReplyMarkup [] c mid1;
     SendMessage c (group_info "*Group Members*:" grp)
       (Some [[Button "Create expense in group" ("createExpense_" +:+ gid)]])
       n;
     AnswerCallbackQuery q1 None] ∧
  calls press2 (press1 w).2 =
    [SendMessage c description_prompt None (n + 1);
     AnswerCallbackQuery q2 None] ∧
  ∃ l2, l2 ≠ l ∧
    userSessions (press2 (press1 w).2).2 !! c = Some l2 ∧
    heap (press2 (press1 w).2).2 !! l2 =
      Some (recorded [n + 1]
              (new_session (Some u) (Some "awaiting_description")
                           (Some gid) None)).
Proof.
  intros w Hl Hs Hu Hg Htok Ha Hgrp He gid n press1 press2.
  assert (inv w) as Hi by apply inv_run, inv_start.
  assert (all_in not_underscore gid) as Hgid
    by apply pretty_Z_all, numeral_not_underscore.
  split; [by apply group_buttons_row|].
  destruct (group_pressed E1 q1 c u mid1 w l s gid tok grp
              Hl Hs Hu Hgid Htok Ha Hgrp He)
    as (w1 & H1 & Htr1 & Hl1 & Hs1 & Hnl1 & Hn1).
  destruct (createExpense_pressed E2 q2 c u mid2 w1 l _ gid Hl1 Hs1 Hu Hgid)
    as (w2 & H2 & Htr2 & Hl2 & Hs2).
  subst press1 press2. unfold calls. rewrite H1. cbn [fst snd].
  rewrite H2. cbn [fst snd]. rewrite Htr2, Htr1, !drop_app_length.
  fold n in Hn1. rewrite Hn1 in *.
  split; [done|]. split; [done|].
  exists (next_loc w1). split; [|done].
  rewrite Hnl1. destruct (inv_object w Hi c l Hl) as [Hlt _]. lia.
Qed.
(** * The selection of a custom split *)

(** After any sequence of events, the members selected in a session are
    members of the roster the session holds, and none of them is
    selected twice. *)
Theorem selected_members_of_the_roster db evs c l s sel :
  let w := run (start db) evs in
  userSessions w !! c = Some l → heap w !! l = Some s →
  selectedMembers s = Some sel →
  NoDup sel ∧
  ∃ ms, members s = Some ms ∧ ∀ id, id ∈ sel → ∃ m, m ∈ ms ∧ m_id m = id.
Proof.
  intros w _ Hs Hsel.
  assert (inv w) as Hi by apply inv_run, inv_start.
  pose proof (inv_selection w Hi l s Hs) as Hok.
  unfold selection_ok in Hok. rewrite Hsel in Hok.
  destruct Hok as (Hnd & ms & Hms & Hin).
  split; [done|]. exists ms. split; [done|].
  intros id Hid. apply Hin, list_elem_of_fmap in Hid as (m & -> & Hm).
  by exists m.
Qed.

(** ** What a session holds at each step *)

Section AllSessions.
Context (G : session → Prop).

Lemma all_modify l f :
  (∀ s, G s → G (f s)) →
  triple (all_sessions G) (modify l f) (all_sessions G).
Proof.
  intros Hf w Hw l' s'. simpl.
  destruct (decide (l' = l)) as [->|Hne].
  - rewrite lookup_alter_eq. destruct (heap w !! l) as [s|] eqn:Hs; [|done].
    intros [= <-]. by apply Hf, (Hw l).
  - rewrite lookup_alter_ne by done. apply Hw.
Qed.

Lemma all_assign c s0 :
  G s0 → triple (all_sessions G) (assign_session c s0) (all_sessions G).
Proof.
  intros H0 w Hw l' s'. simpl.
  destruct (decide (l' = next_loc w)) as [->|Hne].
  - rewrite lookup_insert_eq. by intros [= <-].
  - rewrite lookup_insert_ne by done. apply Hw.
Qed.

Lemma all_insert l s w :
  all_sessions G w → G s →
  all_sessions G (set_heap (<[l := s]> (heap w)) w).
Proof.
  intros Hw Hs l' s'. simpl. destruct (decide (l' = l)) as [->|Hne].
  - rewrite lookup_insert_eq. by intros [= <-].
  - rewrite lookup_insert_ne by done. apply Hw.
Qed.
End AllSessions.

Lemma wizard_ok_new u st g gs :
  st = None ∨ st = Some "awaiting_description" →
  wizard_ok (new_session u st g gs).
Proof. intros Hst. split; simpl; [done|by destruct Hst; auto|by eexists]. Qed.

Lemma wizard_ok_messages ids s :
  wizard_ok s → wizard_ok (set_messageIds (Some ids) s).
Proof. intros [H1 H2 H3]. split; simpl; [done|done|by eexists]. Qed.

Lemma wizard_ok_same s s' :
  amount s' = amount s → step s' = step s →
  description s' = description s → currencyCode s' = currencyCode s →
  userId s' = userId s → messageIds s' = messageIds s →
  wizard_ok s → wizard_ok s'.
Proof.
  intros Ha Hst Hd Hc Hu Hm [H1 H2 H3].
  split; by rewrite ?Ha, ?Hst, ?Hd, ?Hc, ?Hu, ?Hm.
Qed.

(** A leaf of [walk] for [all_sessions wizard_ok]. *)
Ltac wizard_leaf :=
  first
    [ apply all_modify; intros ? ?;
      first [ by apply wizard_ok_messages
            | eapply wizard_ok_same; [..|eassumption]; reflexivity ]
    | apply all_assign;
      first [ apply wizard_ok_new; auto
            | split; simpl; [done|by left|by intros [? [=]]] ]
    | intros ? H; exact H ].

Lemma wizard_on_message c u mid text :
  triple (all_sessions wizard_ok) (on_message c u mid text)
         (all_sessions wizard_ok).
Proof.
  intros w Hw.
  destruct (userSessions w !! c) as [l|] eqn:Hl;
    [|unfold on_message; munfold; by rewrite Hl].
  destruct (heap w !! l) as [s|] eqn:Hs;
    [|unfold on_message; munfold; by rewrite Hl, Hs].
  destruct (decide (userId s = Some u)) as [Hu|Hu];
    [|unfold on_message; munfold; rewrite Hl, Hs; simpl;
      by rewrite bool_decide_eq_false_2].
  pose proof (Hw l s Hs) as Hok.
  destruct text as [text|].
  - destruct (decide (step s = Some "awaiting_description")) as [Hst|Hst1].
    { rewrite (description_taken c u mid text w l s) by done.
      destruct (String.eqb (trim text) "") eqn:Hblank; simpl.
      - apply (all_insert _ l _ (told c _ w)); [done|].
        by apply wizard_ok_messages.
      - apply (all_insert _ l _ (told c _ w)); [done|].
        apply wizard_ok_messages. destruct Hok as [H1 H2 H3].
        split; simpl; [done| |done].
        right; right; left. split; [done|]. eexists. split; [done|].
        by apply String.eqb_neq. }
    destruct (decide (step s = Some "awaiting_amount")) as [Hst|Hst2].
    { destruct (accepted_amount text) as [[a cur]|] eqn:Hacc.
      - rewrite (amount_accepted c u mid text w l s a cur) by done. simpl.
        apply (all_insert _ l _ (World _ _ _ _ _ _ _ _)); [done|].
        apply wizard_ok_messages.
        apply accepted_amount_spec in Hacc
          as (int & frac & ws & code & Hparts & _ & _ & Hnan & Hle & ->).
        destruct Hok as [H1 H2 H3].
        destruct H2 as [H2|[H2|[[_ Hd]|[H2 _]]]]; try congruence.
        split; simpl; [by intros ? [= <-]| |done].
        right; right; right. split; [done|]. split; [done|].
        split; [by eexists|]. eexists. split; [done|].
        destruct Hparts as (_ & _ & _ & Hcode).
        destruct code as [k|]; [exact Hcode|]. by split.
      - rewrite (amount_rejected c u mid text w l s) by done. simpl.
        apply (all_insert _ l _ (World _ _ _ _ _ _ _ _)); [done|].
        by apply wizard_ok_messages. }
    unfold on_message, record_message. munfold. rewrite Hl, Hs. simpl.
    rewrite bool_decide_eq_true_2 by done.
    rewrite lookup_alter_eq, Hs. simpl.
    rewrite !bool_decide_eq_false_2 by done. simpl.
    apply (all_modify _ l _ (λ s H, wizard_ok_messages _ s H) w Hw).
  - unfold on_message, record_message, on_awaiting_description,
      on_awaiting_amount, trimmed.
    munfold. rewrite Hl, Hs. simpl.
    rewrite bool_decide_eq_true_2 by done.
    rewrite lookup_alter_eq, Hs. simpl.
    assert (all_sessions wizard_ok
              (set_heap (alter (λ s0, set_messageIds
                                  (Some (default [] (messageIds s0) ++ [mid]))
                                  s0) l (heap w)) w)) as Hw'.
    { apply (all_modify _ l _ (λ s H, wizard_ok_messages _ s H) w Hw). }
    by repeat case_bool_decide.
Qed.

Lemma wizard_handle E ev :
  triple (all_sessions wizard_ok) (handle E ev) (all_sessions wizard_ok).
Proof.
  destruct ev; simpl;
    first [ apply wizard_on_message | walk wizard_leaf ].
Qed.

Lemma wizard_run w evs :
  all_sessions wizard_ok w → all_sessions wizard_ok (run w evs).
Proof.
  revert w. induction evs as [|[E ev] evs IH]; intros w Hw; [done|].
  simpl. apply IH. by apply wizard_handle.
Qed.

(** The sessions of the store, step by step. After any sequence of
    events, a session whose step is [awaiting_amount] has a description
    that is not empty, and a session whose step is [splitEqually] has,
    besides, an amount and a currency code of three capital letters; an
    amount is a positive number wherever there is one; a session has no
    step or one of these and [awaiting_description]; and a session with
    an owner has its list of recorded messages. *)
Theorem wizard_sessions_in_order db evs c l s :
  let w := run (start db) evs in
  userSessions w !! c = Some l → heap w !! l = Some s → wizard_ok s.
Proof.
  intros w _ Hs. apply (wizard_run (start db) evs) in Hs; [done|].
  intros l' s'. simpl. by rewrite lookup_empty.
Qed.

(** * The theorems at work in chat 7 *)

Lemma access_token_kept_witness :
  (tokens linked !! 7 = Some (Token "tok" (Some "5")) ∧ "tok" ≠ "") ∧
  match tokens (step_world linked (fair, OAuthCallback 7)) !! 7 with
  | Some t' => accessToken t' = "tok"
  | None => OAuthCallback 7 = Unlink 7
  end.
Proof.
  split; [split; [by vm_compute|done]|].
  exact (access_token_kept fair (OAuthCallback 7) linked 7
           (Token "tok" (Some "5")) ltac:(by vm_compute) ltac:(done)).
Defined.

Lemma commands_need_login_witness :
  (truthy (accessToken <$>
             tokens (run (start ∅) [(fair, Login 7 1)]) !! 7) = false ∧
   Expense 7 1 ∈ [GroupList 7 1; SetGroup 7 1; Expense 7 1; BalanceOf 7 1]) ∧
  calls (handle fair (Expense 7 1)) (run (start ∅) [(fair, Login 7 1)])
  = [SendMessage 7 login_first None 2].
Proof.
  split; [split; [by vm_compute|by repeat constructor]|].
  pose proof (commands_need_login ∅ [(fair, Login 7 1)] fair 7 1
                (Expense 7 1)) as H.
  specialize (H ltac:(by vm_compute)).
  specialize (H ltac:(by repeat constructor)).
  destruct H as (_ & _ & H). etrans; [exact H|by vm_compute].
Defined.

Lemma one_deadline_per_chat_witness :
  (timers browsing !! 0%nat = Some (Timer 7 1 (Some 0%nat)) ∧
   t_chat (Timer 7 1 (Some 0%nat)) = 7) ∧
  0%nat = 0%nat.
Proof.
  split; [by vm_compute|].
  apply (one_deadline_per_chat {[ 7 := Token "tok" (Some "5") ]}
           [(fair, GroupList 7 1)] 0%nat 0%nat
           (Timer 7 1 (Some 0%nat)) (Timer 7 1 (Some 0%nat)));
    by vm_compute.
Defined.

Lemma expiry_ends_the_session_witness :
  timers browsing !! 0%nat = Some (Timer 7 1 (Some 0%nat)) ∧
  userSessions (step_world browsing (fair, Timeout 0)) !! 7 = None.
Proof.
  split; [by vm_compute|].
  pose proof (expiry_ends_the_session {[ 7 := Token "tok" (Some "5") ]}
                [(fair, GroupList 7 1)] fair 0%nat
                (Timer 7 1 (Some 0%nat))) as H.
  specialize (H ltac:(by vm_compute)).
  destruct H as (_ & _ & H & _).
  etrans; [exact (f_equal (λ m, m !! 7) H)|apply lookup_delete_eq].
Defined.



Lemma member_button_toggles_its_member_witness :
  (userSessions selecting !! 7 = Some 0%nat ∧
   (heap selecting !! 0%nat ≫= members) = Some [alice; bob; carol] ∧
   [alice; bob; carol] !! 1%nat = Some bob) ∧
  ∃ data,
    member_buttons [alice; bob; carol] !! 1%nat
    = Some [Button (member_name bob) data] ∧
    (on_callback_query fair "q" 7 1 4 data selecting).1 = Val ().
Proof.
  split; [by vm_compute|].
  destruct (member_button_toggles_its_member fair "q" 7 1 4 selecting 0%nat
              (default empty_object (heap selecting !! 0%nat))
              [alice; bob; carol] [] 1%nat bob
              ltac:(by vm_compute) ltac:(by vm_compute)
              ltac:(by vm_compute) ltac:(by vm_compute)
              ltac:(by vm_compute) ltac:(by vm_compute))
    as (text & data & H1 & _ & H3).
  exists data. split; [exact H1|]. by rewrite H3.
Defined.

Lemma default_group_button_witness :
  (userSessions picking !! 7 = Some 0%nat ∧
   (heap picking !! 0%nat ≫= groups) = Some [trip] ∧
   tokens picking !! 7 = Some (Token "tok" (Some "5")) ∧
   db_write_ok fair = true) ∧
  group_buttons "setgroup_" [trip] !! 0%nat
  = Some [Button "Trip" ("setgroup_" +:+ pretty (g_id trip))].
Proof.
  split; [by vm_compute|].
  exact (proj1 (default_group_button fair "q" 7 1 1 picking 0%nat
                  (default empty_object (heap picking !! 0%nat))
                  [trip] 0%nat trip (Token "tok" (Some "5"))
                  ltac:(by vm_compute) ltac:(by vm_compute)
                  ltac:(by vm_compute) ltac:(by vm_compute)
                  ltac:(by vm_compute) ltac:(by vm_compute)
                  ltac:(by vm_compute))).
Defined.

Lemma expense_opens_the_wizard_witness :
  (tokens linked !! 7 = Some (Token "tok" (Some "5")) ∧
   "tok" ≠ "" ∧ "5" ≠ "") ∧
  calls (handle fair (Expense 7 1)) linked
  = [SendMessage 7 description_prompt None 1].
Proof.
  split; [split; [by vm_compute|done]|].
  pose proof (expense_opens_the_wizard {[ 7 := Token "tok" (Some "5") ]} []
                fair 7 1 "tok" "5") as H.
  specialize (H ltac:(by vm_compute)).
  specialize (H ltac:(done)). specialize (H ltac:(done)).
  destruct H as (H & _). etrans; [exact H|by vm_compute].
Defined.



Lemma wizard_sessions_in_order_witness :
  (userSessions deciding !! 7 = Some 0%nat ∧
   (heap deciding !! 0%nat ≫= step) = Some "splitEqually") ∧
  wizard_ok (default empty_object (heap deciding !! 0%nat)).
Proof.
  split; [by vm_compute|].
  apply (wizard_sessions_in_order {[ 7 := Token "tok" (Some "5") ]}
           [(fair, Expense 7 1);
            (fair, Message 7 1 100 (Some "Dinner"));
            (fair, Message 7 1 101 (Some "30"))] 7 0%nat);
    by vm_compute.
Defined.

Lemma login_round_trip_witness :
  (truthy (accessToken <$> tokens (start ∅) !! 7) = false ∧
   exchange_code fair = Some (Some "tok") ∧ db_write_ok fair = true) ∧
  tokens (step_world (step_world (start ∅) (fair, Login 7 1))
                     (fair, OAuthCallback 7)) !! 7
  = Some (Token "tok" None).
Proof.
  split; [by vm_compute|].
  pose proof (login_round_trip ∅ [] fair fair 7 1 "tok") as H.
  do 3 (specialize (H ltac:(by vm_compute))).
  destruct H as (_ & _ & H).
  etrans; [exact (f_equal (λ m, m !! 7) H)|by vm_compute].
Defined.

Lemma unsaved_token_goes_unnoticed_witness :
  (truthy (accessToken <$> tokens (start ∅) !! 7) = false ∧
   exchange_code readonly = Some (Some "tok") ∧
   db_write_ok readonly = false) ∧
  tokens (step_world (start ∅) (readonly, OAuthCallback 7)) = tokens (start ∅).
Proof.
  split; [by vm_compute|].
  pose proof (unsaved_token_goes_unnoticed ∅ [] readonly 7 "tok") as H.
  do 3 (specialize (H ltac:(by vm_compute))).
  exact (proj1 H).
Defined.

Lemma group_list_opens_witness :
  (tokens linked !! 7 = Some (Token "tok" (Some "5")) ∧ "tok" ≠ "" ∧
   get_groups fair = Some (Some [trip])) ∧
  calls (handle fair (GroupList 7 1)) linked
  = [GetGroups (Some "tok");
     SendMessage 7 "Here are your groups:"
       (Some (group_buttons "group_" [trip])) 1].
Proof.
  split; [split; [by vm_compute|split; [done|by vm_compute]]|].
  pose proof (group_list_opens {[ 7 := Token "tok" (Some "5") ]} []
                fair 7 1 (Token "tok" (Some "5")) trip []) as H.
  specialize (H ltac:(by vm_compute)).
  specialize (H ltac:(done)). specialize (H ltac:(by vm_compute)).
  destruct H as (H & _). etrans; [exact H|by vm_compute].
Defined.


Lemma other_chats_untouched_witness :
  (event_chat neighbours (Message 7 1 100 (Some "Dinner")) = Some 7 ∧
   userSessions neighbours !! 8 = Some 1%nat) ∧
  userSessions (handle fair (Message 7 1 100 (Some "Dinner"))
                  neighbours).2 !! 8 = Some 1%nat.
Proof.
  split; [by vm_compute|].
  pose proof (other_chats_untouched
                {[ 7 := Token "tok" (Some "5"); 8 := Token "tok" (Some "5") ]}
                [(fair, Expense 7 1); (fair, Expense 8 2)]
                fair (Message 7 1 100 (Some "Dinner")) 7 8 1%nat
                (default empty_object (heap neighbours !! 1%nat))) as H.
  cbv zeta in H.
  specialize (H ltac:(by vm_compute) ltac:(done) ltac:(by vm_compute)
                ltac:(by vm_compute)).
  exact (proj1 H).
Defined.

Lemma group_button_opens_the_wizard_witness :
  (userSessions browsing !! 7 = Some 0%nat ∧
   (heap browsing !! 0%nat ≫= userId) = Some 1 ∧
   tokens browsing !! 7 = Some (Token "tok" (Some "5"))) ∧
  calls (on_callback_query fair "q2" 7 1 2 "createExpense_5")
        (on_callback_query fair "q1" 7 1 1 "group_5" browsing).2
  = [SendMessage 7 description_prompt None 3; AnswerCallbackQuery "q2" None].
Proof.
  split; [by vm_compute|].
  pose proof (group_button_opens_the_wizard
                {[ 7 := Token "tok" (Some "5") ]} [(fair, GroupList 7 1)]
                fair fair "q1" "q2" 7 1 1 2 0%nat
                (default empty_object (heap browsing !! 0%nat))
                [trip] 0%nat trip (Token "tok" (Some "5")) trip) as H.
  cbv zeta in H.
  specialize (H ltac:(by vm_compute) ltac:(by vm_compute)
                ltac:(by vm_compute) ltac:(by vm_compute)
                ltac:(by vm_compute) ltac:(done)
                ltac:(by vm_compute) ltac:(by vm_compute)).
  destruct H as (_ & _ & H & _). etrans; [exact H|by vm_compute].
Defined.

Lemma selected_members_of_the_roster_witness :
  (userSessions selected3 !! 7 = Some 0%nat ∧
   (heap selected3 !! 0%nat ≫= selectedMembers) = Some [11; 12; 13]) ∧
  NoDup [11; 12; 13].
Proof.
  split; [by vm_compute|].
  pose proof (selected_members_of_the_roster
                {[ 7 := Token "tok" (Some "5") ]}
                [(fair, Expense 7 1);
                 (fair, Message 7 1 100 (Some "Dinner"));
                 (fair, Message 7 1 101 (Some "30"));
                 (fair, CallbackQuery "q2" 7 1 3 "splitEquallyNo");
                 (fair, CallbackQuery "q3" 7 1 4 "toggle_member_0");
                 (fair, CallbackQuery "q4" 7 1 4 "toggle_member_1");
                 (fair, CallbackQuery "q5" 7 1 4 "toggle_member_2")]
                7 0%nat (default empty_object (heap selected3 !! 0%nat))
                [11; 12; 13]) as H.
  cbv zeta in H.
  specialize (H ltac:(by vm_compute) ltac:(by vm_compute)
                ltac:(by vm_compute)).
  exact (proj1 H).
Defined.
